(** * Issue service: a shallow embedding of [internal/issues]

    The service layer of the issue tracker (state machine, category rules,
    dependency normalization and the four transactional mutations) is
    embedded over a finite map that stands for the [issues] table.  Each
    definition keeps the name of the Go function it is translated from. *)

From Stdlib Require Import ZArith Ascii String List Bool Lia DecimalString.
From stdpp Require Import base option list gmap strings sorting.

Local Open Scope string_scope.
Local Open Scope Z_scope.

(** ** The fragment of Go's [strings], [regexp] and [fmt] that the service uses

    Go strings are byte sequences and so are Rocq's.  The functions of this
    module work byte by byte in Go too. *)
Module GoStrings.

Definition byte_between (lo hi : nat) (c : ascii) : bool :=
  (lo <=? nat_of_ascii c)%nat && (nat_of_ascii c <=? hi)%nat.

(** '\t', '\n', '\v', '\f', '\r' and ' ' *)
Definition isSpace (c : ascii) : bool :=
  byte_between 9 13 c || (nat_of_ascii c =? 32)%nat.

Definition isUpper (c : ascii) : bool := byte_between 65 90 c.
Definition isLowerLetter (c : ascii) : bool := byte_between 97 122 c.
Definition isDigit (c : ascii) : bool := byte_between 48 57 c.

Definition toLowerByte (c : ascii) : ascii :=
  if isUpper c then ascii_of_nat (nat_of_ascii c + 32) else c.

Fixpoint all_bytes (p : ascii -> bool) (s : string) : bool :=
  match s with
  | EmptyString => true
  | String c s' => p c && all_bytes p s'
  end.

(** [strings.Contains] *)
Fixpoint Contains (s sub : string) : bool :=
  String.prefix sub s ||
  match s with
  | EmptyString => false
  | String _ s' => Contains s' sub
  end.

(** [strings.SplitN(s, "-", 2)]: cut at the first hyphen, if any. *)
Fixpoint SplitN2 (s : string) : list string :=
  match s with
  | EmptyString => [EmptyString]
  | String c s' =>
      if Ascii.eqb c "-"%char then [EmptyString; s']
      else match SplitN2 s' with
           | [a] => [String c a]
           | a :: rest => String c a :: rest
           | [] => []
           end
  end.

(** [strings.Join] *)
Fixpoint Join (elems : list string) (sep : string) : string :=
  match elems with
  | [] => EmptyString
  | [a] => a
  | a :: rest => a ++ sep ++ Join rest sep
  end.

(** the verb [%d] of [fmt.Sprintf] on an integer *)
Definition FormatInt (n : Z) : string := NilZero.string_of_int (Z.to_int n).


(** The bytes of ASCII text, and a string made of them. *)
Definition asciiByte (c : ascii) : bool := (nat_of_ascii c <? 128)%nat.

Definition isASCII (s : string) : bool := all_bytes asciiByte s.

End GoStrings.
Import GoStrings.

(** ** [strings.ToLower], [strings.TrimSpace] and the verb [%q]

    These three decode their argument as UTF-8: [TrimSpace] also removes
    U+0085, U+00A0 and the other Unicode spaces, [ToLower] maps every
    letter that has a lower case, and [%q] escapes by code point.  On ASCII
    text they work byte by byte, as written in the module [ASCII]; on other
    text nothing is assumed of them.  The service is embedded over any three
    functions with that behaviour on ASCII text, Go's among them. *)
Module ASCII.

Fixpoint ToLower (s : string) : string :=
  match s with
  | EmptyString => EmptyString
  | String c s' => String (toLowerByte c) (ToLower s')
  end.

Fixpoint TrimLeft (s : string) : string :=
  match s with
  | EmptyString => EmptyString
  | String c s' => if isSpace c then TrimLeft s' else s
  end.

Fixpoint TrimRight (s : string) : string :=
  match s with
  | EmptyString => EmptyString
  | String c s' =>
      match TrimRight s' with
      | EmptyString => if isSpace c then EmptyString else String c EmptyString
      | t => String c t
      end
  end.

Definition TrimSpace (s : string) : string := TrimRight (TrimLeft s).

(** [strconv.Quote] on ASCII text: the string between two double quotes,
    with the quote and the backslash escaped by a backslash, the control
    bytes 7 to 13 written as [\a \b \t \n \v \f \r] and every other byte
    below 32, and 127, written as [\x] and two lowercase hex digits. *)
Definition hexDigit (n : nat) : ascii :=
  ascii_of_nat (if (n <? 10)%nat then 48 + n else 87 + n).

Definition quoteByte (c : ascii) : string :=
  let n := nat_of_ascii c in
  let bs := ascii_of_nat 92 in
  if (n =? 34)%nat || (n =? 92)%nat then String bs (String c EmptyString)
  else if (n =? 7)%nat then String bs "a"
  else if (n =? 8)%nat then String bs "b"
  else if (n =? 9)%nat then String bs "t"
  else if (n =? 10)%nat then String bs "n"
  else if (n =? 11)%nat then String bs "v"
  else if (n =? 12)%nat then String bs "f"
  else if (n =? 13)%nat then String bs "r"
  else if (n <? 32)%nat || (n =? 127)%nat then
    String bs (String "x"%char
      (String (hexDigit (n / 16)) (String (hexDigit (n mod 16)) EmptyString)))
  else String c EmptyString.

Fixpoint quoteBytes (s : string) : string :=
  match s with
  | EmptyString => EmptyString
  | String c s' => quoteByte c ++ quoteBytes s'
  end.

Definition Quote (s : string) : string :=
  String (ascii_of_nat 34) (quoteBytes s ++ String (ascii_of_nat 34) EmptyString).

End ASCII.

Class Strings := {
  TrimSpace : string -> string;
  ToLower : string -> string;
  Quote : string -> string;
  TrimSpace_ascii s : isASCII s = true -> TrimSpace s = ASCII.TrimSpace s;
  ToLower_ascii s : isASCII s = true -> ToLower s = ASCII.ToLower s;
  Quote_ascii s : isASCII s = true -> Quote s = ASCII.Quote s
}.

(** The three functions on ASCII text, used to run the service on examples. *)
Definition asciiStrings : Strings :=
  {| TrimSpace := ASCII.TrimSpace;
     ToLower := ASCII.ToLower;
     Quote := ASCII.Quote;
     TrimSpace_ascii := fun _ _ => eq_refl;
     ToLower_ascii := fun _ _ => eq_refl;
     Quote_ascii := fun _ _ => eq_refl |}.

(** [[a-z0-9]] *)
Definition lowerAlnum (c : ascii) : bool := isLowerLetter c || isDigit c.

(** [regexp.MustCompile(`^[a-z0-9]{3}$`).MatchString] *)
Definition projectPrefixRe (s : string) : bool :=
  match s with
  | String a (String b (String c EmptyString)) =>
      lowerAlnum a && lowerAlnum b && lowerAlnum c
  | _ => false
  end.

(** [regexp.MustCompile(`^[a-z0-9]{3}-[0-9]+$`).MatchString] *)
Definition issueIDRe (s : string) : bool :=
  match s with
  | String a (String b (String c (String h (String d rest)))) =>
      lowerAlnum a && lowerAlnum b && lowerAlnum c && Ascii.eqb h "-"%char
      && isDigit d && all_bytes isDigit rest
  | _ => false
  end.

(** ** types.go *)

Definition State := string.
Definition StateTodo : State := "todo".
Definition StateInProgress : State := "in_progress".
Definition StateBlocked : State := "blocked".
Definition StateDone : State := "done".
Definition StateCanceled : State := "canceled".

Definition Category := string.
Definition CategoryTask : Category := "task".
Definition CategoryWorkstream : Category := "workstream".
Definition CategoryProject : Category := "project".

(** Timestamps are seconds on the store's clock. *)
Definition Time := Z.

Record Issue := mkIssue {
  ID : string;
  ProjectPrefix : string;
  Category_ : Category;
  Title : string;
  Body : string;
  State_ : State;
  ParentID : option string;
  Version : Z;
  BlockedBy : list string;
  CreatedAt : Time;
  LastUpdatedAt : Time;
  ClosedAt : option Time
}.

(** ** errors.go *)

Inductive Sentinel :=
| ErrInvalidInput
| ErrNotFound
| ErrConflict
| ErrInvalidStateTransition
| ErrDepthExceeded
| ErrCycleDetected.

Inductive Arg :=
| AStr (s : string)
| AInt (n : Z).

(** [Errorf fmt sentinel args] is [fmt.Errorf(fmt, sentinel, args...)] with
    [%w] bound to the sentinel; [DriverError msg] is an error handed up
    unchanged from the store driver. *)
Inductive error :=
| Errorf (format : string) (sentinel : Sentinel) (args : list Arg)
| DriverError (msg : string).

Global Instance Sentinel_eq_dec : EqDecision Sentinel.
Proof. solve_decision. Defined.

(** [errors.Unwrap] and [errors.Is(err, target)] *)
Definition Unwrap (err : error) : option Sentinel :=
  match err with
  | Errorf _ s _ => Some s
  | DriverError _ => None
  end.

Definition errors_Is (err : error) (target : Sentinel) : bool :=
  bool_decide (Unwrap err = Some target).

Definition sentinel_text (s : Sentinel) : string :=
  match s with
  | ErrInvalidInput => "invalid input"
  | ErrNotFound => "not found"
  | ErrConflict => "conflict"
  | ErrInvalidStateTransition => "invalid state transition"
  | ErrDepthExceeded => "depth exceeded"
  | ErrCycleDetected => "cycle detected"
  end.

(** ** state_machine.go *)

Definition validTransitions : gmap State (gmap State bool) :=
  <[StateTodo :=
      <[StateInProgress := true]> (<[StateBlocked := true]> (<[StateCanceled := true]> ∅))]>
  (<[StateInProgress :=
      <[StateBlocked := true]> (<[StateDone := true]> (<[StateTodo := true]>
        (<[StateCanceled := true]> ∅)))]>
  (<[StateBlocked :=
      <[StateTodo := true]> (<[StateInProgress := true]> (<[StateCanceled := true]> ∅))]>
  (<[StateDone := <[StateTodo := true]> ∅]>
  (<[StateCanceled := <[StateTodo := true]> ∅]> ∅)))).

Definition IsValidState (s : State) : bool :=
  match validTransitions !! s with
  | Some _ => true
  | None => false
  end.

(** A missing key of a Go map reads as the zero value, [false]. *)
Definition ValidateTransition (from to : State) : option error :=
  if bool_decide (from = to) then None
  else
    match validTransitions !! from with
    | Some next =>
        if default false (next !! to) then None
        else Some (Errorf "%w: %s -> %s" ErrInvalidStateTransition [AStr from; AStr to])
    | None => Some (Errorf "%w: %s -> %s" ErrInvalidStateTransition [AStr from; AStr to])
    end.

(** ** category rules *)

Definition IsValidCategory (c : Category) : bool :=
  bool_decide (c = CategoryTask) || bool_decide (c = CategoryWorkstream)
  || bool_decide (c = CategoryProject).

Definition expectedParentCategory (c : Category) : Category * bool :=
  if bool_decide (c = CategoryTask) then (CategoryWorkstream, true)
  else if bool_decide (c = CategoryWorkstream) then (CategoryProject, true)
  else if bool_decide (c = CategoryProject) then (EmptyString, false)
  else (EmptyString, false).


(** ** The [issues] table

    A row holds the columns of [schema.sql] other than the primary key [id],
    which is the key of the map.  [version] is SQLite's INTEGER, a 64-bit
    value that scans into the [int64] of [Issue.Version]; the only arithmetic
    on it is the store's [version + 1], the integer sum as long as the
    version is below the largest [int64].  (At the largest [int64] SQLite
    yields a REAL, which the read-back cannot scan, so the call fails and is
    rolled back; the statements about updates are made below that value.) *)

Record Row := mkRow {
  category : Category;
  title : string;
  body : string;
  state : State;
  parent_id : option string;
  version : Z;
  blocked_by : list string;
  created_at : Time;
  last_updated_at : Time;
  closed_at : option Time
}.

Abbreviation Store := (gmap string Row).

(** ** Transactions

    A computation inside a [*sql.Tx] reads and writes a working copy of the
    table and either fails or yields a value and the new working copy.  The
    copy is published by [Commit] and dropped by [Rollback].  One process
    talks to the table at a time: [BeginTx], [Commit], the reads and
    [json.Marshal] of a string slice do not fail, and the only error the
    driver raises is the primary-key violation of [execInsert]. *)

Definition Tx (A : Type) : Type := Store -> error + (A * Store).

Definition tx_ret {A} (a : A) : Tx A := fun tx => inr (a, tx).
Definition tx_fail {A} (e : error) : Tx A := fun _ => inl e.
Definition tx_bind {A B} (m : Tx A) (k : A -> Tx B) : Tx B :=
  fun tx => match m tx with
            | inl e => inl e
            | inr (a, tx') => k a tx'
            end.

Declare Scope tx_scope.
Delimit Scope tx_scope with tx.
Notation "x <- m ;; k" := (tx_bind m (fun x => k))
  (at level 100, m at next level, right associativity) : tx_scope.
Notation "m ;;; k" := (tx_bind m (fun _ => k))
  (at level 100, right associativity) : tx_scope.
Local Open Scope tx_scope.

(** [if err != nil { return nil, err }] on a plain [error] value *)
Definition tx_check (e : option error) : Tx unit :=
  match e with
  | Some err => tx_fail err
  | None => tx_ret tt
  end.

(** [defer tx.Rollback()] followed by [tx.Commit()] on the success path. *)
Definition run_tx {A} (db : Store) (m : Tx A) : (error + A) * Store :=
  match m db with
  | inl e => (inl e, db)
  | inr (a, tx) => (inr a, tx)
  end.

(** ** The service, over the string functions *)
Section Service.
Context {str : Strings}.

Definition render_arg (verb : ascii) (a : Arg) : string :=
  match a with
  | AStr s => if Ascii.eqb verb "q"%char then Quote s else s
  | AInt n => FormatInt n
  end.

(** The verbs [%w], [%s], [%q] and [%d] of a format string. *)
Fixpoint Sprintf (format : string) (w : string) (args : list Arg) : string :=
  match format with
  | String "%"%char (String v rest) =>
      if Ascii.eqb v "w"%char then w ++ Sprintf rest w args
      else match args with
           | a :: args' => render_arg v a ++ Sprintf rest w args'
           | [] => Sprintf rest w []
           end
  | String c rest => String c (Sprintf rest w args)
  | EmptyString => EmptyString
  end.

(** [err.Error()] *)
Definition Error (err : error) : string :=
  match err with
  | Errorf format s args => Sprintf format (sentinel_text s) args
  | DriverError msg => msg
  end.

Definition projectPrefixFromIssueID (id : string) : string * bool :=
  match SplitN2 (ToLower (TrimSpace id)) with
  | [p0; _] => if projectPrefixRe p0 then (p0, true) else (EmptyString, false)
  | _ => (EmptyString, false)
  end.

(** [scanIssue] on the row stored under [id]. *)
Definition scanIssue (id : string) (r : Row) : Issue :=
  {| ID := id;
     ProjectPrefix := (let (prefix, ok) := projectPrefixFromIssueID id in
                       if ok then prefix else EmptyString);
     Category_ := category r;
     Title := title r;
     Body := body r;
     State_ := state r;
     ParentID := parent_id r;
     Version := version r;
     BlockedBy := blocked_by r;
     CreatedAt := created_at r;
     LastUpdatedAt := last_updated_at r;
     ClosedAt := closed_at r |}.

Definition getIssueByIDTx (id : string) : Tx Issue :=
  fun tx => match tx !! id with
            | Some r => inr (scanIssue id r, tx)
            | None => inl (Errorf "%w: issue %q not found" ErrNotFound [AStr id])
            end.

(** [trg_issues_last_updated_at]: AFTER UPDATE, refresh [last_updated_at]. *)
Definition trg_issues_last_updated_at (now : Time) (r : Row) : Row :=
  {| category := category r; title := title r; body := body r; state := state r;
     parent_id := parent_id r; version := version r; blocked_by := blocked_by r;
     created_at := created_at r; last_updated_at := now; closed_at := closed_at r |}.

(** [UPDATE issues SET ... WHERE id = ? [AND version = ?]]; the result is
    [RowsAffected]. *)
Definition execUpdate (now : Time) (set : Row -> Row) (id : string)
    (expectedVersion : option Z) : Tx Z :=
  fun tx =>
    match tx !! id with
    | Some r =>
        if match expectedVersion with
           | Some v => bool_decide (version r = v)
           | None => true
           end
        then inr (1, <[id := trg_issues_last_updated_at now (set r)]> tx)
        else inr (0, tx)
    | None => inr (0, tx)
    end.

(** [INSERT INTO issues ...]: the primary key rejects a second row under [id]. *)
Definition execInsert (id : string) (r : Row) : Tx unit :=
  fun tx =>
    match tx !! id with
    | Some _ => inl (DriverError "constraint failed: UNIQUE constraint failed: issues.id (1555)")
    | None => inr (tt, <[id := r]> tx)
    end.

Definition isUniqueViolation (err : error) : bool :=
  Contains (ToLower (Error err)) "unique".

(** [v, err := m; if err != nil { ... }] where the error is inspected. *)
Definition tx_try {A} (m : Tx A) : Tx (error + A) :=
  fun tx => match m tx with
            | inl e => inr (inl e, tx)
            | inr (a, tx') => inr (inr a, tx')
            end.

(** ** Dependency helpers *)

Fixpoint normalizeBlockedByLoop (issueID projectPrefix : string)
    (blockedBy : list string) (seen : gmap string bool) (out : list string)
    : Tx (list string) :=
  match blockedBy with
  | [] => tx_ret out
  | raw :: rest =>
      let id := ToLower (TrimSpace raw) in
      if bool_decide (id = EmptyString) then
        normalizeBlockedByLoop issueID projectPrefix rest seen out
      else if negb (issueIDRe id) then
        tx_fail (Errorf "%w: invalid blocked_by issue id %q" ErrInvalidInput [AStr id])
      else if bool_decide (id = issueID) then
        tx_fail (Errorf "%w: blocked_by cannot include self" ErrInvalidInput [])
      else if default false (seen !! id) then
        normalizeBlockedByLoop issueID projectPrefix rest seen out
      else
        let seen := <[id := true]> seen in
        let (prefix, ok) := projectPrefixFromIssueID id in
        if negb ok || negb (bool_decide (prefix = projectPrefix)) then
          tx_fail (Errorf "%w: blocked_by issue must be in same project: %q"
                     ErrInvalidInput [AStr id])
        else
          r <- tx_try (getIssueByIDTx id);;
          match r with
          | inl err =>
              if errors_Is err ErrNotFound then
                tx_fail (Errorf "%w: blocked_by issue %q not found" ErrNotFound [AStr id])
              else tx_fail err
          | inr dep =>
              if negb (bool_decide (ProjectPrefix dep = projectPrefix)) then
                tx_fail (Errorf "%w: blocked_by issue must be in same project: %q"
                           ErrInvalidInput [AStr id])
              else
                normalizeBlockedByLoop issueID projectPrefix rest seen (out ++ [id])
          end
  end.

Definition normalizeBlockedByTx (issueID projectPrefix : string)
    (blockedBy : list string) : Tx (list string) :=
  normalizeBlockedByLoop issueID projectPrefix blockedBy ∅ [].

Fixpoint unresolvedBlockedByLoop (deps : list string) (unresolved : list string)
    : Tx (list string) :=
  match deps with
  | [] => tx_ret unresolved
  | depID :: rest =>
      r <- tx_try (getIssueByIDTx depID);;
      match r with
      | inl err =>
          if errors_Is err ErrNotFound then
            tx_fail (Errorf "%w: blocked_by issue %q not found" ErrNotFound [AStr depID])
          else tx_fail err
      | inr dep =>
          if negb (bool_decide (State_ dep = StateDone)) then
            unresolvedBlockedByLoop rest (unresolved ++ [ID dep])
          else unresolvedBlockedByLoop rest unresolved
      end
  end.

Definition unresolvedBlockedByTx (issue : Issue) : Tx (list string) :=
  unresolvedBlockedByLoop (BlockedBy issue) [].

(** ** Identifier allocation *)

Definition wrap64 (z : Z) : Z := (z + 2 ^ 63) mod 2 ^ 64 - 2 ^ 63.

(** [n] is the value handed back by [rand.Int(rand.Reader, big.NewInt(900000))],
    which the library draws from [[0, 900000)]; [n.Int64()] keeps the low
    64 bits and the sum is an [int64] sum.  The entropy source does not
    fail. *)
Definition randomIssueNumber (n : Z) : Z := wrap64 (100000 + wrap64 n).

(** ** Service operations

    Every operation takes the table [db] and the store's clock [now]
    (CURRENT_TIMESTAMP) and returns its result with the table afterwards. *)

Definition hasParentID (parentID : option string) : bool :=
  match parentID with
  | Some p => negb (bool_decide (TrimSpace p = EmptyString))
  | None => false
  end.

(** The part of one creation attempt that precedes the INSERT. *)
Definition createChecksTx (projectPrefix : string) (category : Category)
    (issueID : string) (parentID : option string) (blockedBy : list string)
    : Tx (option string * list string) :=
  let (requiredParentCategory, needsParent) := expectedParentCategory category in
  let hasParent := hasParentID parentID in
  if needsParent && negb hasParent then
    tx_fail (Errorf "%w: category %q requires parent category %q" ErrInvalidInput
               [AStr category; AStr requiredParentCategory])
  else if negb needsParent && hasParent then
    tx_fail (Errorf "%w: category %q cannot have a parent" ErrInvalidInput [AStr category])
  else
    cleanParent <-
      (if hasParent then
         let pid := TrimSpace (default EmptyString parentID) in
         r <- tx_try (getIssueByIDTx pid);;
         match r with
         | inl err =>
             if errors_Is err ErrNotFound then
               tx_fail (Errorf "%w: parent issue %q not found" ErrNotFound [AStr pid])
             else tx_fail err
         | inr parent =>
             if negb (bool_decide (ProjectPrefix parent = projectPrefix)) then
               tx_fail (Errorf "%w: parent issue must be in same project" ErrInvalidInput [])
             else if negb (bool_decide (Category_ parent = requiredParentCategory)) then
               tx_fail (Errorf "%w: category %q requires parent category %q" ErrInvalidInput
                          [AStr category; AStr requiredParentCategory])
             else tx_ret (Some pid)
         end
       else tx_ret None);;
    normalizedBlockedBy <- normalizeBlockedByTx issueID projectPrefix blockedBy;;
    tx_ret (cleanParent, normalizedBlockedBy).

(** The row written by [INSERT INTO issues(...) VALUES (?, ?, ?, ?, 'todo', ?, 1, ?)];
    the remaining columns take their defaults. *)
Definition insertedRow (now : Time) (category : Category) (title body : string)
    (cleanParent : option string) (normalizedBlockedBy : list string) : Row :=
  {| category := category; title := title; body := body; state := "todo";
     parent_id := cleanParent; version := 1; blocked_by := normalizedBlockedBy;
     created_at := now; last_updated_at := now; closed_at := None |}.

Inductive attempt :=
| Return (r : error + Issue) (db : Store)
| Continue.

(** One iteration of the allocation loop, with [number] already drawn:
    the checks, the INSERT (a unique violation rolls back and continues, any
    other error rolls back and returns), the read-back and the commit. *)
Definition createAttempt (db : Store) (now : Time) (projectPrefix : string)
    (category : Category) (title body : string) (parentID : option string)
    (blockedBy : list string) (number : Z) : attempt :=
  let issueID := Sprintf "%s-%d" EmptyString [AStr projectPrefix; AInt number] in
  match createChecksTx projectPrefix category issueID parentID blockedBy db with
  | inl err => Return (inl err) db
  | inr ((cleanParent, normalizedBlockedBy), tx) =>
      match execInsert issueID
              (insertedRow now category title body cleanParent normalizedBlockedBy) tx with
      | inl err =>
          if isUniqueViolation err then Continue else Return (inl err) db
      | inr (_, tx) =>
          match getIssueByIDTx issueID tx with
          | inl err => Return (inl err) db
          | inr (issue, tx) => Return (inr issue) tx
          end
      end
  end.

Definition maxCreateAttempts : nat := 8.

(** [for attempt := 0; attempt < maxCreateAttempts; attempt++]; [remaining] is
    [maxCreateAttempts - attempt] and [draw k] is the value of the [k]-th call
    of [rand.Int]. *)
Fixpoint createLoop (remaining attempt_no : nat) (draw : nat -> Z) (db : Store)
    (now : Time) (projectPrefix : string) (category : Category)
    (title body : string) (parentID : option string) (blockedBy : list string)
    : (error + Issue) * Store :=
  match remaining with
  | O => (inl (Errorf "%w: failed to allocate issue number after retries" ErrConflict []), db)
  | S remaining' =>
      match createAttempt db now projectPrefix category title body parentID blockedBy
              (randomIssueNumber (draw attempt_no)) with
      | Return r db' => (r, db')
      | Continue =>
          createLoop remaining' (S attempt_no) draw db now projectPrefix category
            title body parentID blockedBy
      end
  end.

Definition CreateIssue (draw : nat -> Z) (db : Store) (now : Time)
    (projectPrefix : string) (category : Category) (title body : string)
    (parentID : option string) (blockedBy : list string) : (error + Issue) * Store :=
  let projectPrefix := TrimSpace (ToLower projectPrefix) in
  let title := TrimSpace title in
  if negb (projectPrefixRe projectPrefix) then
    (inl (Errorf "%w: project prefix must be exactly 3 lowercase alphanumeric chars"
            ErrInvalidInput []), db)
  else if negb (IsValidCategory category) then
    (inl (Errorf "%w: unknown category %q" ErrInvalidInput [AStr category]), db)
  else if bool_decide (title = EmptyString) then
    (inl (Errorf "%w: title is required" ErrInvalidInput []), db)
  else
    createLoop maxCreateAttempts 0 draw db now projectPrefix category title body
      parentID blockedBy.

Definition GetIssue (db : Store) (id : string) : error + Issue :=
  match getIssueByIDTx (TrimSpace id) db with
  | inl e => inl e
  | inr (issue, _) => inr issue
  end.

(** [SET state = ?, version = version + 1, last_updated_at = CURRENT_TIMESTAMP,
    closed_at = CURRENT_TIMESTAMP | NULL] *)
Definition setState (now : Time) (to : State) (r : Row) : Row :=
  {| category := category r; title := title r; body := body r; state := to;
     parent_id := parent_id r; version := version r + 1; blocked_by := blocked_by r;
     created_at := created_at r; last_updated_at := now;
     closed_at := if bool_decide (to = StateDone) || bool_decide (to = StateCanceled)
                  then Some now else None |}.

(** What follows an UPDATE: zero rows affected is a conflict when a version
    was expected and not-found otherwise; else the row is read back. *)
Definition afterUpdate (id : string) (expectedVersion : option Z) (affected : Z)
    : Tx Issue :=
  if bool_decide (affected = 0) then
    match expectedVersion with
    | Some v => tx_fail (Errorf "%w: stale write; expected version %d" ErrConflict [AInt v])
    | None => tx_fail (Errorf "%w: issue %q not found" ErrNotFound [AStr id])
    end
  else getIssueByIDTx id.

Definition TransitionStateTx (now : Time) (id : string) (to : State)
    (expectedVersion : option Z) : Tx Issue :=
  issue <- getIssueByIDTx id;;
  tx_check (ValidateTransition (State_ issue) to);;;
  (if bool_decide (to = StateInProgress) then
     unresolved <- unresolvedBlockedByTx issue;;
     if (0 <? length unresolved)%nat then
       tx_fail (Errorf "%w: blocked_by not done: %s" ErrInvalidInput
                  [AStr (Join unresolved ",")])
     else tx_ret tt
   else tx_ret tt);;;
  affected <- execUpdate now (setState now to) id expectedVersion;;
  afterUpdate id expectedVersion affected.

Definition TransitionState (db : Store) (now : Time) (id : string) (to : State)
    (expectedVersion : option Z) : (error + Issue) * Store :=
  if negb (IsValidState to) then
    (inl (Errorf "%w: unknown target state %q" ErrInvalidInput [AStr to]), db)
  else run_tx db (TransitionStateTx now id to expectedVersion).

(** [SET parent_id = ?, version = version + 1, last_updated_at = CURRENT_TIMESTAMP] *)
Definition setParentID (now : Time) (newParent : option string) (r : Row) : Row :=
  {| category := category r; title := title r; body := body r; state := state r;
     parent_id := newParent; version := version r + 1; blocked_by := blocked_by r;
     created_at := created_at r; last_updated_at := now; closed_at := closed_at r |}.

(** The category checks of [SetParent]; the result is [newParent]. *)
Definition setParentChecksTx (issue : Issue) (parentID : option string)
    : Tx (option string) :=
  let (requiredParentCategory, needsParent) := expectedParentCategory (Category_ issue) in
  if needsParent && negb (hasParentID parentID) then
    tx_fail (Errorf "%w: category %q requires parent category %q" ErrInvalidInput
               [AStr (Category_ issue); AStr requiredParentCategory])
  else if negb needsParent && hasParentID parentID then
    tx_fail (Errorf "%w: category %q cannot have a parent" ErrInvalidInput
               [AStr (Category_ issue)])
  else if needsParent then
    let pid := TrimSpace (default EmptyString parentID) in
    parent <- getIssueByIDTx pid;;
    if negb (bool_decide (ProjectPrefix parent = ProjectPrefix issue)) then
      tx_fail (Errorf "%w: parent must be in same project" ErrInvalidInput [])
    else if negb (bool_decide (Category_ parent = requiredParentCategory)) then
      tx_fail (Errorf "%w: category %q requires parent category %q" ErrInvalidInput
                 [AStr (Category_ issue); AStr requiredParentCategory])
    else tx_ret (Some pid)
  else tx_ret None.

Definition SetParentTx (now : Time) (id : string) (parentID : option string)
    (expectedVersion : option Z) : Tx Issue :=
  issue <- getIssueByIDTx id;;
  newParent <- setParentChecksTx issue parentID;;
  affected <- execUpdate now (setParentID now newParent) id expectedVersion;;
  afterUpdate id expectedVersion affected.

Definition SetParent (db : Store) (now : Time) (id : string)
    (parentID : option string) (expectedVersion : option Z) : (error + Issue) * Store :=
  let id := TrimSpace id in
  if bool_decide (id = EmptyString) then
    (inl (Errorf "%w: id is required" ErrInvalidInput []), db)
  else run_tx db (SetParentTx now id parentID expectedVersion).

(** [SET blocked_by = ?, version = version + 1, last_updated_at = CURRENT_TIMESTAMP] *)
Definition setBlockedByCol (now : Time) (normalized : list string) (r : Row) : Row :=
  {| category := category r; title := title r; body := body r; state := state r;
     parent_id := parent_id r; version := version r + 1; blocked_by := normalized;
     created_at := created_at r; last_updated_at := now; closed_at := closed_at r |}.

Definition SetBlockedByTx (now : Time) (id : string) (blockedBy : list string)
    (expectedVersion : option Z) : Tx Issue :=
  issue <- getIssueByIDTx id;;
  normalized <- normalizeBlockedByTx (ID issue) (ProjectPrefix issue) blockedBy;;
  affected <- execUpdate now (setBlockedByCol now normalized) id expectedVersion;;
  afterUpdate id expectedVersion affected.

Definition SetBlockedBy (db : Store) (now : Time) (id : string)
    (blockedBy : list string) (expectedVersion : option Z) : (error + Issue) * Store :=
  let id := TrimSpace id in
  if bool_decide (id = EmptyString) then
    (inl (Errorf "%w: id is required" ErrInvalidInput []), db)
  else run_tx db (SetBlockedByTx now id blockedBy expectedVersion).


End Service.

(** ** Queries *)

Section Queries.
Context {str : Strings}.

(** SQLite's [LIKE] on ASCII text: [%] matches any run of bytes, [_]
    matches one byte, and any other byte matches itself without regard to
    the case of letters. *)
Fixpoint like (pattern : string) : string -> bool :=
  match pattern with
  | EmptyString =>
      fun s => match s with EmptyString => true | String _ _ => false end
  | String c pattern' =>
      if Ascii.eqb c "%"%char then
        fix any (s : string) : bool :=
          like pattern' s ||
          match s with
          | EmptyString => false
          | String _ s' => any s'
          end
      else if Ascii.eqb c "_"%char then
        fun s => match s with
                 | EmptyString => false
                 | String _ s' => like pattern' s'
                 end
      else
        fun s => match s with
                 | EmptyString => false
                 | String d s' =>
                     Ascii.eqb (toLowerByte c) (toLowerByte d) && like pattern' s'
                 end
  end.

(** [ORDER BY created_at ASC, id ASC]: timestamps first, then the ids as
    byte strings.  (The stored timestamps all have the one layout
    [sqliteTimeLayout], for which text order is time order.) *)
Definition orderedBefore (a b : Issue) : Prop :=
  CreatedAt a < CreatedAt b \/ (CreatedAt a = CreatedAt b /\ String.le (ID a) (ID b)).

Global Instance orderedBefore_dec : RelDecision orderedBefore.
Proof. intros a b. unfold orderedBefore. apply _. Defined.

(** The [WHERE] clause that [ListIssues] assembles. *)
Definition listCondition (projectPrefix : string) (stateArg : option State)
    (id : string) (r : Row) : bool :=
  (let p := TrimSpace projectPrefix in
   if bool_decide (p = EmptyString) then true
   else like (ToLower p ++ "-%") id)
  && match stateArg with
     | Some s => bool_decide (state r = s)
     | None => true
     end.

Definition ListIssues (db : Store) (projectPrefix : string) (stateArg : option State)
    : error + list Issue :=
  match stateArg with
  | Some s =>
      if negb (IsValidState s) then
        inl (Errorf "%w: unknown state %q" ErrInvalidInput [AStr s])
      else
        inr (merge_sort orderedBefore
               (List.map (fun '(id, r) => scanIssue id r)
                  (List.filter (fun '(id, r) => listCondition projectPrefix stateArg id r)
                     (map_to_list db))))
  | None =>
      inr (merge_sort orderedBefore
             (List.map (fun '(id, r) => scanIssue id r)
                (List.filter (fun '(id, r) => listCondition projectPrefix stateArg id r)
                   (map_to_list db))))
  end.

(** ** Command line helpers *)

(** [strings.Split(s, sep)] for a one-byte separator: the pieces between
    the separators, one piece for a string without any. *)
Fixpoint Split (s : string) (sep : ascii) : list string :=
  match s with
  | EmptyString => [EmptyString]
  | String c s' =>
      if Ascii.eqb c sep then EmptyString :: Split s' sep
      else match Split s' sep with
           | a :: rest => String c a :: rest
           | [] => [String c EmptyString]
           end
  end.

(** [for _, v := range raw { v = TrimSpace(v); if v == "" { continue }; ... }] *)
Fixpoint trimmedNonEmpty (raw : list string) : list string :=
  match raw with
  | [] => []
  | v :: rest =>
      let v := TrimSpace v in
      if bool_decide (v = EmptyString) then trimmedNonEmpty rest
      else v :: trimmedNonEmpty rest
  end.

Definition parseCSV (value : string) : list string :=
  trimmedNonEmpty (Split (TrimSpace value) ","%char).

(** The error of [parseCategoryArg] wraps no sentinel; it is modelled by its
    message. *)
Definition parseCategoryArg (shortValue : string) : string + Category :=
  let raw := TrimSpace (ToLower shortValue) in
  if bool_decide (raw = EmptyString) then inr CategoryTask
  else if bool_decide (raw = "task") || bool_decide (raw = "t") then inr CategoryTask
  else if bool_decide (raw = "workstream") || bool_decide (raw = "w") then
    inr CategoryWorkstream
  else if bool_decide (raw = "project") || bool_decide (raw = "p") then inr CategoryProject
  else inl (Sprintf "invalid category %q (use task|workstream|project or t|w|p)"
              EmptyString [AStr raw]).

(** The exit code that [renderError] returns (after printing the error). *)
Definition renderError (err : error) : Z :=
  if errors_Is err ErrInvalidInput || errors_Is err ErrInvalidStateTransition then 2
  else if errors_Is err ErrNotFound then 3
  else if errors_Is err ErrConflict || errors_Is err ErrDepthExceeded
          || errors_Is err ErrCycleDetected then 4
  else 1.

(** ** Schema inspection (package db) *)

(** [columns] is a Go [map[string]bool]: a missing key reads as [false]. *)
Definition hasAllAndOnly (columns : gmap string bool) (wanted : list string) : bool :=
  if negb (bool_decide (size columns = length wanted)) then false
  else forallb (fun c => default false (columns !! c)) wanted.

(** The column list that [ensureIssuesTableMinimalShape] requires. *)
Definition required : list string :=
  ["id"; "category"; "title"; "body"; "state"; "parent_id"; "version"; "blocked_by";
   "created_at"; "last_updated_at"; "closed_at"].

(** ** The configuration file (package config) *)

Record Config := mkConfig {
  Path : string;
  DBPath : string;
  Project : string
}.

(** [strings.Cut(s, sep)] for a one-byte separator. *)
Fixpoint Cut (s : string) (sep : ascii) : string * string * bool :=
  match s with
  | EmptyString => (EmptyString, EmptyString, false)
  | String c s' =>
      if Ascii.eqb c sep then (EmptyString, s', true)
      else match Cut s' sep with
           | (before, after, true) => (String c before, after, true)
           | (_, _, false) => (s, EmptyString, false)
           end
  end.

Section ParseFile.

(** [resolveDBPath path value] stands for the path arithmetic of the [db]
    key: [value] itself when [filepath.IsAbs(value)], else
    [filepath.Clean(filepath.Join(filepath.Dir(path), value))]. *)
Variable resolveDBPath : string -> string -> string.

(** The loop of [parseFile] over the lines of the file, [i] being the index
    of the first of [lines]; errors are modelled by their messages. *)
Fixpoint parseLines (path : string) (lines : list string) (i : nat) (cfg : Config)
    : string + Config :=
  match lines with
  | [] => inr cfg
  | raw :: rest =>
      let line := TrimSpace raw in
      if bool_decide (line = EmptyString) || String.prefix "#" line then
        parseLines path rest (S i) cfg
      else
        match Cut line "="%char with
        | (_, _, false) =>
            inl (Sprintf "invalid %s:%d: expected key=value" EmptyString
                   [AStr path; AInt (Z.of_nat i + 1)])
        | (key, value, true) =>
            let key := TrimSpace (ToLower key) in
            let value := TrimSpace value in
            if bool_decide (key = "db") then
              if bool_decide (value = EmptyString) then
                inl (Sprintf "invalid %s:%d: db cannot be empty" EmptyString
                       [AStr path; AInt (Z.of_nat i + 1)])
              else
                parseLines path rest (S i)
                  {| Path := Path cfg; DBPath := resolveDBPath path value;
                     Project := Project cfg |}
            else if bool_decide (key = "project") then
              let prefix := ToLower value in
              if negb (projectPrefixRe prefix) then
                inl (Sprintf "invalid %s:%d: project must be 3 lowercase alphanumeric chars"
                       EmptyString [AStr path; AInt (Z.of_nat i + 1)])
              else
                parseLines path rest (S i)
                  {| Path := Path cfg; DBPath := DBPath cfg; Project := prefix |}
            else
              inl (Sprintf "invalid %s:%d: unsupported key %q" EmptyString
                     [AStr path; AInt (Z.of_nat i + 1); AStr key])
        end
  end.

(** [parseFile] on the content read from [path]. *)
Definition parseFile (path content : string) : string + Config :=
  parseLines path (Split content (ascii_of_nat 10)) 0
    {| Path := path; DBPath := EmptyString; Project := EmptyString |}.

End ParseFile.

(** ** Tree projection

    A slice is a list; the nil slice of a node without children and the
    empty slice are both [[]]. *)

#[warnings="-register-all"]
Inductive TreeNode := mkTreeNode {
  Issue_ : Issue;
  Children : list TreeNode
}.

(** The first loop of [Tree]: the issues without a parent, and for each
    parent id the issues that name it, both in list order. *)
Fixpoint treeIndex (issuesList : list Issue) (children : gmap string (list Issue))
    (roots : list Issue) : gmap string (list Issue) * list Issue :=
  match issuesList with
  | [] => (children, roots)
  | iss :: rest =>
      match ParentID iss with
      | None => treeIndex rest children (roots ++ [iss])%list
      | Some pid =>
          treeIndex rest
            (<[pid := (default [] (children !! pid) ++ [iss])%list]> children) roots
      end
  end.

(** [for _, x := range xs { out = append(out, f(x)) }] for an [f] that may
    not return. *)
Fixpoint forEach {A B} (f : A -> option B) (xs : list A) : option (list B) :=
  match xs with
  | [] => Some []
  | x :: rest =>
      match f x with
      | Some y =>
          match forEach f rest with
          | Some ys => Some (y :: ys)
          | None => None
          end
      | None => None
      end
  end.

(** The recursive closure [build]; [depth] bounds the nesting of its calls
    and [None] stands for a call that does not return within it. *)
Fixpoint build (depth : nat) (children : gmap string (list Issue)) (root : Issue)
    : option TreeNode :=
  match depth with
  | O => None
  | S depth' =>
      match forEach (build depth' children) (default [] (children !! ID root)) with
      | Some nodes => Some {| Issue_ := root; Children := nodes |}
      | None => None
      end
  end.

Definition Tree (depth : nat) (db : Store) (projectPrefix : string)
    : error + option (list TreeNode) :=
  match ListIssues db projectPrefix None with
  | inl err => inl err
  | inr issuesList =>
      let (children, roots) := treeIndex issuesList ∅ [] in
      inr (forEach (build depth children) roots)
  end.

End Queries.
(** * Specification vocabulary *)

Section Vocabulary.
Context {str : Strings}.

(** ** The domain of the statements

    The [version] column is SQLite's 64-bit INTEGER and [Issue.Version] is an
    [int64]: [version + 1] is the integer sum below the largest [int64], and
    a stored value outside [int64] cannot be scanned.  The statements about
    calls of the service are therefore made for tables whose versions are
    [int64] values, with room for the increment in the row that the call
    updates. *)
Definition minInt64 : Z := -9223372036854775808.

Definition maxInt64 : Z := 9223372036854775807.

Definition int64Rows (db : Store) : Prop :=
  forall id r, db !! id = Some r -> minInt64 <= version r <= maxInt64.

(** An ASCII byte that [TrimSpace] and [ToLower] leave alone. *)
Definition plain (c : ascii) : bool :=
  asciiByte c && negb (isSpace c) && negb (isUpper c).

(** The first dependency without a row, and the dependencies whose row is
    not [done], in list order. *)
Fixpoint firstMissing (db : Store) (deps : list string) : option string :=
  match deps with
  | [] => None
  | d :: rest =>
      match db !! d with
      | None => Some d
      | Some _ => firstMissing db rest
      end
  end.

Definition isNotDone (db : Store) (d : string) : bool :=
  match db !! d with
  | Some r => negb (bool_decide (state r = StateDone))
  | None => false
  end.

Definition notDone (db : Store) (deps : list string) : list string :=
  List.filter (isNotDone db) deps.

Definition depsDone (db : Store) (deps : list string) : Prop :=
  forall dep, dep ∈ deps -> exists rd, db !! dep = Some rd /\ state rd = StateDone.

(** The five states and the edge table of the state machine, as the
    specification lists them. *)
Definition defined_states : list State :=
  [StateTodo; StateInProgress; StateBlocked; StateDone; StateCanceled].

Definition spec_edges : list (State * State) :=
  [ (StateTodo, StateInProgress); (StateTodo, StateBlocked); (StateTodo, StateCanceled);
    (StateInProgress, StateBlocked); (StateInProgress, StateDone);
    (StateInProgress, StateTodo); (StateInProgress, StateCanceled);
    (StateBlocked, StateTodo); (StateBlocked, StateInProgress); (StateBlocked, StateCanceled);
    (StateDone, StateTodo);
    (StateCanceled, StateTodo) ].

(** The expected version, when one is supplied, is the row's version. *)
Definition versionMatches (r : Row) (expectedVersion : option Z) : bool :=
  match expectedVersion with
  | Some v => bool_decide (version r = v)
  | None => true
  end.

Definition staleWrite (v : Z) : error :=
  Errorf "%w: stale write; expected version %d" ErrConflict [AInt v].

(** A small table used to instantiate the statements below: one project, one
    workstream and three tasks.  [cat-100003] is done and [cat-100004] is in
    progress; both list [cat-100002], which is back in [todo], as a
    dependency.  [exampleHistory] is a run of the service that produces it. *)
Definition exampleRow (c : Category) (p : option string) (st : State) (v : Z)
    (deps : list string) (updated : Time) (closed : option Time) : Row :=
  {| category := c; title := "Example"; body := EmptyString; state := st;
     parent_id := p; version := v; blocked_by := deps;
     created_at := 1; last_updated_at := updated; closed_at := closed |}.

Definition exampleTodoTask : Row :=
  exampleRow CategoryTask (Some "cat-100001") StateTodo 3 [] 6 None.

Definition exampleDoneTask : Row :=
  exampleRow CategoryTask (Some "cat-100001") StateDone 4 ["cat-100002"] 9 (Some 9).

Definition exampleBusyTask : Row :=
  exampleRow CategoryTask (Some "cat-100001") StateInProgress 3 ["cat-100002"] 9 None.

Definition exampleStore : Store :=
  <["cat-100000" := exampleRow CategoryProject None StateTodo 1 [] 1 None]>
  (<["cat-100001" := exampleRow CategoryWorkstream (Some "cat-100000") StateTodo 1 [] 1 None]>
  (<["cat-100002" := exampleTodoTask]>
  (<["cat-100003" := exampleDoneTask]>
  (<["cat-100004" := exampleBusyTask]> ∅)))).

Definition exampleHistory : Store :=
  let create n c p db :=
    snd (CreateIssue (fun _ => n) db 1 "cat" c "Example" EmptyString p []) in
  let move t id to db := snd (TransitionState db t id to None) in
  let block t id deps db := snd (SetBlockedBy db t id deps None) in
  block 9 "cat-100004" ["cat-100002"]
  (block 9 "cat-100003" ["cat-100002"]
  (move 9 "cat-100003" StateDone
  (move 8 "cat-100004" StateInProgress
  (move 7 "cat-100003" StateInProgress
  (move 6 "cat-100002" StateTodo
  (move 5 "cat-100002" StateInProgress
  (create 4 CategoryTask (Some "cat-100001")
  (create 3 CategoryTask (Some "cat-100001")
  (create 2 CategoryTask (Some "cat-100001")
  (create 1 CategoryWorkstream (Some "cat-100000")
  (create 0 CategoryProject None ∅))))))))))).

(** The tables the service can produce from the empty one. *)
Inductive reachable : Store -> Prop :=
| reach_empty : reachable ∅
| reach_create db draw now pp c title body parentID blockedBy :
    reachable db ->
    reachable (snd (CreateIssue draw db now pp c title body parentID blockedBy))
| reach_transition db now id to ev :
    reachable db -> reachable (snd (TransitionState db now id to ev))
| reach_parent db now id parentID ev :
    reachable db -> reachable (snd (SetParent db now id parentID ev))
| reach_blocked db now id blockedBy ev :
    reachable db -> reachable (snd (SetBlockedBy db now id blockedBy ev)).

(** [dropRepeats ids blockedBy] removes from [blockedBy] every entry whose
    trimmed, lowercased form is in [ids] or occurred earlier in the list. *)
Fixpoint dropRepeats (ids : list string) (blockedBy : list string) : list string :=
  match blockedBy with
  | [] => []
  | raw :: rest =>
      if bool_decide (ToLower (TrimSpace raw) ∈ ids) then dropRepeats ids rest
      else raw :: dropRepeats (ToLower (TrimSpace raw) :: ids) rest
  end.

(** The non-blank ids of a list in the order of their first occurrence,
    leaving out those in [seen]. *)
Fixpoint firstSeen (seen : list string) (ids : list string) : list string :=
  match ids with
  | [] => []
  | x :: rest =>
      if bool_decide (x = EmptyString \/ x ∈ seen) then firstSeen seen rest
      else x :: firstSeen (x :: seen) rest
  end.

(** What the normalization loop demands of an id before appending it. *)
Definition accepted (db : Store) (issueID projectPrefix : string) (x : string) : Prop :=
  issueIDRe x = true /\ x <> issueID /\
  projectPrefixFromIssueID x = (projectPrefix, true) /\ is_Some (db !! x).

(** The errors of the service that carry one of two sentinels. *)
Definition invalidOrNotFound (e : error) : Prop :=
  Unwrap e = Some ErrInvalidInput \/ Unwrap e = Some ErrNotFound.

(** The parent an input designates: none when the pointer is nil or blank. *)
Definition effectiveParent (parentID : option string) : option string :=
  if hasParentID parentID then Some (TrimSpace (default EmptyString parentID)) else None.

(** The hierarchy rule for an issue of category [c] in project [project]
    whose parent reference is [parent], read against the table [db]. *)
Definition parentRule (db : Store) (project : string) (c : Category)
    (parent : option string) : Prop :=
  (c = CategoryProject -> parent = None) /\
  (c = CategoryWorkstream ->
     exists pid pr, parent = Some pid /\ db !! pid = Some pr /\
       category pr = CategoryProject /\ ProjectPrefix (scanIssue pid pr) = project) /\
  (c = CategoryTask ->
     exists pid pr, parent = Some pid /\ db !! pid = Some pr /\
       category pr = CategoryWorkstream /\ ProjectPrefix (scanIssue pid pr) = project).

Definition hierarchyInv (db : Store) : Prop :=
  forall id r, db !! id = Some r ->
    parentRule db (ProjectPrefix (scanIssue id r)) (category r) (parent_id r).

(** [closed_at] is set exactly in the states done and canceled. *)
Definition closedInv (db : Store) : Prop :=
  forall id r, db !! id = Some r ->
    (is_Some (closed_at r) <-> state r = StateDone \/ state r = StateCanceled).

(** The checks of [CreateIssue] that precede the allocation loop. *)
Definition validCreateInput (projectPrefix : string) (c : Category) (title : string) : Prop :=
  projectPrefixRe (TrimSpace (ToLower projectPrefix)) = true /\
  IsValidCategory c = true /\
  TrimSpace title <> EmptyString.

Definition allocatedID (projectPrefix : string) (n : Z) : string :=
  Sprintf "%s-%d" EmptyString [AStr projectPrefix; AInt (randomIssueNumber n)].

Definition allocationFailed : error :=
  Errorf "%w: failed to allocate issue number after retries" ErrConflict [].

(** The [k]-th iteration of the allocation loop of one [CreateIssue] call. *)
Definition attemptAt (draw : nat -> Z) (db : Store) (now : Time) (p : string)
    (c : Category) (t b : string) (parentID : option string) (blockedBy : list string)
    (k : nat) : attempt :=
  createAttempt db now p c t b parentID blockedBy (randomIssueNumber (draw k)).

End Vocabulary.
Section Invariants.
Context {str : Strings}.

(** ** The domain of the calls

    The tables for which the embedding follows the code call by call: int64
    versions everywhere, and a version below the largest int64 in the row
    that an update increments.  The LIKE of a listing compares bytes, which
    is SQLite's comparison when the keys and the filter are ASCII. *)
Definition asciiKeys (db : Store) : Prop :=
  forall id r, db !! id = Some r -> isASCII id = true.

Definition transitionDomain (db : Store) (id : string) : Prop :=
  int64Rows db /\
  forall r, db !! id = Some r -> version r < maxInt64.

Definition updateDomain (db : Store) (id : string) : Prop :=
  int64Rows db /\
  forall r, db !! TrimSpace id = Some r -> version r < maxInt64.

Definition readDomain (db : Store) (arg : string) : Prop :=
  int64Rows db /\ asciiKeys db /\ isASCII arg = true.

(** ** Invariants of the tables the service produces *)

(** An id made by the allocation: a project prefix, a hyphen, a number. *)
Definition allocatedForm (id : string) : Prop :=
  exists p n, projectPrefixRe p = true /\ id = p ++ String "-"%char (FormatInt n).

(** What creation checks of a row and no mutation changes afterwards. *)
Definition rowsInv (db : Store) : Prop :=
  forall id r, db !! id = Some r ->
    allocatedForm id /\
    IsValidCategory (category r) = true /\
    IsValidState (state r) = true /\
    title r <> EmptyString /\ (exists raw, title r = TrimSpace raw) /\
    1 <= version r.

(** Every dependency of every row is another row of the same project, and
    no row lists a dependency twice. *)
Definition depsInv (db : Store) : Prop :=
  forall id r, db !! id = Some r ->
    NoDup (blocked_by r) /\
    forall d, d ∈ blocked_by r ->
      d <> id /\ issueIDRe d = true /\
      exists rd, db !! d = Some rd /\
        ProjectPrefix (scanIssue d rd) = ProjectPrefix (scanIssue id r).

(** The chain of parent references that starts at [id], at most [fuel] long. *)
Fixpoint ancestors (db : Store) (fuel : nat) (id : string) : list string :=
  match fuel with
  | O => []
  | S fuel' =>
      match db !! id with
      | Some r =>
          match parent_id r with
          | Some pid => pid :: ancestors db fuel' pid
          | None => []
          end
      | None => []
      end
  end.

(** A string that is empty or starts with a byte that is not a space. *)
Definition startsClean (s : string) : Prop :=
  match s with
  | EmptyString => True
  | String c _ => isSpace c = false
  end.

(** The rows that a listing selects, in no particular order. *)
Definition selectedRows (db : Store) (projectPrefix : string) (stateArg : option State)
    : list Issue :=
  List.map (fun '(id, r) => scanIssue id r)
    (List.filter (fun '(id, r) => listCondition projectPrefix stateArg id r)
       (map_to_list db)).

(** A byte other than the comma. *)
Definition notComma (c : ascii) : bool := negb (Ascii.eqb c ","%char).

(** What [parseCSV] hands on: a non-empty, trimmed piece without a comma. *)
Definition csvEntry (x : string) : Prop :=
  x <> EmptyString /\ TrimSpace x = x /\ all_bytes notComma x = true.

(** The four error kinds that the service operations actually return. *)
Definition typedError (e : error) : Prop :=
  Unwrap e = Some ErrInvalidInput \/ Unwrap e = Some ErrInvalidStateTransition \/
  Unwrap e = Some ErrNotFound \/ Unwrap e = Some ErrConflict.

(** A line that [parseFile] skips: blank, or a comment. *)
Definition skippedLine (raw : string) : Prop :=
  TrimSpace raw = EmptyString \/ String.prefix "#" (TrimSpace raw) = true.

Definition newline : ascii := ascii_of_nat 10.

(** The issues of a list without a parent, and those with parent [pid]. *)
Definition rootsOf (l : list Issue) : list Issue :=
  List.filter (fun i => bool_decide (ParentID i = None)) l.

Definition childrenOf (pid : string) (l : list Issue) : list Issue :=
  List.filter (fun i => bool_decide (ParentID i = Some pid)) l.

(** The tree that [build] makes of an issue, by the category of the issue:
    a task is a leaf, a workstream carries its tasks, and anything else (a
    project) carries its workstreams. *)
Definition leafNode (i : Issue) : TreeNode := {| Issue_ := i; Children := [] |}.

Definition workstreamNode (l : list Issue) (w : Issue) : TreeNode :=
  {| Issue_ := w; Children := List.map leafNode (childrenOf (ID w) l) |}.

Definition projectNode (l : list Issue) (p : Issue) : TreeNode :=
  {| Issue_ := p; Children := List.map (workstreamNode l) (childrenOf (ID p) l) |}.

(** The issues of a tree, the node before its subtrees. *)
Fixpoint issuesOf (n : TreeNode) : list Issue :=
  Issue_ n :: List.flat_map issuesOf (Children n).

(** A prefix filter that is absent or a well-formed project prefix. *)
Definition projectFilter (projectPrefix : string) : Prop :=
  TrimSpace projectPrefix = EmptyString \/
  projectPrefixRe (ToLower (TrimSpace projectPrefix)) = true.

End Invariants.
(** * Properties *)

(** ** Bytes and strings *)

Section Facts.
Context {str : Strings}.

Section ByteFacts.

Lemma lowerAlnum_not_space c : lowerAlnum c = true -> isSpace c = false.
Proof. destruct c as [[] [] [] [] [] [] [] []]; vm_compute; congruence. Qed.

Lemma lowerAlnum_not_upper c : lowerAlnum c = true -> isUpper c = false.
Proof. destruct c as [[] [] [] [] [] [] [] []]; vm_compute; congruence. Qed.

Lemma isDigit_lowerAlnum c : isDigit c = true -> lowerAlnum c = true.
Proof. unfold lowerAlnum. intros ->. apply orb_true_r. Qed.

Lemma lowerAlnum_not_hyphen c : lowerAlnum c = true -> Ascii.eqb c "-"%char = false.
Proof. destruct c as [[] [] [] [] [] [] [] []]; vm_compute; congruence. Qed.

End ByteFacts.

Lemma lowerAlnum_ascii c : lowerAlnum c = true -> asciiByte c = true.
Proof. destruct c as [[] [] [] [] [] [] [] []]; vm_compute; congruence. Qed.

Lemma lowerAlnum_plain c : lowerAlnum c = true -> plain c = true.
Proof.
  intros H. unfold plain.
  now rewrite (lowerAlnum_ascii _ H), (lowerAlnum_not_space _ H), (lowerAlnum_not_upper _ H).
Qed.

Lemma all_bytes_impl (p q : ascii -> bool) s :
  (forall c, p c = true -> q c = true) -> all_bytes p s = true -> all_bytes q s = true.
Proof.
  intros Hpq. induction s as [|c s IH]; simpl; [done|].
  intros [Hc Hs]%andb_prop. rewrite (Hpq _ Hc). simpl. auto.
Qed.

Lemma all_bytes_app p s t :
  all_bytes p (s ++ t) = all_bytes p s && all_bytes p t.
Proof. induction s as [|c s IH]; simpl; [done|]. now rewrite IH, andb_assoc. Qed.

Lemma plain_parts c :
  plain c = true -> asciiByte c = true /\ isSpace c = false /\ isUpper c = false.
Proof.
  unfold plain. intros [[Ha Hs]%andb_prop Hu]%andb_prop.
  now apply negb_true_iff in Hs, Hu.
Qed.

Lemma isASCII_plain s : all_bytes plain s = true -> isASCII s = true.
Proof. apply all_bytes_impl. intros c Hc. now apply plain_parts in Hc. Qed.

Lemma asciiToLower_plain s : all_bytes plain s = true -> ASCII.ToLower s = s.
Proof.
  induction s as [|c s IH]; simpl; [done|].
  intros [Hc Hs]%andb_prop. rewrite (IH Hs). unfold toLowerByte.
  apply plain_parts in Hc as (_ & _ & Hu). now rewrite Hu.
Qed.

Lemma TrimRight_plain s : all_bytes plain s = true -> ASCII.TrimRight s = s.
Proof.
  induction s as [|c s IH]; simpl; [done|].
  intros [Hc Hs]%andb_prop. rewrite (IH Hs).
  apply plain_parts in Hc as (_ & Hsp & _). rewrite Hsp. now destruct s.
Qed.

Lemma TrimLeft_plain s : all_bytes plain s = true -> ASCII.TrimLeft s = s.
Proof.
  destruct s as [|c s]; simpl; [done|].
  intros [Hc _]%andb_prop. apply plain_parts in Hc as (_ & Hsp & _). now rewrite Hsp.
Qed.

Lemma ToLower_plain s : all_bytes plain s = true -> ToLower s = s.
Proof.
  intros H. rewrite ToLower_ascii by now apply isASCII_plain.
  now apply asciiToLower_plain.
Qed.

Lemma TrimSpace_plain s : all_bytes plain s = true -> TrimSpace s = s.
Proof.
  intros H. rewrite TrimSpace_ascii by now apply isASCII_plain.
  unfold ASCII.TrimSpace. rewrite (TrimLeft_plain _ H). now apply TrimRight_plain.
Qed.

Lemma ToLower_empty : ToLower EmptyString = EmptyString.
Proof. now rewrite ToLower_ascii. Qed.

Lemma TrimSpace_empty : TrimSpace EmptyString = EmptyString.
Proof. now rewrite TrimSpace_ascii. Qed.

Lemma hyphen_plain : plain "-"%char = true.
Proof. reflexivity. Qed.

Lemma issueIDRe_plain id : issueIDRe id = true -> all_bytes plain id = true.
Proof.
  destruct id as [|a [|b [|c [|h [|d rest]]]]]; simpl; try discriminate.
  intros H. repeat (apply andb_prop in H as [H ?]).
  apply Ascii.eqb_eq in H2 as ->.
  rewrite (lowerAlnum_plain a), (lowerAlnum_plain b), (lowerAlnum_plain c),
    (lowerAlnum_plain d) by auto using isDigit_lowerAlnum.
  simpl. eapply all_bytes_impl; [|eassumption].
  intros x Hx. apply lowerAlnum_plain. now apply isDigit_lowerAlnum.
Qed.

(** Ids that pass [issueIDRe] are fixed points of trimming and lowercasing. *)
Lemma issueIDRe_normal id : issueIDRe id = true -> ToLower (TrimSpace id) = id.
Proof.
  intros H%issueIDRe_plain. rewrite (TrimSpace_plain _ H). now apply ToLower_plain.
Qed.

Lemma issueIDRe_nonempty id : issueIDRe id = true -> id <> EmptyString.
Proof. now destruct id. Qed.

Lemma string_of_uint_plain d : all_bytes plain (NilEmpty.string_of_uint d) = true.
Proof. induction d; simpl; auto. Qed.

Lemma FormatInt_plain n : all_bytes plain (FormatInt n) = true.
Proof.
  unfold FormatInt, NilZero.string_of_int.
  destruct (Z.to_int n) as [d|d]; simpl.
  - unfold NilZero.string_of_uint. destruct d; try apply (string_of_uint_plain (_ _)); reflexivity.
  - unfold NilZero.string_of_uint. destruct d; try apply (string_of_uint_plain (_ _)); reflexivity.
Qed.

Lemma append_empty_r (s : string) : s ++ EmptyString = s.
Proof. induction s as [|c s IH]; [done|]. change (String c (s ++ EmptyString) = String c s). now f_equal. Qed.

Lemma Sprintf_issueID p n :
  Sprintf "%s-%d" EmptyString [AStr p; AInt n] = p ++ String "-"%char (FormatInt n).
Proof.
  cbn. f_equal. f_equal. apply append_empty_r.
Qed.

(** The id allocated for [projectPrefix] belongs to that project. *)
Lemma projectPrefixFromIssueID_fresh p n :
  projectPrefixRe p = true ->
  projectPrefixFromIssueID (p ++ String "-"%char (FormatInt n)) = (p, true).
Proof.
  intros Hp. unfold projectPrefixFromIssueID.
  destruct p as [|a [|b [|c [|]]]]; try discriminate.
  pose proof Hp as Hp'. simpl in Hp'. repeat (apply andb_prop in Hp' as [Hp' ?]).
  assert (Hplain : all_bytes plain
            (String a (String b (String c EmptyString)) ++ String "-"%char (FormatInt n)) = true).
  { simpl. rewrite !lowerAlnum_plain by done. simpl. apply FormatInt_plain. }
  rewrite (TrimSpace_plain _ Hplain), (ToLower_plain _ Hplain).
  simpl. rewrite !lowerAlnum_not_hyphen by done. simpl.
  simpl in Hp. now rewrite Hp.
Qed.

(** ** Reads inside a transaction *)

Lemma getIssueByIDTx_Some (tx : Store) id r :
  tx !! id = Some r -> getIssueByIDTx id tx = inr (scanIssue id r, tx).
Proof. unfold getIssueByIDTx. now intros ->. Qed.

Lemma getIssueByIDTx_None (tx : Store) id :
  tx !! id = None ->
  getIssueByIDTx id tx = inl (Errorf "%w: issue %q not found" ErrNotFound [AStr id]).
Proof. unfold getIssueByIDTx. now intros ->. Qed.

Lemma trg_setState now to r :
  trg_issues_last_updated_at now (setState now to r) = setState now to r.
Proof. reflexivity. Qed.

Lemma trg_setParentID now p r :
  trg_issues_last_updated_at now (setParentID now p r) = setParentID now p r.
Proof. reflexivity. Qed.

Lemma trg_setBlockedByCol now l r :
  trg_issues_last_updated_at now (setBlockedByCol now l r) = setBlockedByCol now l r.
Proof. reflexivity. Qed.

Lemma unresolvedBlockedByLoop_spec (db : Store) deps acc :
  unresolvedBlockedByLoop deps acc db =
  match firstMissing db deps with
  | Some d => inl (Errorf "%w: blocked_by issue %q not found" ErrNotFound [AStr d])
  | None => inr ((acc ++ notDone db deps)%list, db)
  end.
Proof.
  revert acc. induction deps as [|d deps IH]; intros acc; simpl.
  - unfold tx_ret. now rewrite app_nil_r.
  - unfold tx_bind, tx_try, getIssueByIDTx, notDone, isNotDone. simpl.
    destruct (db !! d) as [rd|] eqn:Hd; simpl; [|reflexivity].
    fold (isNotDone db). fold (notDone db deps).
    case_bool_decide; simpl.
    + apply IH.
    + rewrite IH. destruct (firstMissing db deps); [done|]. now rewrite <- app_assoc.
Qed.

Lemma firstMissing_None (db : Store) deps :
  firstMissing db deps = None <-> forall d, d ∈ deps -> is_Some (db !! d).
Proof.
  induction deps as [|d deps IH]; simpl.
  - split; [|done]. intros _ d Hd. inversion Hd.
  - destruct (db !! d) eqn:Hd.
    + rewrite IH. split.
      * intros H x [->|Hx]%elem_of_cons; eauto.
      * intros H x Hx. apply H. now right.
    + split; [done|]. intros H. destruct (H d) as [? Hs]; [now left|congruence].
Qed.

Lemma firstMissing_Some (db : Store) deps d :
  firstMissing db deps = Some d -> d ∈ deps /\ db !! d = None.
Proof.
  induction deps as [|x deps IH]; simpl; [done|].
  destruct (db !! x) eqn:Hx.
  - intros [? ?]%IH. split; [now right|done].
  - intros [= <-]. split; [now left|done].
Qed.

Lemma notDone_nil (db : Store) deps :
  (forall d, d ∈ deps -> is_Some (db !! d)) ->
  notDone db deps = [] <-> depsDone db deps.
Proof.
  intros Hall. unfold notDone, depsDone. induction deps as [|d deps IH]; simpl.
  - split; [|done]. intros _ x Hx. inversion Hx.
  - assert (Hall' : forall x, x ∈ deps -> is_Some (db !! x)) by (intros; apply Hall; now right).
    specialize (IH Hall'). destruct (Hall d) as [rd Hd]; [now left|].
    unfold isNotDone at 1. rewrite Hd. case_bool_decide as Hst; simpl.
    + rewrite IH. split.
      * intros H x [->|Hx]%elem_of_cons; eauto.
      * intros H x Hx. apply H. now right.
    + split; [done|]. intros H. destruct (H d) as (rd' & Hd' & Hst'); [now left|].
      congruence.
Qed.

Lemma elem_of_notDone (db : Store) deps d :
  d ∈ notDone db deps <->
  d ∈ deps /\ exists rd, db !! d = Some rd /\ state rd <> StateDone.
Proof.
  unfold notDone. rewrite !list_elem_of_In, filter_In. unfold isNotDone.
  split.
  - intros [Hin H]. split; [done|]. destruct (db !! d) as [rd|]; [|done].
    exists rd. split; [done|]. now case_bool_decide.
  - intros [Hin (rd & -> & Hst)]. split; [done|]. now case_bool_decide.
Qed.

(** ** TransitionState on an existing issue

    The whole decision sequence of [TransitionState] once the target state is
    a defined one and the row exists: edge check, dependency gate, versioned
    update. *)

Lemma execUpdate_afterUpdate (tx : Store) now set id r ev :
  tx !! id = Some r ->
  tx_bind (execUpdate now set id ev) (afterUpdate id ev) tx =
  match ev with
  | Some v =>
      if bool_decide (version r = v)
      then inr (scanIssue id (trg_issues_last_updated_at now (set r)),
                <[id := trg_issues_last_updated_at now (set r)]> tx)
      else inl (staleWrite v)
  | None => inr (scanIssue id (trg_issues_last_updated_at now (set r)),
                 <[id := trg_issues_last_updated_at now (set r)]> tx)
  end.
Proof.
  intros Hr. unfold tx_bind, execUpdate, afterUpdate. rewrite Hr.
  destruct ev as [v|]; [case_bool_decide|]; simpl;
    try (unfold getIssueByIDTx; now rewrite lookup_insert_eq).
  reflexivity.
Qed.

Lemma TransitionState_existing (db : Store) now id r to ev :
  db !! id = Some r ->
  IsValidState to = true ->
  TransitionState db now id to ev =
  match ValidateTransition (state r) to with
  | Some e => (inl e, db)
  | None =>
      match (if bool_decide (to = StateInProgress)
             then firstMissing db (blocked_by r) else None) with
      | Some d =>
          (inl (Errorf "%w: blocked_by issue %q not found" ErrNotFound [AStr d]), db)
      | None =>
          if bool_decide (to = StateInProgress)
             && (0 <? length (notDone db (blocked_by r)))%nat
          then (inl (Errorf "%w: blocked_by not done: %s" ErrInvalidInput
                       [AStr (Join (notDone db (blocked_by r)) ",")]), db)
          else if versionMatches r ev
               then (inr (scanIssue id (setState now to r)), <[id := setState now to r]> db)
               else (inl (staleWrite (default 0 ev)), db)
      end
  end.
Proof.
  intros Hr Hto. unfold TransitionState. rewrite Hto. simpl.
  unfold run_tx, TransitionStateTx.
  unfold tx_bind at 1. rewrite (getIssueByIDTx_Some _ _ _ Hr).
  unfold tx_bind at 1. simpl State_.
  destruct (ValidateTransition (state r) to) as [e|]; simpl; [reflexivity|].
  unfold tx_bind at 1. unfold unresolvedBlockedByTx. simpl BlockedBy.
  case_bool_decide as Hip; simpl.
  - unfold tx_bind at 1. rewrite unresolvedBlockedByLoop_spec.
    destruct (firstMissing db (blocked_by r)) as [d|]; [reflexivity|].
    simpl. destruct (0 <? length (notDone db (blocked_by r)))%nat; simpl; [reflexivity|].
    rewrite (execUpdate_afterUpdate _ _ _ _ _ _ Hr), trg_setState.
    destruct ev as [v|]; simpl; [|reflexivity]. now case_bool_decide.
  - rewrite (execUpdate_afterUpdate _ _ _ _ _ _ Hr), trg_setState.
    destruct ev as [v|]; simpl; [|reflexivity]. now case_bool_decide.
Qed.

Lemma IsValidState_defined (s : State) : IsValidState s = true <-> s ∈ defined_states.
Proof.
  unfold defined_states. rewrite !elem_of_cons, elem_of_nil.
  destruct (decide (s = StateTodo)) as [->|H1]; [split; [tauto|reflexivity]|].
  destruct (decide (s = StateInProgress)) as [->|H2]; [split; [tauto|reflexivity]|].
  destruct (decide (s = StateBlocked)) as [->|H3]; [split; [tauto|reflexivity]|].
  destruct (decide (s = StateDone)) as [->|H4]; [split; [tauto|reflexivity]|].
  destruct (decide (s = StateCanceled)) as [->|H5]; [split; [tauto|reflexivity]|].
  unfold IsValidState, validTransitions.
  rewrite !lookup_insert_ne, lookup_empty by done.
  split; [discriminate|tauto].
Qed.

Lemma ValidateTransition_table (from to : State) :
  from ∈ defined_states -> to ∈ defined_states -> from <> to ->
  ((from, to) ∈ spec_edges -> ValidateTransition from to = None) /\
  ((from, to) ∉ spec_edges ->
     ValidateTransition from to =
     Some (Errorf "%w: %s -> %s" ErrInvalidStateTransition [AStr from; AStr to])).
Proof.
  unfold defined_states. rewrite !elem_of_cons, !elem_of_nil.
  intros Hf Ht Hne.
  destruct Hf as [->|[->|[->|[->|[->|[]]]]]];
  destruct Ht as [->|[->|[->|[->|[->|[]]]]]];
  try (exfalso; apply Hne; reflexivity);
  (split; intros He; [try reflexivity | try reflexivity]);
  exfalso; revert He; unfold spec_edges; rewrite ?elem_of_cons, ?elem_of_nil;
  vm_compute; intuition congruence.
Qed.

(** ** The example table lies in the domain of the statements *)

Lemma exampleStore_rows (P : string -> Row -> Prop) :
  P "cat-100000" (exampleRow CategoryProject None StateTodo 1 [] 1 None) ->
  P "cat-100001" (exampleRow CategoryWorkstream (Some "cat-100000") StateTodo 1 [] 1 None) ->
  P "cat-100002" exampleTodoTask ->
  P "cat-100003" exampleDoneTask ->
  P "cat-100004" exampleBusyTask ->
  forall id r, exampleStore !! id = Some r -> P id r.
Proof.
  intros H0 H1 H2 H3 H4 id r. unfold exampleStore.
  rewrite !lookup_insert_Some, lookup_empty.
  intros H. decompose [and or] H; subst; try discriminate; assumption.
Qed.

Lemma exampleStore_int64Rows : int64Rows exampleStore.
Proof.
  refine (exampleStore_rows (fun _ r => minInt64 <= version r <= maxInt64) _ _ _ _ _);
    vm_compute; split; discriminate.
Qed.

Lemma exampleStore_belowMax id r : exampleStore !! id = Some r -> version r < maxInt64.
Proof.
  revert id r.
  refine (exampleStore_rows (fun _ r => version r < maxInt64) _ _ _ _ _); reflexivity.
Qed.

Lemma exampleStore_asciiKeys : asciiKeys exampleStore.
Proof.
  refine (exampleStore_rows (fun id _ => isASCII id = true) _ _ _ _ _); reflexivity.
Qed.

Lemma exampleStore_transitionDomain id : transitionDomain exampleStore id.
Proof. split; [apply exampleStore_int64Rows|apply exampleStore_belowMax]. Qed.

Lemma exampleStore_updateDomain id : updateDomain exampleStore id.
Proof. split; [apply exampleStore_int64Rows|apply exampleStore_belowMax]. Qed.

Lemma exampleStore_readDomain arg : isASCII arg = true -> readDomain exampleStore arg.
Proof.
  intros. split; [apply exampleStore_int64Rows|]. split; [apply exampleStore_asciiKeys|done].
Qed.

End Facts.

(** * The claims *)

(** ** State machine *)

Section Transitions.
Context {str : Strings}.

(** C10. A target state outside the five defined states makes
    [TransitionState] fail with invalid-input (not with
    invalid-state-transition), and the check precedes the lookup: the error is
    the same for every table, whether or not it holds the issue. *)
Theorem unknown_target_state_is_invalid_input (db : Store) now id to ev :
  to ∉ defined_states ->
  exists e,
    TransitionState db now id to ev = (inl e, db) /\
    e = Errorf "%w: unknown target state %q" ErrInvalidInput [AStr to] /\
    errors_Is e ErrInvalidInput = true /\
    errors_Is e ErrInvalidStateTransition = false /\
    forall db' : Store, fst (TransitionState db' now id to ev) = inl e.
Proof.
  intros Hto. rewrite <- IsValidState_defined in Hto.
  apply not_true_is_false in Hto.
  eexists. unfold TransitionState. rewrite Hto. simpl.
  repeat split; reflexivity.
Qed.

(** C1. Transition legality is exactly the edge table: between two distinct
    defined states, [TransitionState] fails with invalid-state-transition when
    the edge is not listed, and on a listed edge, once the dependency gate and
    the expected version allow it, it succeeds and the stored version is the
    old one plus 1.  (The table holds int64 versions and the issue's version
    is below the largest int64, so that the increment is an integer again.) *)
Theorem transition_legality_is_the_table (db : Store) now id r to ev :
  int64Rows db ->
  db !! id = Some r -> version r < maxInt64 ->
  state r ∈ defined_states -> to ∈ defined_states -> state r <> to ->
  ((state r, to) ∉ spec_edges ->
     TransitionState db now id to ev =
     (inl (Errorf "%w: %s -> %s" ErrInvalidStateTransition [AStr (state r); AStr to]), db)) /\
  ((state r, to) ∈ spec_edges ->
     (to = StateInProgress -> depsDone db (blocked_by r)) ->
     versionMatches r ev = true ->
     exists updated r',
       TransitionState db now id to ev = (inr updated, <[id := r']> db) /\
       version r' = version r + 1 /\ state r' = to /\
       updated = scanIssue id r' /\ Version updated = version r + 1).
Proof.
  intros _ Hr _ Hfrom Hto Hne.
  destruct (ValidateTransition_table _ _ Hfrom Hto Hne) as [Hin Hout].
  apply IsValidState_defined in Hto.
  split.
  - intros He. rewrite (TransitionState_existing _ _ _ _ _ _ Hr Hto), (Hout He). reflexivity.
  - intros He Hgate Hv.
    rewrite (TransitionState_existing _ _ _ _ _ _ Hr Hto), (Hin He), Hv.
    exists (scanIssue id (setState now to r)), (setState now to r).
    case_bool_decide as Hip; simpl.
    + specialize (Hgate Hip).
      assert (Hall : forall d, d ∈ blocked_by r -> is_Some (db !! d)).
      { intros d Hd. destruct (Hgate d Hd) as (rd & -> & _). eauto. }
      apply firstMissing_None in Hall as Hfm. rewrite Hfm.
      apply (notDone_nil _ _ Hall) in Hgate. rewrite Hgate. simpl. auto.
    + auto.
Qed.

Lemma ValidateTransition_self (s : State) : ValidateTransition s s = None.
Proof. unfold ValidateTransition. now rewrite bool_decide_eq_true_2. Qed.

Lemma ValidateTransition_not_in_progress (s : State) :
  s ∉ [StateTodo; StateInProgress; StateBlocked] ->
  ValidateTransition s StateInProgress =
  Some (Errorf "%w: %s -> %s" ErrInvalidStateTransition [AStr s; AStr StateInProgress]).
Proof.
  rewrite !elem_of_cons, elem_of_nil. intros Hs. unfold ValidateTransition.
  rewrite bool_decide_eq_false_2 by tauto.
  destruct (validTransitions !! s) as [next|] eqn:Hnext; [|reflexivity].
  destruct (default false (next !! StateInProgress)) eqn:Hto; [|reflexivity].
  exfalso. revert Hnext Hto. unfold validTransitions.
  rewrite lookup_insert_Some. intros [[<- <-]|[_ Hnext]]; [tauto|]. revert Hnext.
  rewrite lookup_insert_Some. intros [[<- <-]|[_ Hnext]]; [tauto|]. revert Hnext.
  rewrite lookup_insert_Some. intros [[<- <-]|[_ Hnext]]; [tauto|]. revert Hnext.
  rewrite lookup_insert_Some. intros [[<- <-]|[_ Hnext]]; [vm_compute; discriminate|].
  revert Hnext.
  rewrite lookup_insert_Some. intros [[<- <-]|[_ Hnext]]; [vm_compute; discriminate|].
  now rewrite lookup_empty in Hnext.
Qed.

Lemma ValidateTransition_in_progress (s : State) :
  s ∈ [StateTodo; StateInProgress; StateBlocked] ->
  ValidateTransition s StateInProgress = None.
Proof.
  rewrite !elem_of_cons, elem_of_nil. intros [->|[->|[->|[]]]]; reflexivity.
Qed.

(** C2, as the code has it.  A transition of an existing issue to its own
    (defined) state is never an invalid state transition, but it is applied
    like any other transition: in state in_progress the dependency gate is
    checked again, and a supplied expected version must match.  When both
    pass the call succeeds and the row keeps its state while its version
    grows by 1, last_updated_at becomes the current time and closed_at is
    rewritten (the current time in done and canceled, null otherwise); when
    one of them does not pass the call fails and the table is unchanged.
    (The table holds int64 versions and the issue's version is below the
    largest int64.) *)
Theorem self_transition_is_an_ordinary_update (db : Store) now id r ev :
  int64Rows db ->
  db !! id = Some r -> version r < maxInt64 ->
  state r ∈ defined_states ->
  ValidateTransition (state r) (state r) = None /\
  ((state r = StateInProgress -> depsDone db (blocked_by r)) ->
   versionMatches r ev = true ->
   exists r',
     TransitionState db now id (state r) ev = (inr (scanIssue id r'), <[id := r']> db) /\
     state r' = state r /\
     version r' = version r + 1 /\
     last_updated_at r' = now /\
     closed_at r' = (if bool_decide (state r = StateDone) || bool_decide (state r = StateCanceled)
                     then Some now else None) /\
     category r' = category r /\ parent_id r' = parent_id r /\
     blocked_by r' = blocked_by r /\ created_at r' = created_at r) /\
  ((state r = StateInProgress /\ ~ depsDone db (blocked_by r)) \/
   versionMatches r ev = false ->
   exists e, TransitionState db now id (state r) ev = (inl e, db) /\
             errors_Is e ErrInvalidStateTransition = false).
Proof.
  intros _ Hr _ Hs. apply IsValidState_defined in Hs.
  split; [apply ValidateTransition_self|].
  rewrite (TransitionState_existing _ _ _ _ _ _ Hr Hs), ValidateTransition_self.
  split.
  - intros Hgate Hv. rewrite Hv. exists (setState now (state r) r).
    case_bool_decide as Hip; simpl.
    + specialize (Hgate Hip).
      assert (Hall : forall d, d ∈ blocked_by r -> is_Some (db !! d)).
      { intros d Hd. destruct (Hgate d Hd) as (rd & -> & _). eauto. }
      apply firstMissing_None in Hall as Hfm. rewrite Hfm.
      apply (notDone_nil _ _ Hall) in Hgate. rewrite Hgate. simpl. repeat split.
    + repeat split.
  - intros Hfail.
    case_bool_decide as Hip; simpl.
    + destruct (firstMissing db (blocked_by r)) as [d|] eqn:Hfm; [eauto|].
      destruct (0 <? length (notDone db (blocked_by r)))%nat eqn:Hlen; [eauto|].
      destruct (versionMatches r ev) eqn:Hv; [|eauto].
      exfalso. destruct Hfail as [[_ Hnd]|?]; [|discriminate].
      apply Hnd. rewrite firstMissing_None in Hfm. apply (notDone_nil _ _ Hfm).
      apply Nat.ltb_ge in Hlen. destruct (notDone db (blocked_by r)); [done|simpl in Hlen; lia].
    + destruct (versionMatches r ev) eqn:Hv; [|eauto].
      exfalso. destruct Hfail as [[? _]|?]; [done|discriminate].
Qed.

(** C3, as the code has it.  A transition to in_progress succeeds only if
    every dependency exists and is done.  When the edge from the current
    state is legal (the state is todo, in_progress or blocked): a dependency
    without a row makes the call fail with not-found, and when all
    dependencies exist but some are not done the call fails with
    invalid-input whose message lists exactly the dependencies that are not
    done, in order.  From any other state, done and canceled among them, the
    edge check comes first: the call fails with invalid-state-transition
    whatever the dependencies are.  (The table holds int64 versions.) *)
Theorem in_progress_gate (db : Store) now id r ev :
  int64Rows db ->
  db !! id = Some r ->
  (forall updated db',
     TransitionState db now id StateInProgress ev = (inr updated, db') ->
     depsDone db (blocked_by r)) /\
  (state r ∈ [StateTodo; StateInProgress; StateBlocked] ->
   ((exists d, d ∈ blocked_by r /\ db !! d = None) ->
    exists d, d ∈ blocked_by r /\ db !! d = None /\
      TransitionState db now id StateInProgress ev =
      (inl (Errorf "%w: blocked_by issue %q not found" ErrNotFound [AStr d]), db)) /\
   ((forall d, d ∈ blocked_by r -> is_Some (db !! d)) ->
    (exists d rd, d ∈ blocked_by r /\ db !! d = Some rd /\ state rd <> StateDone) ->
    TransitionState db now id StateInProgress ev =
      (inl (Errorf "%w: blocked_by not done: %s" ErrInvalidInput
              [AStr (Join (notDone db (blocked_by r)) ",")]), db) /\
    Error (Errorf "%w: blocked_by not done: %s" ErrInvalidInput
             [AStr (Join (notDone db (blocked_by r)) ",")]) =
      "invalid input: blocked_by not done: " ++ Join (notDone db (blocked_by r)) "," /\
    (forall d, d ∈ notDone db (blocked_by r) <->
               d ∈ blocked_by r /\ exists rd, db !! d = Some rd /\ state rd <> StateDone))) /\
  (state r = StateDone \/ state r = StateCanceled \/ state r ∉ defined_states ->
   TransitionState db now id StateInProgress ev =
     (inl (Errorf "%w: %s -> %s" ErrInvalidStateTransition
             [AStr (state r); AStr StateInProgress]), db) /\
   errors_Is (Errorf "%w: %s -> %s" ErrInvalidStateTransition
                [AStr (state r); AStr StateInProgress]) ErrInvalidStateTransition = true).
Proof.
  intros _ Hr.
  assert (Hto : IsValidState StateInProgress = true) by reflexivity.
  rewrite (TransitionState_existing _ _ _ _ _ _ Hr Hto).
  rewrite bool_decide_eq_true_2 by reflexivity. simpl.
  split; [|split].
  3:{ intros Hs.
      assert (Hout : state r ∉ [StateTodo; StateInProgress; StateBlocked]).
      { unfold defined_states in Hs. rewrite !elem_of_cons in Hs.
        rewrite !elem_of_cons, elem_of_nil.
        intros [H|[H|[H|[]]]]; destruct Hs as [Hs|[Hs|Hs]];
          try (rewrite H in Hs; discriminate Hs); tauto. }
      rewrite (ValidateTransition_not_in_progress _ Hout). split; reflexivity. }
  - intros updated db'.
    destruct (ValidateTransition (state r) StateInProgress); [discriminate|].
    destruct (firstMissing db (blocked_by r)) eqn:Hfm; [discriminate|].
    destruct (0 <? length (notDone db (blocked_by r)))%nat eqn:Hlen; [discriminate|].
    intros _. rewrite firstMissing_None in Hfm. apply (notDone_nil _ _ Hfm).
    apply Nat.ltb_ge in Hlen. destruct (notDone db (blocked_by r)); [done|simpl in Hlen; lia].
  - intros Hs. rewrite (ValidateTransition_in_progress _ Hs). split.
    + intros (d & Hd & Hnone).
      destruct (firstMissing db (blocked_by r)) as [d'|] eqn:Hfm.
      * apply firstMissing_Some in Hfm as Hd'. exists d'. tauto.
      * rewrite firstMissing_None in Hfm. destruct (Hfm d Hd) as [? ?]. congruence.
    + intros Hall (d & rd & Hd & Hrd & Hst).
      apply firstMissing_None in Hall as Hfm. rewrite Hfm.
      assert (Hin : d ∈ notDone db (blocked_by r)) by (apply elem_of_notDone; eauto).
      split; [|split; [|intros; apply elem_of_notDone]].
      * destruct (notDone db (blocked_by r)); [inversion Hin|reflexivity].
      * cbn. now rewrite append_empty_r.
Qed.

(** ** Checks that only read *)

Lemma normalizeBlockedByLoop_readonly issueID projectPrefix blockedBy :
  forall seen out (tx : Store) res tx',
    normalizeBlockedByLoop issueID projectPrefix blockedBy seen out tx = inr (res, tx') ->
    tx' = tx.
Proof.
  induction blockedBy as [|raw rest IH]; intros seen out tx res tx'; simpl.
  - unfold tx_ret. now intros [= _ <-].
  - case_bool_decide; [apply IH|].
    destruct (issueIDRe _); simpl; [|discriminate].
    case_bool_decide; [discriminate|].
    destruct (default false (seen !! _)); [apply IH|].
    destruct (projectPrefixFromIssueID _) as [prefix ok].
    destruct (negb ok || _); [discriminate|].
    unfold tx_bind, tx_try, getIssueByIDTx.
    destruct (tx !! _); simpl; [|discriminate].
    destruct (negb _); [discriminate|]. apply IH.
Qed.

Lemma setParentChecksTx_readonly issue parentID (tx : Store) np tx' :
  setParentChecksTx issue parentID tx = inr (np, tx') -> tx' = tx.
Proof.
  unfold setParentChecksTx.
  destruct (expectedParentCategory _) as [req needs].
  destruct (needs && _); [discriminate|].
  destruct (negb needs && _); [discriminate|].
  destruct needs.
  - unfold tx_bind, getIssueByIDTx. destruct (tx !! _); [|discriminate].
    destruct (negb _); [discriminate|]. destruct (negb _); [discriminate|].
    unfold tx_ret. now intros [= _ <-].
  - unfold tx_ret. now intros [= _ <-].
Qed.

(** ** SetParent and SetBlockedBy on an existing issue *)

Lemma SetParent_existing (db : Store) now id r parentID ev :
  db !! TrimSpace id = Some r ->
  TrimSpace id <> EmptyString ->
  SetParent db now id parentID ev =
  match setParentChecksTx (scanIssue (TrimSpace id) r) parentID db with
  | inl e => (inl e, db)
  | inr (newParent, _) =>
      if versionMatches r ev
      then (inr (scanIssue (TrimSpace id) (setParentID now newParent r)),
            <[TrimSpace id := setParentID now newParent r]> db)
      else (inl (staleWrite (default 0 ev)), db)
  end.
Proof.
  intros Hr Hid. unfold SetParent. rewrite bool_decide_eq_false_2 by done.
  unfold run_tx, SetParentTx.
  unfold tx_bind at 1. rewrite (getIssueByIDTx_Some _ _ _ Hr).
  unfold tx_bind at 1.
  destruct (setParentChecksTx _ parentID db) as [e|[np tx]] eqn:Hchk; [reflexivity|].
  apply setParentChecksTx_readonly in Hchk as ->.
  rewrite (execUpdate_afterUpdate _ _ _ _ _ _ Hr), trg_setParentID.
  destruct ev as [v|]; simpl; [|reflexivity]. now case_bool_decide.
Qed.

Lemma SetBlockedBy_existing (db : Store) now id r blockedBy ev :
  db !! TrimSpace id = Some r ->
  TrimSpace id <> EmptyString ->
  SetBlockedBy db now id blockedBy ev =
  match normalizeBlockedByTx (TrimSpace id) (ProjectPrefix (scanIssue (TrimSpace id) r))
          blockedBy db with
  | inl e => (inl e, db)
  | inr (normalized, _) =>
      if versionMatches r ev
      then (inr (scanIssue (TrimSpace id) (setBlockedByCol now normalized r)),
            <[TrimSpace id := setBlockedByCol now normalized r]> db)
      else (inl (staleWrite (default 0 ev)), db)
  end.
Proof.
  intros Hr Hid. unfold SetBlockedBy. rewrite bool_decide_eq_false_2 by done.
  unfold run_tx, SetBlockedByTx.
  unfold tx_bind at 1. rewrite (getIssueByIDTx_Some _ _ _ Hr).
  unfold tx_bind at 1. simpl ID.
  destruct (normalizeBlockedByTx _ _ blockedBy db) as [e|[l tx]] eqn:Hchk; [reflexivity|].
  apply normalizeBlockedByLoop_readonly in Hchk as ->.
  rewrite (execUpdate_afterUpdate _ _ _ _ _ _ Hr), trg_setBlockedByCol.
  destruct ev as [v|]; simpl; [|reflexivity]. now case_bool_decide.
Qed.

(** ** Optimistic concurrency *)

Lemma versionMatches_stale r v : v <> version r -> versionMatches r (Some v) = false.
Proof. intros H. simpl. apply bool_decide_eq_false_2. congruence. Qed.

(** The two outcomes of a call with a stale expected version: the error of
    the check that also fails without the version, or the conflict. *)
Ltac stale_same_error :=
  eexists; split; [reflexivity|]; split;
  [intros (? & ? & [=])|simpl; intros ? [= <-]; reflexivity].

Ltac stale_conflict :=
  eexists; split; [reflexivity|]; split;
  [intros _; split; reflexivity|simpl; intros ? [=]].

(** C4, as the code has it.  On an existing issue, an expected version that
    differs from the row's version makes TransitionState, SetParent and
    SetBlockedBy fail and leave the table exactly as it was.  The error is
    the conflict error whenever the same call without an expected version
    succeeds; when the call without an expected version fails, on whatever
    check, the stale call fails with that same error, since the version is
    compared last.  (The table holds int64 versions and the issue's version
    is below the largest int64.) *)
Theorem stale_version_never_writes (db : Store) now id r v :
  int64Rows db -> version r < maxInt64 ->
  v <> version r ->
  (db !! id = Some r ->
   forall to, exists e,
     TransitionState db now id to (Some v) = (inl e, db) /\
     ((exists u db', TransitionState db now id to None = (inr u, db')) ->
      e = staleWrite v /\ errors_Is e ErrConflict = true) /\
     (forall e', fst (TransitionState db now id to None) = inl e' -> e = e')) /\
  (db !! TrimSpace id = Some r ->
   (forall parentID, exists e,
      SetParent db now id parentID (Some v) = (inl e, db) /\
      ((exists u db', SetParent db now id parentID None = (inr u, db')) ->
       e = staleWrite v /\ errors_Is e ErrConflict = true) /\
      (forall e', fst (SetParent db now id parentID None) = inl e' -> e = e')) /\
   (forall blockedBy, exists e,
      SetBlockedBy db now id blockedBy (Some v) = (inl e, db) /\
      ((exists u db', SetBlockedBy db now id blockedBy None = (inr u, db')) ->
       e = staleWrite v /\ errors_Is e ErrConflict = true) /\
      (forall e', fst (SetBlockedBy db now id blockedBy None) = inl e' -> e = e'))).
Proof.
  intros _ _ Hv. pose proof (versionMatches_stale _ _ Hv) as Hstale.
  split.
  - intros Hr to. destruct (IsValidState to) eqn:Hto.
    + rewrite !(TransitionState_existing _ _ _ _ _ _ Hr Hto), Hstale.
      destruct (ValidateTransition (state r) to); [stale_same_error|].
      destruct (if bool_decide (to = StateInProgress) then _ else _); [stale_same_error|].
      destruct (_ && _); [stale_same_error|].
      stale_conflict.
    + unfold TransitionState. rewrite Hto. simpl. stale_same_error.
  - intros Hr.
    destruct (decide (TrimSpace id = EmptyString)) as [Hid|Hid].
    { split; intros arg; [unfold SetParent|unfold SetBlockedBy];
        rewrite bool_decide_eq_true_2 by done; stale_same_error. }
    split.
    + intros parentID. rewrite !(SetParent_existing _ _ _ _ _ _ Hr Hid), Hstale.
      destruct (setParentChecksTx _ _ _) as [e|[np tx]]; [stale_same_error|].
      stale_conflict.
    + intros blockedBy. rewrite !(SetBlockedBy_existing _ _ _ _ _ _ Hr Hid), Hstale.
      destruct (normalizeBlockedByTx _ _ _ _) as [e|[l tx]]; [stale_same_error|].
      stale_conflict.
Qed.

End Transitions.

(** Instances, run with the string functions on ASCII text. *)
Section TransitionExamples.
#[local] Existing Instance asciiStrings.

Lemma unknown_target_state_witness :
  exists e,
    TransitionState exampleStore 20 "cat-100002" "closed" (Some 3) = (inl e, exampleStore) /\
    e = Errorf "%w: unknown target state %q" ErrInvalidInput [AStr "closed"] /\
    errors_Is e ErrInvalidInput = true /\
    errors_Is e ErrInvalidStateTransition = false /\
    forall db' : Store, fst (TransitionState db' 20 "cat-100002" "closed" (Some 3)) = inl e.
Proof.
  apply (unknown_target_state_is_invalid_input exampleStore 20 "cat-100002" "closed" (Some 3)).
  unfold defined_states. rewrite !elem_of_cons, elem_of_nil. vm_compute.
  intuition discriminate.
Defined.

Lemma transition_legality_witness :
  TransitionState exampleStore 20 "cat-100002" "done" None =
    (inl (Errorf "%w: %s -> %s" ErrInvalidStateTransition [AStr "todo"; AStr "done"]),
     exampleStore) /\
  exists updated r',
    TransitionState exampleStore 20 "cat-100002" "in_progress" (Some 3) =
      (inr updated, <["cat-100002" := r']> exampleStore) /\
    version r' = 3 + 1 /\ state r' = "in_progress" /\
    updated = scanIssue "cat-100002" r' /\ Version updated = 3 + 1.
Proof.
  pose (r := exampleTodoTask).
  assert (Hr : exampleStore !! "cat-100002" = Some r) by reflexivity.
  assert (Hv : version r < maxInt64) by reflexivity.
  assert (Hs : state r ∈ defined_states)
    by (unfold defined_states; simpl; rewrite !elem_of_cons; auto).
  split.
  - apply (transition_legality_is_the_table exampleStore 20 "cat-100002" r "done" None
             exampleStore_int64Rows Hr Hv Hs).
    + unfold defined_states. rewrite !elem_of_cons. auto 6.
    + simpl. discriminate.
    + unfold spec_edges. rewrite !elem_of_cons, elem_of_nil. vm_compute.
      intuition discriminate.
  - apply (transition_legality_is_the_table exampleStore 20 "cat-100002" r
             "in_progress" (Some 3) exampleStore_int64Rows Hr Hv Hs).
    + unfold defined_states. rewrite !elem_of_cons. auto 6.
    + simpl. discriminate.
    + unfold spec_edges. rewrite !elem_of_cons. auto.
    + intros _ d Hd. inversion Hd.
    + reflexivity.
Defined.

Lemma self_transition_witness :
  exists r',
    TransitionState exampleStore 20 "cat-100003" "done" (Some 4) =
      (inr (scanIssue "cat-100003" r'), <["cat-100003" := r']> exampleStore) /\
    version r' = 4 + 1 /\ last_updated_at r' = 20 /\ closed_at r' = Some 20.
Proof.
  pose (r := exampleDoneTask).
  assert (Hr : exampleStore !! "cat-100003" = Some r) by reflexivity.
  assert (Hs : state r ∈ defined_states)
    by (unfold defined_states; simpl; rewrite !elem_of_cons; auto 6).
  destruct (self_transition_is_an_ordinary_update exampleStore 20 "cat-100003" r (Some 4)
              exampleStore_int64Rows Hr eq_refl Hs)
    as (_ & Hok & _).
  destruct Hok as (r' & Heq & _ & Hv & Hl & Hc & _).
  - simpl. discriminate.
  - reflexivity.
  - exists r'. repeat split; assumption.
Defined.

(** C2 as stated fails: on a done issue at version 4, closed at time 9, the
    transition to done bumps the version to 5 and moves closed_at to the
    current time; and on an in-progress issue with an unfinished dependency
    the transition to in_progress is refused by the dependency gate. *)
Lemma self_transition_not_a_noop :
  state <$> (exampleStore !! "cat-100003") = Some "done" /\
  version <$> (exampleStore !! "cat-100003") = Some 4 /\
  closed_at <$> (exampleStore !! "cat-100003") = Some (Some 9) /\
  (let out := TransitionState exampleStore 20 "cat-100003" "done" None in
   Version <$> (match fst out with inr u => Some u | inl _ => None end) = Some 5 /\
   version <$> (snd out !! "cat-100003") = Some 5 /\
   closed_at <$> (snd out !! "cat-100003") = Some (Some 20) /\
   snd out <> exampleStore) /\
  state <$> (exampleStore !! "cat-100004") = Some "in_progress" /\
  TransitionState exampleStore 20 "cat-100004" "in_progress" None =
    (inl (Errorf "%w: blocked_by not done: %s" ErrInvalidInput [AStr "cat-100002"]),
     exampleStore).
Proof.
  repeat split; try reflexivity.
  intros H. apply (f_equal (fun m : Store => version <$> (m !! "cat-100003"))) in H.
  vm_compute in H. discriminate.
Qed.

Lemma in_progress_gate_witness :
  TransitionState exampleStore 20 "cat-100004" StateInProgress None =
    (inl (Errorf "%w: blocked_by not done: %s" ErrInvalidInput
            [AStr (Join (notDone exampleStore ["cat-100002"]) ",")]), exampleStore).
Proof.
  pose (r := exampleBusyTask).
  assert (Hr : exampleStore !! "cat-100004" = Some r) by reflexivity.
  destruct (in_progress_gate exampleStore 20 "cat-100004" r None exampleStore_int64Rows Hr)
    as (_ & Hgate & _).
  destruct Hgate as [_ Hnd].
  - simpl. rewrite !elem_of_cons. auto.
  - eapply proj1, Hnd.
    + intros d [->|Hd]%elem_of_cons; [vm_compute; eauto|inversion Hd].
    + exists "cat-100002", (exampleTodoTask).
      repeat split; [simpl; rewrite elem_of_cons; auto|discriminate].
Defined.

(** C3 as stated fails: [cat-100003] is done and its only dependency exists
    but is not done; the transition to in_progress is refused as an invalid
    state transition, not as invalid-input. *)
Lemma in_progress_gate_after_edge_check :
  state <$> (exampleStore !! "cat-100003") = Some "done" /\
  blocked_by <$> (exampleStore !! "cat-100003") = Some ["cat-100002"] /\
  state <$> (exampleStore !! "cat-100002") = Some "todo" /\
  exists e,
    TransitionState exampleStore 20 "cat-100003" StateInProgress None = (inl e, exampleStore) /\
    errors_Is e ErrInvalidStateTransition = true /\
    errors_Is e ErrInvalidInput = false.
Proof.
  repeat split. eexists. repeat split.
Qed.

Lemma stale_version_witness :
  exists e,
    TransitionState exampleStore 20 "cat-100002" "in_progress" (Some 2) = (inl e, exampleStore) /\
    ((exists u db', TransitionState exampleStore 20 "cat-100002" "in_progress" None
                    = (inr u, db')) ->
     e = staleWrite 2 /\ errors_Is e ErrConflict = true) /\
    (forall e', fst (TransitionState exampleStore 20 "cat-100002" "in_progress" None) = inl e' ->
                e = e').
Proof.
  pose (r := exampleTodoTask).
  assert (Hv : 2 <> version r) by (simpl; lia).
  assert (Hmax : version r < maxInt64) by reflexivity.
  destruct (stale_version_never_writes exampleStore 20 "cat-100002" r 2
              exampleStore_int64Rows Hmax Hv) as [Hts _].
  apply Hts. reflexivity.
Defined.

(** C4 as stated fails: [cat-100002] is at version 3 in state todo; the
    transition to done with expected version 2 is refused, but as an invalid
    state transition and not as a conflict. *)
Lemma stale_version_not_always_conflict :
  version <$> (exampleStore !! "cat-100002") = Some 3 /\
  state <$> (exampleStore !! "cat-100002") = Some "todo" /\
  exists e,
    TransitionState exampleStore 20 "cat-100002" "done" (Some 2) = (inl e, exampleStore) /\
    errors_Is e ErrInvalidStateTransition = true /\
    errors_Is e ErrConflict = false.
Proof.
  repeat split. eexists. repeat split.
Qed.

End TransitionExamples.

(** ** Dependency normalization *)

Section Blocking.
Context {str : Strings}.

Lemma normalizeBlockedByLoop_errors issueID projectPrefix blockedBy :
  forall seen out (tx : Store) e,
    normalizeBlockedByLoop issueID projectPrefix blockedBy seen out tx = inl e ->
    invalidOrNotFound e.
Proof.
  unfold invalidOrNotFound.
  induction blockedBy as [|raw rest IH]; intros seen out tx e; simpl; [discriminate|].
  case_bool_decide; [apply IH|].
  destruct (issueIDRe _); simpl; [|intros [= <-]; auto].
  case_bool_decide; [intros [= <-]; auto|].
  destruct (default false (seen !! _)); [apply IH|].
  destruct (projectPrefixFromIssueID _) as [prefix ok].
  destruct (negb ok || _); [intros [= <-]; auto|].
  unfold tx_bind, tx_try, getIssueByIDTx.
  destruct (tx !! _); simpl; [|intros [= <-]; auto].
  destruct (negb _); [intros [= <-]; auto|]. apply IH.
Qed.

Lemma normalizeBlockedByLoop_self issueID projectPrefix blockedBy :
  issueID <> EmptyString ->
  (exists raw, raw ∈ blockedBy /\ ToLower (TrimSpace raw) = issueID) ->
  forall seen out (tx : Store),
    exists e, normalizeBlockedByLoop issueID projectPrefix blockedBy seen out tx = inl e.
Proof.
  intros Hne. induction blockedBy as [|raw rest IH]; intros (x & Hx & Hself) seen out tx.
  { inversion Hx. }
  assert (Hrest : x = raw \/ exists y, y ∈ rest /\ ToLower (TrimSpace y) = issueID).
  { apply elem_of_cons in Hx as [->|Hx]; eauto. }
  simpl.
  case_bool_decide as Hempty.
  { destruct Hrest as [->|Hrest]; [congruence|]. now apply IH. }
  destruct (issueIDRe _); simpl; [|eauto].
  case_bool_decide as Hs; [eauto|].
  destruct Hrest as [->|Hrest]; [congruence|].
  destruct (default false (seen !! _)); [now apply IH|].
  destruct (projectPrefixFromIssueID _) as [prefix ok].
  destruct (negb ok || _); [eauto|].
  unfold tx_bind, tx_try, getIssueByIDTx.
  destruct (tx !! _); simpl; [|eauto].
  destruct (negb _); [eauto|]. now apply IH.
Qed.

(** The set of ids met so far, as the loop's [seen] map and as a list. *)
Lemma normalizeBlockedByLoop_dropRepeats issueID projectPrefix blockedBy :
  forall (ids : list string) (seen : gmap string bool) out (tx : Store),
    (forall x, x ∈ ids ->
       x = EmptyString \/
       (issueIDRe x = true /\ x <> issueID /\ default false (seen !! x) = true)) ->
    (forall x, default false (seen !! x) = true -> x ∈ ids) ->
    normalizeBlockedByLoop issueID projectPrefix blockedBy seen out tx =
    normalizeBlockedByLoop issueID projectPrefix (dropRepeats ids blockedBy) seen out tx.
Proof.
  induction blockedBy as [|raw rest IH]; intros ids seen out tx Hids Hseen; [reflexivity|].
  simpl dropRepeats. case_bool_decide as Hin.
  - simpl. destruct (Hids _ Hin) as [Hempty|(Hre & Hself & Hs)].
    + rewrite bool_decide_eq_true_2 by done. now apply IH.
    + rewrite bool_decide_eq_false_2 by (now apply issueIDRe_nonempty).
      rewrite Hre. simpl. rewrite bool_decide_eq_false_2 by done.
      rewrite Hs. now apply IH.
  - simpl. case_bool_decide as Hempty.
    { apply IH.
      - intros x [->|Hx]%elem_of_cons; auto.
      - intros x Hx. right. auto. }
    destruct (issueIDRe _) eqn:Hre; simpl; [|reflexivity].
    case_bool_decide as Hself; [reflexivity|].
    destruct (default false (seen !! _)) eqn:Hs.
    { exfalso. apply Hin. now apply Hseen. }
    destruct (projectPrefixFromIssueID _) as [prefix ok].
    destruct (negb ok || _); [reflexivity|].
    unfold tx_bind, tx_try, getIssueByIDTx.
    destruct (tx !! _); simpl; [|reflexivity].
    destruct (negb _); [reflexivity|].
    apply IH.
    + intros x [->|Hx]%elem_of_cons.
      * right. rewrite lookup_insert_eq. auto.
      * destruct (Hids _ Hx) as [?|(? & ? & Hsx)]; [auto|]. right.
        repeat split; try done.
        rewrite lookup_insert. case_decide; [done|exact Hsx].
    + intros x. rewrite lookup_insert. case_decide as Hx; [subst; left|right; auto].
Qed.

Lemma normalizeBlockedByLoop_output issueID projectPrefix blockedBy :
  forall (seen : gmap string bool) out (db : Store) res tx,
    normalizeBlockedByLoop issueID projectPrefix blockedBy seen out db = inr (res, tx) ->
    (forall x, x ∈ out ->
       accepted db issueID projectPrefix x /\ default false (seen !! x) = true) ->
    NoDup out ->
    (forall x, x ∈ res -> accepted db issueID projectPrefix x) /\ NoDup res.
Proof.
  induction blockedBy as [|raw rest IH]; intros seen out db res tx; simpl.
  - unfold tx_ret. intros [= <- _] Hout Hnd. split; [|done]. intros x Hx. now apply Hout.
  - case_bool_decide as Hempty; [apply IH|].
    destruct (issueIDRe _) eqn:Hre; simpl; [|discriminate].
    case_bool_decide as Hself; [discriminate|].
    destruct (default false (seen !! _)) eqn:Hs; [apply IH|].
    destruct (projectPrefixFromIssueID _) as [prefix ok] eqn:Hpp.
    destruct ok; simpl; [|discriminate].
    case_bool_decide as Hprefix; simpl; [|discriminate]. subst prefix.
    unfold tx_bind, tx_try, getIssueByIDTx.
    destruct (db !! _) as [rd|] eqn:Hd; simpl; [|discriminate].
    destruct (negb _); [discriminate|].
    intros Hloop Hout Hnd. eapply IH; [exact Hloop| |].
    + intros x [Hx|Hx]%elem_of_app.
      * destruct (Hout _ Hx) as [Hacc Hsx]. split; [done|].
        rewrite lookup_insert. case_decide; [done|exact Hsx].
      * apply list_elem_of_singleton in Hx as ->. rewrite lookup_insert_eq.
        split; [|done]. repeat split; eauto.
    + apply NoDup_app. split; [done|]. split; [|apply NoDup_singleton].
      intros x Hx ->%list_elem_of_singleton.
      destruct (Hout _ Hx) as [_ Hsx]. congruence.
Qed.

Lemma normalizeBlockedByLoop_replay issueID projectPrefix (db : Store) l :
  forall (seen : gmap string bool) out,
    (forall x, x ∈ l -> accepted db issueID projectPrefix x) ->
    NoDup l ->
    (forall x, x ∈ l -> default false (seen !! x) = false) ->
    normalizeBlockedByLoop issueID projectPrefix l seen out db = inr ((out ++ l)%list, db).
Proof.
  induction l as [|x l IH]; intros seen out Hacc Hnd Hseen; simpl.
  - unfold tx_ret. now rewrite app_nil_r.
  - destruct (Hacc x) as (Hre & Hself & Hpp & [rd Hd]); [now left|].
    rewrite (issueIDRe_normal _ Hre).
    rewrite bool_decide_eq_false_2 by (now apply issueIDRe_nonempty).
    rewrite Hre. simpl. rewrite bool_decide_eq_false_2 by done.
    rewrite (Hseen x) by now left. rewrite Hpp. simpl.
    rewrite bool_decide_eq_true_2 by done. simpl.
    unfold tx_bind, tx_try, getIssueByIDTx. rewrite Hd. simpl. rewrite Hpp.
    rewrite bool_decide_eq_true_2 by done. simpl.
    apply NoDup_cons in Hnd as [Hx Hnd].
    rewrite IH; [now rewrite <- app_assoc| |done|].
    + intros y Hy. apply Hacc. now right.
    + intros y Hy. rewrite lookup_insert_ne by (intros ->; done).
      apply Hseen. now right.
Qed.

(** C8. Normalization is idempotent: the output of a successful
    normalization, normalized again for the same issue, project and table,
    is accepted and comes back unchanged, element for element. *)
Theorem normalization_idempotent (db : Store) issueID projectPrefix blockedBy out tx :
  normalizeBlockedByTx issueID projectPrefix blockedBy db = inr (out, tx) ->
  normalizeBlockedByTx issueID projectPrefix out db = inr (out, db).
Proof.
  unfold normalizeBlockedByTx. intros Hrun.
  destruct (normalizeBlockedByLoop_output _ _ _ _ _ _ _ _ Hrun) as [Hacc Hnd].
  - intros x Hx. inversion Hx.
  - apply NoDup_nil_2.
  - now apply (normalizeBlockedByLoop_replay _ _ _ _ ∅ []).
Qed.

End Blocking.

(** Instances, run with the string functions on ASCII text. *)
Section BlockingExamples.
#[local] Existing Instance asciiStrings.

Lemma normalization_idempotent_witness :
  normalizeBlockedByTx "cat-100004" "cat" ["cat-100002"; "cat-100003"] exampleStore =
  inr (["cat-100002"; "cat-100003"], exampleStore).
Proof.
  apply (normalization_idempotent exampleStore "cat-100004" "cat"
           [" CAT-100002"; "cat-100003 "; "cat-100002"] _ exampleStore).
  reflexivity.
Defined.

End BlockingExamples.

(** ** Creation *)

Section Creation.
Context {str : Strings}.

Lemma createChecksTx_readonly projectPrefix c issueID parentID blockedBy (tx : Store) res tx' :
  createChecksTx projectPrefix c issueID parentID blockedBy tx = inr (res, tx') -> tx' = tx.
Proof.
  unfold createChecksTx.
  destruct (expectedParentCategory c) as [req needs].
  destruct (needs && _); [discriminate|].
  destruct (negb needs && _); [discriminate|].
  unfold tx_bind at 1.
  destruct (hasParentID parentID).
  - unfold tx_bind at 1, tx_try, getIssueByIDTx.
    destruct (tx !! _); simpl; [|discriminate].
    destruct (negb _); [discriminate|]. destruct (negb _); [discriminate|].
    unfold tx_ret, tx_bind.
    destruct (normalizeBlockedByTx _ _ _ _) as [|[nb tx'']] eqn:Hn; [discriminate|].
    apply normalizeBlockedByLoop_readonly in Hn as ->. now intros [= _ <-].
  - unfold tx_ret, tx_bind.
    destruct (normalizeBlockedByTx _ _ _ _) as [|[nb tx'']] eqn:Hn; [discriminate|].
    apply normalizeBlockedByLoop_readonly in Hn as ->. now intros [= _ <-].
Qed.

Lemma isUniqueViolation_primary_key :
  isUniqueViolation
    (DriverError "constraint failed: UNIQUE constraint failed: issues.id (1555)") = true.
Proof.
  unfold isUniqueViolation. simpl Error. now rewrite ToLower_ascii by reflexivity.
Qed.

(** An attempt is retried exactly when its checks pass and the INSERT hits
    the primary key. *)
Lemma createAttempt_Continue (db : Store) now p c t b parentID blockedBy number :
  createAttempt db now p c t b parentID blockedBy number = Continue <->
  (exists res, createChecksTx p c (Sprintf "%s-%d" EmptyString [AStr p; AInt number])
                 parentID blockedBy db = inr (res, db)) /\
  is_Some (db !! Sprintf "%s-%d" EmptyString [AStr p; AInt number]).
Proof.
  unfold createAttempt.
  destruct (createChecksTx _ _ _ _ _ _) as [e|[[cp nb] tx]] eqn:Hchk.
  { split; [discriminate|]. intros [[res [=]] _]. }
  apply createChecksTx_readonly in Hchk as Htx. subst tx.
  unfold execInsert.
  destruct (db !! _) as [r0|] eqn:Hid.
  - rewrite isUniqueViolation_primary_key. split; [|done]. intros _. eauto.
  - unfold getIssueByIDTx. rewrite lookup_insert_eq.
    split; [discriminate|]. intros [_ [? [=]]].
Qed.

Lemma createAttempt_Return (db : Store) now p c t b parentID blockedBy number r db' :
  createAttempt db now p c t b parentID blockedBy number = Return r db' ->
  (db' = db /\ exists e,
     r = inl e /\
     createChecksTx p c (Sprintf "%s-%d" EmptyString [AStr p; AInt number])
       parentID blockedBy db = inl e) \/
  (exists cp nb,
     let issueID := Sprintf "%s-%d" EmptyString [AStr p; AInt number] in
     createChecksTx p c issueID parentID blockedBy db = inr ((cp, nb), db) /\
     db !! issueID = None /\
     db' = <[issueID := insertedRow now c t b cp nb]> db /\
     r = inr (scanIssue issueID (insertedRow now c t b cp nb))).
Proof.
  unfold createAttempt.
  destruct (createChecksTx _ _ _ _ _ _) as [e|[[cp nb] tx]] eqn:Hchk.
  { intros [= <- <-]. left. eauto. }
  apply createChecksTx_readonly in Hchk as Htx. subst tx.
  unfold execInsert.
  destruct (db !! _) as [r0|] eqn:Hid.
  - rewrite isUniqueViolation_primary_key. discriminate.
  - unfold getIssueByIDTx. rewrite lookup_insert_eq.
    intros [= <- <-]. right. exists cp, nb. auto.
Qed.

Section CreateLoop.

Variables (draw : nat -> Z) (db : Store) (now : Time) (p : string) (c : Category)
          (t b : string) (parentID : option string) (blockedBy : list string).

#[local] Abbreviation attempt_at := (attemptAt draw db now p c t b parentID blockedBy).

Lemma createLoop_Return remaining k j r db' :
  (j < remaining)%nat ->
  (forall i, (i < j)%nat -> attempt_at (k + i) = Continue) ->
  attempt_at (k + j) = Return r db' ->
  createLoop remaining k draw db now p c t b parentID blockedBy = (r, db').
Proof.
  revert k j. induction remaining as [|n IH]; intros k j Hj Hcont Hret; [lia|].
  simpl. destruct j as [|j].
  - rewrite Nat.add_0_r in Hret. fold (attempt_at k). now rewrite Hret.
  - pose proof (Hcont 0%nat ltac:(lia)) as H0. rewrite Nat.add_0_r in H0.
    fold (attempt_at k). rewrite H0. apply (IH (S k) j); [lia| |].
    + intros i Hi. replace (S k + i)%nat with (k + S i)%nat by lia. apply Hcont. lia.
    + now replace (S k + j)%nat with (k + S j)%nat by lia.
Qed.

Lemma createLoop_exhausted remaining k :
  (forall i, (i < remaining)%nat -> attempt_at (k + i) = Continue) ->
  createLoop remaining k draw db now p c t b parentID blockedBy = (inl allocationFailed, db).
Proof.
  revert k. induction remaining as [|n IH]; intros k Hcont; [reflexivity|].
  simpl. pose proof (Hcont 0%nat ltac:(lia)) as H0. rewrite Nat.add_0_r in H0.
  fold (attempt_at k). rewrite H0. apply IH.
  intros i Hi. replace (S k + i)%nat with (k + S i)%nat by lia. apply Hcont. lia.
Qed.

(** The loop ends in one of three ways. *)
Lemma createLoop_cases remaining k :
  (exists j r db', (j < remaining)%nat /\
     (forall i, (i < j)%nat -> attempt_at (k + i) = Continue) /\
     attempt_at (k + j) = Return r db' /\
     createLoop remaining k draw db now p c t b parentID blockedBy = (r, db')) \/
  ((forall i, (i < remaining)%nat -> attempt_at (k + i) = Continue) /\
   createLoop remaining k draw db now p c t b parentID blockedBy
   = (inl allocationFailed, db)).
Proof.
  revert k. induction remaining as [|n IH]; intros k.
  - right. split; [intros; lia|reflexivity].
  - destruct (attempt_at k) as [r db'|] eqn:Hk.
    + left. exists 0%nat, r, db'. rewrite Nat.add_0_r.
      repeat split; [lia|intros; lia|done|].
      simpl. fold (attempt_at k). now rewrite Hk.
    + destruct (IH (S k)) as [(j & r & db' & Hj & Hc & Hr & Hl)|[Hc Hl]].
      * left. exists (S j), r, db'. repeat split; [lia| | |].
        -- intros [|i] Hi; [now rewrite Nat.add_0_r|].
           replace (k + S i)%nat with (S k + i)%nat by lia. apply Hc. lia.
        -- now replace (k + S j)%nat with (S k + j)%nat by lia.
        -- simpl. fold (attempt_at k). now rewrite Hk.
      * right. split.
        -- intros [|i] Hi; [now rewrite Nat.add_0_r|].
           replace (k + S i)%nat with (S k + i)%nat by lia. apply Hc. lia.
        -- simpl. fold (attempt_at k). now rewrite Hk.
Qed.

End CreateLoop.

Lemma createLoop_ext remaining : forall k draw draw' (db : Store) now p c t b parentID blockedBy,
  (forall i, (i < remaining)%nat -> draw' (k + i)%nat = draw (k + i)%nat) ->
  createLoop remaining k draw' db now p c t b parentID blockedBy =
  createLoop remaining k draw db now p c t b parentID blockedBy.
Proof.
  induction remaining as [|n IH]; intros k draw draw' db now p c t b parentID blockedBy Hd;
    [reflexivity|].
  simpl. pose proof (Hd 0%nat ltac:(lia)) as H0. rewrite Nat.add_0_r in H0. rewrite H0.
  destruct (createAttempt _ _ _ _ _ _ _ _ _); [reflexivity|].
  apply IH. intros i Hi. replace (S k + i)%nat with (k + S i)%nat by lia. apply Hd. lia.
Qed.

Lemma CreateIssue_valid draw (db : Store) now projectPrefix c title body parentID blockedBy :
  validCreateInput projectPrefix c title ->
  CreateIssue draw db now projectPrefix c title body parentID blockedBy =
  createLoop maxCreateAttempts 0 draw db now (TrimSpace (ToLower projectPrefix)) c
    (TrimSpace title) body parentID blockedBy.
Proof.
  intros (Hp & Hc & Ht). unfold CreateIssue. rewrite Hp, Hc. simpl.
  now rewrite bool_decide_eq_false_2.
Qed.

Lemma CreateIssue_invalid draw (db : Store) now projectPrefix c title body parentID blockedBy :
  ~ validCreateInput projectPrefix c title ->
  exists e, CreateIssue draw db now projectPrefix c title body parentID blockedBy = (inl e, db)
            /\ Unwrap e = Some ErrInvalidInput.
Proof.
  intros Hbad. unfold CreateIssue.
  destruct (projectPrefixRe _) eqn:Hp; simpl; [|eauto].
  destruct (IsValidCategory c) eqn:Hc; simpl; [|eauto].
  case_bool_decide as Ht; [eauto|].
  exfalso. apply Hbad. done.
Qed.

Lemma randomIssueNumber_range n :
  0 <= n < 900000 -> 100000 <= randomIssueNumber n <= 999999.
Proof.
  intros Hn. unfold randomIssueNumber, wrap64.
  rewrite (Z.mod_small (n + 2 ^ 63)) by lia.
  rewrite Z.mod_small by lia. lia.
Qed.

(** C9. The allocated number lies in 100000..999999.  Once the input checks
    pass, [CreateIssue] runs at most 8 attempts, the k-th with the k-th drawn
    number: an attempt is repeated only when its insert collides with an
    existing id, any other outcome of an attempt (success or any error) is
    the outcome of the call, and 8 collisions in a row give the conflict
    error with the table unchanged.  (The table holds int64 versions.) *)
Theorem id_allocation_bounded_retry draw (db : Store) now projectPrefix c title body
    parentID blockedBy :
  int64Rows db ->
  validCreateInput projectPrefix c title ->
  (forall k, 0 <= draw k < 900000) ->
  let p := TrimSpace (ToLower projectPrefix) in
  let attempt := attemptAt draw db now p c (TrimSpace title) body parentID blockedBy in
  let out := CreateIssue draw db now projectPrefix c title body parentID blockedBy in
  (forall k, 100000 <= randomIssueNumber (draw k) <= 999999) /\
  (forall k, attempt k = Continue -> is_Some (db !! allocatedID p (draw k))) /\
  (forall k e,
     createChecksTx p c (allocatedID p (draw k)) parentID blockedBy db = inl e ->
     attempt k = Return (inl e) db) /\
  (forall k r db',
     (k < maxCreateAttempts)%nat ->
     (forall j, (j < k)%nat -> attempt j = Continue) ->
     attempt k = Return r db' ->
     out = (r, db')) /\
  ((forall k, (k < maxCreateAttempts)%nat -> attempt k = Continue) ->
   out = (inl allocationFailed, db) /\ errors_Is allocationFailed ErrConflict = true) /\
  (forall draw',
     (forall k, (k < maxCreateAttempts)%nat -> draw' k = draw k) ->
     CreateIssue draw' db now projectPrefix c title body parentID blockedBy = out) /\
  maxCreateAttempts = 8%nat.
Proof.
  intros _ Hvalid Hdraw p attempt out.
  subst out. rewrite (CreateIssue_valid _ _ _ _ _ _ _ _ _ Hvalid). fold p.
  repeat split.
  - apply randomIssueNumber_range, Hdraw.
  - apply randomIssueNumber_range, Hdraw.
  - intros k Hk. now apply createAttempt_Continue in Hk as [_ Hk].
  - intros k e He. subst attempt. unfold attemptAt, createAttempt.
    unfold allocatedID in He. now rewrite He.
  - intros k r db' Hk Hc Hr. apply createLoop_Return with (k := 0%nat) (j := k); done.
  - now apply createLoop_exhausted.
  - intros draw' Hd. rewrite (CreateIssue_valid _ _ _ _ _ _ _ _ _ Hvalid). fold p.
    now apply createLoop_ext.
Qed.

(** ** The category rule *)

Lemma expectedParentCategory_cases (c : Category) :
  (c = CategoryTask /\ expectedParentCategory c = (CategoryWorkstream, true)) \/
  (c = CategoryWorkstream /\ expectedParentCategory c = (CategoryProject, true)) \/
  (c <> CategoryTask /\ c <> CategoryWorkstream /\
   expectedParentCategory c = (EmptyString, false)).
Proof.
  unfold expectedParentCategory.
  case_bool_decide as H1; [auto|].
  case_bool_decide as H2; [auto|].
  right. right. case_bool_decide; auto.
Qed.

Lemma parentRule_required (db : Store) project c req parent :
  expectedParentCategory c = (req, true) ->
  parentRule db project c parent <->
  exists pid pr, parent = Some pid /\ db !! pid = Some pr /\
    category pr = req /\ ProjectPrefix (scanIssue pid pr) = project.
Proof.
  intros Hreq. unfold parentRule.
  destruct (expectedParentCategory_cases c) as [[-> H]|[[-> H]|(_ & _ & H)]];
    rewrite H in Hreq; inversion Hreq; subst; clear Hreq.
  - split.
    + intros (_ & _ & Ht). now apply Ht.
    + intros Hex. repeat split; try discriminate. auto.
  - split.
    + intros (_ & Hw & _). now apply Hw.
    + intros Hex. repeat split; try discriminate. auto.
Qed.

Lemma parentRule_forbidden (db : Store) project c req :
  expectedParentCategory c = (req, false) ->
  parentRule db project c None.
Proof.
  intros Hreq. unfold parentRule.
  destruct (expectedParentCategory_cases c) as [[-> H]|[[-> H]|(Ht & Hw & H)]];
    rewrite H in Hreq; inversion Hreq; subst.
  repeat split; done.
Qed.

(** The rule only reads the category of the rows it refers to. *)
Lemma parentRule_mono (db db' : Store) project c parent :
  (forall pid pr, db !! pid = Some pr ->
     exists pr', db' !! pid = Some pr' /\ category pr' = category pr) ->
  parentRule db project c parent -> parentRule db' project c parent.
Proof.
  intros Hext (Hp & Hw & Ht). repeat split; [done| |].
  - intros Hc. destruct (Hw Hc) as (pid & pr & -> & Hl & Hcat & Hpp).
    destruct (Hext _ _ Hl) as (pr' & Hl' & Hc'). exists pid, pr'.
    repeat split; [done|congruence|exact Hpp].
  - intros Hc. destruct (Ht Hc) as (pid & pr & -> & Hl & Hcat & Hpp).
    destruct (Hext _ _ Hl) as (pr' & Hl' & Hc'). exists pid, pr'.
    repeat split; [done|congruence|exact Hpp].
Qed.

Lemma effectiveParent_None parentID :
  hasParentID parentID = false -> effectiveParent parentID = None.
Proof. unfold effectiveParent. now intros ->. Qed.

Lemma effectiveParent_Some parentID :
  hasParentID parentID = true ->
  effectiveParent parentID = Some (TrimSpace (default EmptyString parentID)).
Proof. unfold effectiveParent. now intros ->. Qed.

(** What [createChecksTx] establishes when it passes. *)
Lemma createChecksTx_ok (db : Store) p c issueID parentID blockedBy cp nb tx :
  createChecksTx p c issueID parentID blockedBy db = inr ((cp, nb), tx) ->
  cp = effectiveParent parentID /\
  parentRule db p c cp /\
  normalizeBlockedByTx issueID p blockedBy db = inr (nb, db).
Proof.
  unfold createChecksTx.
  destruct (expectedParentCategory c) as [req needs] eqn:Hreq.
  destruct (hasParentID parentID) eqn:Hhas; destruct needs; simpl; try discriminate.
  - unfold tx_bind at 1. unfold tx_bind at 1, tx_try, getIssueByIDTx.
    destruct (db !! _) as [pr|] eqn:Hpr; simpl; [|discriminate].
    case_bool_decide as Hpp; simpl; [|discriminate].
    case_bool_decide as Hcat; simpl; [|discriminate].
    unfold tx_bind, tx_ret.
    destruct (normalizeBlockedByTx _ _ _ _) as [|[nb' tx']] eqn:Hn; [discriminate|].
    apply normalizeBlockedByLoop_readonly in Hn as Htx. subst tx'.
    intros [= <- <- <-]. rewrite (effectiveParent_Some _ Hhas).
    split; [done|]. split; [|done].
    apply (parentRule_required _ _ _ _ _ Hreq). eauto 10.
  - unfold tx_bind, tx_ret.
    destruct (normalizeBlockedByTx _ _ _ _) as [|[nb' tx']] eqn:Hn; [discriminate|].
    apply normalizeBlockedByLoop_readonly in Hn as Htx. subst tx'.
    intros [= <- <- <-]. rewrite (effectiveParent_None _ Hhas).
    split; [done|]. split; [|done]. eapply parentRule_forbidden; eassumption.
Qed.

(** Every error of [createChecksTx] is invalid-input or not-found. *)
Lemma createChecksTx_errors (db : Store) p c issueID parentID blockedBy e :
  createChecksTx p c issueID parentID blockedBy db = inl e -> invalidOrNotFound e.
Proof.
  unfold createChecksTx, invalidOrNotFound.
  destruct (expectedParentCategory c) as [req needs] eqn:Hreq.
  destruct (hasParentID parentID) eqn:Hhas; destruct needs; simpl;
    try (intros [= <-]; auto).
  - unfold tx_bind at 1. unfold tx_bind at 1, tx_try, getIssueByIDTx.
    destruct (db !! _) as [pr|] eqn:Hpr; simpl; [|intros [= <-]; auto].
    case_bool_decide as Hpp; simpl; [|intros [= <-]; auto].
    case_bool_decide as Hcat; simpl; [|intros [= <-]; auto].
    unfold tx_bind, tx_ret.
    destruct (normalizeBlockedByTx _ _ _ _) as [e'|[nb' tx']] eqn:Hn; [|discriminate].
    intros [= <-]. eapply normalizeBlockedByLoop_errors, Hn.
  - unfold tx_bind, tx_ret.
    destruct (normalizeBlockedByTx _ _ _ _) as [e'|[nb' tx']] eqn:Hn; [|discriminate].
    intros [= <-]. eapply normalizeBlockedByLoop_errors, Hn.
Qed.

(** An input that breaks the category rule is stopped by the parent checks. *)
Lemma createChecksTx_rule (db : Store) p c issueID parentID blockedBy :
  ~ parentRule db p c (effectiveParent parentID) ->
  exists e,
    createChecksTx p c issueID parentID blockedBy db = inl e /\
    (Unwrap e = Some ErrInvalidInput \/
     Unwrap e = Some ErrNotFound /\
     exists pid, effectiveParent parentID = Some pid /\ db !! pid = None).
Proof.
  intros Hbad.
  destruct (createChecksTx p c issueID parentID blockedBy db) as [e|[[cp nb] tx]] eqn:Hchk.
  2:{ apply createChecksTx_ok in Hchk as (-> & Hrule & _). contradiction. }
  exists e. split; [done|]. revert Hchk. unfold createChecksTx.
  destruct (expectedParentCategory c) as [req needs] eqn:Hreq.
  destruct (hasParentID parentID) eqn:Hhas; destruct needs; simpl;
    try (intros [= <-]; auto).
  - unfold tx_bind at 1. unfold tx_bind at 1, tx_try, getIssueByIDTx.
    destruct (db !! _) as [pr|] eqn:Hpr; simpl.
    2:{ intros [= <-]. right. split; [done|]. rewrite (effectiveParent_Some _ Hhas). eauto. }
    case_bool_decide as Hpp; simpl; [|intros [= <-]; auto].
    case_bool_decide as Hcat; simpl; [|intros [= <-]; auto].
    exfalso. apply Hbad. rewrite (effectiveParent_Some _ Hhas).
    apply (parentRule_required _ _ _ _ _ Hreq). eauto 10.
  - exfalso. apply Hbad. rewrite (effectiveParent_None _ Hhas).
    eapply parentRule_forbidden; eassumption.
Qed.

Lemma allocatedID_nonempty p n : allocatedID p n <> EmptyString.
Proof. unfold allocatedID. rewrite Sprintf_issueID. now destruct p. Qed.

(** The successful output of the loop is what it started with followed by
    the non-blank normalized ids at their first occurrence. *)
Lemma normalizeBlockedByLoop_firstSeen issueID projectPrefix blockedBy :
  forall (seen : gmap string bool) (ids : list string) out (db : Store) res tx,
    (forall x, default false (seen !! x) = true <-> x ∈ ids) ->
    normalizeBlockedByLoop issueID projectPrefix blockedBy seen out db = inr (res, tx) ->
    res = (out ++ firstSeen ids
                    (List.map (fun raw => ToLower (TrimSpace raw)) blockedBy))%list.
Proof.
  induction blockedBy as [|raw rest IH]; intros seen ids out db res tx Hseen; simpl.
  - unfold tx_ret. intros [= <- _]. now rewrite app_nil_r.
  - case_bool_decide as Hempty.
    { rewrite bool_decide_eq_true_2 by auto. now apply IH. }
    destruct (issueIDRe _) eqn:Hre; simpl; [|discriminate].
    case_bool_decide as Hself; [discriminate|].
    destruct (default false (seen !! _)) eqn:Hs.
    { rewrite bool_decide_eq_true_2 by (right; now apply Hseen). now apply IH. }
    rewrite bool_decide_eq_false_2.
    2:{ intros [H|H]; [done|]. apply Hseen in H. congruence. }
    destruct (projectPrefixFromIssueID _) as [prefix ok] eqn:Hpp.
    destruct ok; simpl; [|discriminate].
    case_bool_decide as Hprefix; simpl; [|discriminate]. subst prefix.
    unfold tx_bind, tx_try, getIssueByIDTx.
    destruct (db !! _) as [rd|] eqn:Hd; simpl; [|discriminate].
    destruct (negb _); [discriminate|].
    intros Hrun.
    assert (Hseen' : forall x,
              default false (<[ToLower (TrimSpace raw) := true]> seen !! x) = true <->
              x ∈ ToLower (TrimSpace raw) :: ids).
    { intros x. rewrite elem_of_cons.
      destruct (decide (ToLower (TrimSpace raw) = x)) as [<-|Hne].
      - rewrite lookup_insert_eq. simpl. tauto.
      - rewrite lookup_insert_ne by done. rewrite Hseen. split; [auto|].
        intros [H|H]; [congruence|done]. }
    rewrite (IH _ _ _ _ _ _ Hseen' Hrun). now rewrite <- app_assoc.
Qed.

(** C7, as the code has it.  A list that contains the issue's own id (after
    trim and lowercase) is always rejected, by the normalization and so by
    [SetBlockedBy] and by the creation attempt that allocated that id.  A
    dependency id that occurs more than once is not rejected: the later
    occurrences are skipped, so the outcome is that of the list without them
    and a successful output holds each non-blank id once, in normal form, in
    the order of first occurrence.  (The table holds int64 versions.) *)
Theorem self_reference_rejected_repeats_skipped (db : Store) issueID projectPrefix blockedBy :
  int64Rows db ->
  normalizeBlockedByTx issueID projectPrefix blockedBy db =
    normalizeBlockedByTx issueID projectPrefix (dropRepeats [] blockedBy) db /\
  (forall out tx,
     normalizeBlockedByTx issueID projectPrefix blockedBy db = inr (out, tx) ->
     out = firstSeen [] (List.map (fun raw => ToLower (TrimSpace raw)) blockedBy) /\
     NoDup out) /\
  ((exists raw, raw ∈ blockedBy /\ ToLower (TrimSpace raw) = issueID) ->
   issueID <> EmptyString ->
   (exists e, normalizeBlockedByTx issueID projectPrefix blockedBy db = inl e /\
              invalidOrNotFound e) /\
   (forall now id ev,
      TrimSpace id = issueID ->
      exists e, SetBlockedBy db now id blockedBy ev = (inl e, db)) /\
   (forall draw now pp c title body parentID k,
      TrimSpace (ToLower pp) = projectPrefix ->
      allocatedID projectPrefix (draw k) = issueID ->
      (k < maxCreateAttempts)%nat ->
      (forall j, (j < k)%nat ->
         attemptAt draw db now projectPrefix c (TrimSpace title) body parentID blockedBy j
         = Continue) ->
      exists e, CreateIssue draw db now pp c title body parentID blockedBy = (inl e, db))).
Proof.
  intros _. split; [|split].
  - unfold normalizeBlockedByTx. apply normalizeBlockedByLoop_dropRepeats.
    + intros x Hx. inversion Hx.
    + intros x. now rewrite lookup_empty.
  - intros out tx Hrun. unfold normalizeBlockedByTx in Hrun. split.
    + apply (normalizeBlockedByLoop_firstSeen _ _ _ ∅ [] []) in Hrun; [done|].
      intros x. rewrite lookup_empty. simpl. split; [discriminate|]. intros H. inversion H.
    + eapply normalizeBlockedByLoop_output; [exact Hrun| |apply NoDup_nil_2].
      intros x Hx. inversion Hx.
  - intros Hself Hne.
    assert (Hnorm : forall p (tx : Store),
              exists e, normalizeBlockedByTx issueID p blockedBy tx = inl e).
    { intros p tx. now apply normalizeBlockedByLoop_self. }
    split; [|split].
    + destruct (Hnorm projectPrefix db) as [e He]. exists e. split; [done|].
      eapply normalizeBlockedByLoop_errors, He.
    + intros now id ev Hid. unfold SetBlockedBy. rewrite Hid.
      rewrite bool_decide_eq_false_2 by done.
      unfold run_tx, SetBlockedByTx. unfold tx_bind at 1, getIssueByIDTx.
      destruct (db !! issueID) as [r|]; [|eauto].
      unfold tx_bind at 1. simpl ID.
      destruct (Hnorm (ProjectPrefix (scanIssue issueID r)) db) as [e He].
      rewrite He. eauto.
    + intros draw now pp c title body parentID k Hpp Hid Hk Hcont.
      subst projectPrefix.
      destruct (projectPrefixRe (TrimSpace (ToLower pp))) eqn:Hp;
        [|unfold CreateIssue; rewrite Hp; simpl; eauto].
      destruct (IsValidCategory c) eqn:Hc;
        [|unfold CreateIssue; rewrite Hp, Hc; simpl; eauto].
      destruct (decide (TrimSpace title = EmptyString)) as [Ht|Ht];
        [unfold CreateIssue; rewrite Hp, Hc, bool_decide_eq_true_2 by done; simpl; eauto|].
      rewrite CreateIssue_valid by done.
      assert (Hfail : exists e,
                attemptAt draw db now (TrimSpace (ToLower pp)) c (TrimSpace title) body
                  parentID blockedBy k = Return (inl e) db).
      { unfold attemptAt, createAttempt.
        fold (allocatedID (TrimSpace (ToLower pp)) (draw k)). rewrite Hid.
        destruct (createChecksTx _ _ _ _ _ _) as [e|[[cp nb] tx]] eqn:Hchk; [eauto|].
        apply createChecksTx_ok in Hchk as (_ & _ & Hn).
        destruct (Hnorm (TrimSpace (ToLower pp)) db) as [e He]. congruence. }
      destruct Hfail as [e He]. exists e.
      apply createLoop_Return with (k := 0%nat) (j := k); done.
Qed.

End Creation.

(** Instances, run with the string functions on ASCII text. *)
Section CreationExamples.
#[local] Existing Instance asciiStrings.

Lemma id_allocation_witness :
  CreateIssue (fun _ => 0) exampleStore 20 "cat" CategoryProject "Platform" EmptyString None []
  = (inl allocationFailed, exampleStore).
Proof.
  assert (Hvalid : validCreateInput "cat" CategoryProject "Platform").
  { repeat split. vm_compute. discriminate. }
  assert (Hdraw : forall k : nat, 0 <= (fun _ : nat => 0) k < 900000) by (intros; simpl; lia).
  destruct (id_allocation_bounded_retry (fun _ => 0) exampleStore 20 "cat" CategoryProject
              "Platform" EmptyString None [] exampleStore_int64Rows Hvalid Hdraw)
    as (_ & _ & _ & _ & Hall & _).
  apply Hall. intros k _. reflexivity.
Defined.

Lemma self_reference_witness :
  (exists e, normalizeBlockedByTx "cat-100004" "cat" ["cat-100002"; " CAT-100004 "] exampleStore
             = inl e /\ invalidOrNotFound e) /\
  (forall now id ev,
     TrimSpace id = "cat-100004" ->
     exists e, SetBlockedBy exampleStore now id ["cat-100002"; " CAT-100004 "] ev
               = (inl e, exampleStore)).
Proof.
  destruct (self_reference_rejected_repeats_skipped exampleStore "cat-100004" "cat"
              ["cat-100002"; " CAT-100004 "] exampleStore_int64Rows)
    as (_ & _ & Hself).
  destruct Hself as (Hn & Hs & _).
  - exists " CAT-100004 ". split; [|reflexivity]. rewrite !elem_of_cons. auto.
  - discriminate.
  - split; assumption.
Defined.

(** C7 as stated fails for repeated entries: a list naming [cat-100002]
    twice (the second time in another spelling) is accepted, by the
    normalization and by [SetBlockedBy], with the id kept once. *)
Lemma repeated_dependency_accepted :
  normalizeBlockedByTx "cat-100004" "cat" ["cat-100002"; " CAT-100002"] exampleStore
    = inr (["cat-100002"], exampleStore) /\
  exists updated db',
    SetBlockedBy exampleStore 20 "cat-100004" ["cat-100002"; "cat-100002"] None
      = (inr updated, db') /\
    BlockedBy updated = ["cat-100002"] /\ Version updated = 4.
Proof.
  split; [reflexivity|]. eexists _, _. repeat split.
Qed.

End CreationExamples.

(** ** What each operation does to the table *)

Section Hierarchy.
Context {str : Strings}.

Lemma setParentChecksTx_ok (db : Store) issue parentID np tx :
  setParentChecksTx issue parentID db = inr (np, tx) ->
  np = effectiveParent parentID /\
  parentRule db (ProjectPrefix issue) (Category_ issue) np.
Proof.
  unfold setParentChecksTx.
  destruct (expectedParentCategory (Category_ issue)) as [req needs] eqn:Hreq.
  destruct (hasParentID parentID) eqn:Hhas; destruct needs; simpl; try discriminate.
  - unfold tx_bind, getIssueByIDTx.
    destruct (db !! _) as [pr|] eqn:Hpr; [|discriminate].
    case_bool_decide as Hpp; simpl; [|discriminate].
    case_bool_decide as Hcat; simpl; [|discriminate].
    unfold tx_ret. intros [= <- <-]. rewrite (effectiveParent_Some _ Hhas).
    split; [done|]. apply (parentRule_required _ _ _ _ _ Hreq). eauto 10.
  - unfold tx_ret. intros [= <- <-]. rewrite (effectiveParent_None _ Hhas).
    split; [done|]. eapply parentRule_forbidden; eassumption.
Qed.

Lemma setParentChecksTx_rule (db : Store) issue parentID :
  ~ parentRule db (ProjectPrefix issue) (Category_ issue) (effectiveParent parentID) ->
  exists e,
    setParentChecksTx issue parentID db = inl e /\
    (Unwrap e = Some ErrInvalidInput \/
     Unwrap e = Some ErrNotFound /\
     exists pid, effectiveParent parentID = Some pid /\ db !! pid = None).
Proof.
  intros Hbad.
  destruct (setParentChecksTx issue parentID db) as [e|[np tx]] eqn:Hchk.
  2:{ apply setParentChecksTx_ok in Hchk as (-> & Hrule). contradiction. }
  exists e. split; [done|]. revert Hchk. unfold setParentChecksTx.
  destruct (expectedParentCategory (Category_ issue)) as [req needs] eqn:Hreq.
  destruct (hasParentID parentID) eqn:Hhas; destruct needs; simpl;
    try (intros [= <-]; auto).
  - unfold tx_bind, getIssueByIDTx.
    destruct (db !! _) as [pr|] eqn:Hpr.
    2:{ intros [= <-]. right. split; [done|]. rewrite (effectiveParent_Some _ Hhas). eauto. }
    case_bool_decide as Hpp; simpl; [|intros [= <-]; auto].
    case_bool_decide as Hcat; simpl; [|intros [= <-]; auto].
    exfalso. apply Hbad. rewrite (effectiveParent_Some _ Hhas).
    apply (parentRule_required _ _ _ _ _ Hreq). eauto 10.
Qed.

Lemma TransitionState_effect (db : Store) now id to ev res db' :
  TransitionState db now id to ev = (res, db') ->
  (db' = db /\ exists e, res = inl e) \/
  (exists r, db !! id = Some r /\
     db' = <[id := setState now to r]> db /\
     res = inr (scanIssue id (setState now to r))).
Proof.
  destruct (IsValidState to) eqn:Hto.
  2:{ unfold TransitionState. rewrite Hto. simpl. intros [= <- <-]. eauto. }
  destruct (db !! id) as [r|] eqn:Hr.
  - rewrite (TransitionState_existing _ _ _ _ _ _ Hr Hto).
    destruct (ValidateTransition _ _); [intros [= <- <-]; eauto|].
    destruct (if bool_decide _ then _ else _); [intros [= <- <-]; eauto|].
    destruct (_ && _); [intros [= <- <-]; eauto|].
    destruct (versionMatches r ev); intros [= <- <-]; eauto.
  - unfold TransitionState. rewrite Hto. simpl.
    unfold run_tx, TransitionStateTx. unfold tx_bind at 1.
    rewrite (getIssueByIDTx_None _ _ Hr). intros [= <- <-]. eauto.
Qed.

Lemma SetParent_effect (db : Store) now id parentID ev res db' :
  SetParent db now id parentID ev = (res, db') ->
  (db' = db /\ exists e, res = inl e) \/
  (exists r np, db !! TrimSpace id = Some r /\
     setParentChecksTx (scanIssue (TrimSpace id) r) parentID db = inr (np, db) /\
     db' = <[TrimSpace id := setParentID now np r]> db /\
     res = inr (scanIssue (TrimSpace id) (setParentID now np r))).
Proof.
  destruct (decide (TrimSpace id = EmptyString)) as [Hid|Hid].
  { unfold SetParent. rewrite bool_decide_eq_true_2 by done. intros [= <- <-]. eauto. }
  destruct (db !! TrimSpace id) as [r|] eqn:Hr.
  - rewrite (SetParent_existing _ _ _ _ _ _ Hr Hid).
    destruct (setParentChecksTx _ _ _) as [e|[np tx]] eqn:Hchk; [intros [= <- <-]; eauto|].
    apply setParentChecksTx_readonly in Hchk as Htx. subst tx.
    destruct (versionMatches r ev); intros [= <- <-]; eauto 10.
  - unfold SetParent. rewrite bool_decide_eq_false_2 by done.
    unfold run_tx, SetParentTx. unfold tx_bind at 1.
    rewrite (getIssueByIDTx_None _ _ Hr). intros [= <- <-]. eauto.
Qed.

Lemma SetBlockedBy_effect (db : Store) now id blockedBy ev res db' :
  SetBlockedBy db now id blockedBy ev = (res, db') ->
  (db' = db /\ exists e, res = inl e) \/
  (exists r nb, db !! TrimSpace id = Some r /\
     db' = <[TrimSpace id := setBlockedByCol now nb r]> db /\
     res = inr (scanIssue (TrimSpace id) (setBlockedByCol now nb r))).
Proof.
  destruct (decide (TrimSpace id = EmptyString)) as [Hid|Hid].
  { unfold SetBlockedBy. rewrite bool_decide_eq_true_2 by done. intros [= <- <-]. eauto. }
  destruct (db !! TrimSpace id) as [r|] eqn:Hr.
  - rewrite (SetBlockedBy_existing _ _ _ _ _ _ Hr Hid).
    destruct (normalizeBlockedByTx _ _ _ _) as [e|[nb tx]] eqn:Hchk; [intros [= <- <-]; eauto|].
    destruct (versionMatches r ev); intros [= <- <-]; eauto 10.
  - unfold SetBlockedBy. rewrite bool_decide_eq_false_2 by done.
    unfold run_tx, SetBlockedByTx. unfold tx_bind at 1.
    rewrite (getIssueByIDTx_None _ _ Hr). intros [= <- <-]. eauto.
Qed.

Lemma CreateIssue_effect draw (db : Store) now pp c title body parentID blockedBy res db' :
  CreateIssue draw db now pp c title body parentID blockedBy = (res, db') ->
  (db' = db /\ exists e, res = inl e) \/
  (exists k cp nb,
     let p := TrimSpace (ToLower pp) in
     let issueID := allocatedID p (draw k) in
     let row := insertedRow now c (TrimSpace title) body cp nb in
     validCreateInput pp c title /\
     createChecksTx p c issueID parentID blockedBy db = inr ((cp, nb), db) /\
     db !! issueID = None /\
     db' = <[issueID := row]> db /\
     res = inr (scanIssue issueID row)).
Proof.
  destruct (projectPrefixRe (TrimSpace (ToLower pp))) eqn:Hp;
    [|unfold CreateIssue; rewrite Hp; simpl; intros [= <- <-]; eauto].
  destruct (IsValidCategory c) eqn:Hc;
    [|unfold CreateIssue; rewrite Hp, Hc; simpl; intros [= <- <-]; eauto].
  destruct (decide (TrimSpace title = EmptyString)) as [Ht|Ht];
    [unfold CreateIssue; rewrite Hp, Hc, bool_decide_eq_true_2 by done; simpl;
     intros [= <- <-]; eauto|].
  assert (Hvalid : validCreateInput pp c title) by done.
  rewrite (CreateIssue_valid _ _ _ _ _ _ _ _ _ Hvalid).
  destruct (createLoop_cases draw db now (TrimSpace (ToLower pp)) c (TrimSpace title) body
              parentID blockedBy maxCreateAttempts 0)
    as [(j & r & dbr & _ & _ & Hret & ->)|[_ ->]].
  - intros [= <- <-]. simpl in Hret. unfold attemptAt in Hret.
    apply createAttempt_Return in Hret as [[-> [e [-> _]]]|(cp & nb & Hchk & Hfree & -> & ->)].
    + eauto.
    + right. exists j, cp, nb. repeat split; try done.
  - intros [= <- <-]. eauto.
Qed.

(** ** The hierarchy invariant *)

Lemma hierarchyInv_update (db : Store) id r r' :
  hierarchyInv db ->
  db !! id = Some r ->
  category r' = category r ->
  parentRule db (ProjectPrefix (scanIssue id r')) (category r') (parent_id r') ->
  hierarchyInv (<[id := r']> db).
Proof.
  intros Hinv Hr Hcat Hrule.
  assert (Hext : forall pid pr, db !! pid = Some pr ->
            exists pr', <[id := r']> db !! pid = Some pr' /\ category pr' = category pr).
  { intros pid pr Hpr. destruct (decide (id = pid)) as [<-|Hne].
    - exists r'. rewrite lookup_insert_eq. split; [done|congruence].
    - exists pr. now rewrite lookup_insert_ne. }
  intros id2 r2. destruct (decide (id = id2)) as [<-|Hne].
  - rewrite lookup_insert_eq. intros [= <-]. now apply (parentRule_mono db).
  - rewrite lookup_insert_ne by done. intros Hr2.
    apply (parentRule_mono db); [done|]. now apply Hinv.
Qed.

Lemma hierarchyInv_insert (db : Store) id r' :
  hierarchyInv db ->
  db !! id = None ->
  parentRule db (ProjectPrefix (scanIssue id r')) (category r') (parent_id r') ->
  hierarchyInv (<[id := r']> db).
Proof.
  intros Hinv Hr Hrule.
  assert (Hext : forall pid pr, db !! pid = Some pr ->
            exists pr', <[id := r']> db !! pid = Some pr' /\ category pr' = category pr).
  { intros pid pr Hpr. exists pr. rewrite lookup_insert_ne by congruence. done. }
  intros id2 r2. destruct (decide (id = id2)) as [<-|Hne].
  - rewrite lookup_insert_eq. intros [= <-]. now apply (parentRule_mono db).
  - rewrite lookup_insert_ne by done. intros Hr2.
    apply (parentRule_mono db); [done|]. now apply Hinv.
Qed.

Lemma ProjectPrefix_allocated p n r :
  projectPrefixRe p = true -> ProjectPrefix (scanIssue (allocatedID p n) r) = p.
Proof.
  intros Hp. unfold allocatedID. rewrite Sprintf_issueID. simpl.
  now rewrite (projectPrefixFromIssueID_fresh _ _ Hp).
Qed.

Lemma hierarchyInv_empty : hierarchyInv ∅.
Proof. intros id r. now rewrite lookup_empty. Qed.

Lemma hierarchyInv_TransitionState (db : Store) now id to ev :
  hierarchyInv db -> hierarchyInv (snd (TransitionState db now id to ev)).
Proof.
  intros Hinv. destruct (TransitionState db now id to ev) as [res db'] eqn:Hop.
  apply TransitionState_effect in Hop as [[-> _]|(r & Hr & -> & _)]; [exact Hinv|].
  simpl. apply (hierarchyInv_update _ _ r); [exact Hinv|exact Hr|reflexivity|].
  exact (Hinv _ _ Hr).
Qed.

Lemma hierarchyInv_SetBlockedBy (db : Store) now id blockedBy ev :
  hierarchyInv db -> hierarchyInv (snd (SetBlockedBy db now id blockedBy ev)).
Proof.
  intros Hinv. destruct (SetBlockedBy db now id blockedBy ev) as [res db'] eqn:Hop.
  apply SetBlockedBy_effect in Hop as [[-> _]|(r & nb & Hr & -> & _)]; [exact Hinv|].
  simpl. apply (hierarchyInv_update _ _ r); [exact Hinv|exact Hr|reflexivity|].
  exact (Hinv _ _ Hr).
Qed.

Lemma validCreateInput_dec projectPrefix c title :
  validCreateInput projectPrefix c title \/ ~ validCreateInput projectPrefix c title.
Proof.
  unfold validCreateInput.
  destruct (projectPrefixRe _); [|right; intros (? & _); discriminate].
  destruct (IsValidCategory c); [|right; intros (_ & ? & _); discriminate].
  destruct (decide (TrimSpace title = EmptyString)); [right; tauto|left; tauto].
Qed.

Lemma hierarchyInv_CreateIssue draw (db : Store) now pp c title body parentID blockedBy :
  hierarchyInv db ->
  hierarchyInv (snd (CreateIssue draw db now pp c title body parentID blockedBy)).
Proof.
  intros Hinv.
  destruct (CreateIssue _ _ _ _ _ _ _ _ _) as [res db'] eqn:Hop.
  apply CreateIssue_effect in Hop
    as [[-> _]|(k & cp & nb & (Hp & _ & _) & Hchk & Hfree & -> & _)]; [exact Hinv|].
  simpl. apply hierarchyInv_insert; [exact Hinv|exact Hfree|].
  rewrite (ProjectPrefix_allocated _ _ _ Hp). simpl.
  now apply createChecksTx_ok in Hchk as (_ & Hrule & _).
Qed.

Lemma hierarchyInv_SetParent (db : Store) now id parentID ev :
  hierarchyInv db -> hierarchyInv (snd (SetParent db now id parentID ev)).
Proof.
  intros Hinv.
  destruct (SetParent _ _ _ _ _) as [res db'] eqn:Hop.
  apply SetParent_effect in Hop as [[-> _]|(r & np & Hr & Hchk & -> & _)]; [exact Hinv|].
  simpl. apply (hierarchyInv_update _ _ r); [exact Hinv|exact Hr|reflexivity|].
  now apply setParentChecksTx_ok in Hchk as (_ & Hrule).
Qed.

(** C5. The hierarchy invariant (a project has no parent; a workstream has
    an existing project parent in its project; a task has an existing
    workstream parent in its project) holds of every row of every table the
    service can produce: it holds again after [CreateIssue] and after
    [SetParent] (and the other two mutations do not touch it), and an input
    that breaks the rule is refused with invalid-input, or with not-found
    when the parent it names has no row, leaving the table as it was.  (The
    refusals are stated for a table of int64 versions.) *)
Theorem hierarchy_invariant_preserved (db : Store) :
  (reachable db -> hierarchyInv db) /\
  (hierarchyInv db ->
   (forall draw now pp c title body parentID blockedBy,
      let out := CreateIssue draw db now pp c title body parentID blockedBy in
      hierarchyInv (snd out) /\
      (int64Rows db ->
       ~ parentRule db (TrimSpace (ToLower pp)) c (effectiveParent parentID) ->
       snd out = db /\
       exists e, fst out = inl e /\
         (Unwrap e = Some ErrInvalidInput \/
          Unwrap e = Some ErrNotFound /\
          exists pid, effectiveParent parentID = Some pid /\ db !! pid = None))) /\
   (forall now id parentID ev,
      let out := SetParent db now id parentID ev in
      hierarchyInv (snd out) /\
      (forall r,
         int64Rows db ->
         db !! TrimSpace id = Some r ->
         ~ parentRule db (ProjectPrefix (scanIssue (TrimSpace id) r)) (category r)
             (effectiveParent parentID) ->
         snd out = db /\
         exists e, fst out = inl e /\
           (Unwrap e = Some ErrInvalidInput \/
            Unwrap e = Some ErrNotFound /\
            exists pid, effectiveParent parentID = Some pid /\ db !! pid = None))) /\
   (forall now id to ev, hierarchyInv (snd (TransitionState db now id to ev))) /\
   (forall now id blockedBy ev, hierarchyInv (snd (SetBlockedBy db now id blockedBy ev)))).
Proof.
  split.
  { induction 1 as [|? ? ? ? ? ? ? ? ? _ IH|? ? ? ? ? _ IH|? ? ? ? ? _ IH|? ? ? ? ? _ IH].
    - apply hierarchyInv_empty.
    - now apply hierarchyInv_CreateIssue.
    - now apply hierarchyInv_TransitionState.
    - now apply hierarchyInv_SetParent.
    - now apply hierarchyInv_SetBlockedBy. }
  intros Hinv. split; [|split; [|split]].
  - intros draw now pp c title body parentID blockedBy out. subst out. split.
    + now apply hierarchyInv_CreateIssue.
    + intros _ Hbad.
      destruct (validCreateInput_dec pp c title) as [Hvalid|Hinvalid].
      * rewrite (CreateIssue_valid _ _ _ _ _ _ _ _ _ Hvalid).
        destruct (createChecksTx_rule db (TrimSpace (ToLower pp)) c
                    (allocatedID (TrimSpace (ToLower pp)) (draw 0%nat)) parentID blockedBy
                    Hbad) as (e & Hchk & Hkind).
        unfold maxCreateAttempts. simpl createLoop. unfold createAttempt.
        unfold allocatedID in Hchk. rewrite Hchk. simpl. eauto.
      * destruct (CreateIssue_invalid draw db now pp c title body parentID blockedBy Hinvalid)
          as (e & -> & He). simpl. eauto.
  - intros now id parentID ev out. subst out. split.
    + now apply hierarchyInv_SetParent.
    + intros r _ Hr Hbad.
      destruct (decide (TrimSpace id = EmptyString)) as [Hid|Hid].
      * unfold SetParent. rewrite bool_decide_eq_true_2 by done. simpl. eauto.
      * rewrite (SetParent_existing _ _ _ _ _ _ Hr Hid).
        destruct (setParentChecksTx_rule db (scanIssue (TrimSpace id) r) parentID Hbad)
          as (e & -> & Hkind). simpl. eauto.
  - intros. now apply hierarchyInv_TransitionState.
  - intros. now apply hierarchyInv_SetBlockedBy.
Qed.

(** ** closed_at *)

Lemma closedInv_update (db : Store) id r' :
  closedInv db ->
  (is_Some (closed_at r') <-> state r' = StateDone \/ state r' = StateCanceled) ->
  closedInv (<[id := r']> db).
Proof.
  intros Hinv Hr id2 r2. destruct (decide (id = id2)) as [<-|Hne].
  - rewrite lookup_insert_eq. now intros [= <-].
  - rewrite lookup_insert_ne by done. apply Hinv.
Qed.

Lemma closed_at_setState now to r :
  is_Some (closed_at (setState now to r)) <->
  state (setState now to r) = StateDone \/ state (setState now to r) = StateCanceled.
Proof.
  simpl. case_bool_decide as Hd; [simpl; split; eauto|].
  case_bool_decide as Hc; simpl; [split; eauto|].
  split; [intros [? [=]]|tauto].
Qed.

Lemma closedInv_empty : closedInv ∅.
Proof. intros id r. now rewrite lookup_empty. Qed.

Lemma closedInv_CreateIssue draw (db : Store) now pp c title body parentID blockedBy :
  closedInv db ->
  closedInv (snd (CreateIssue draw db now pp c title body parentID blockedBy)).
Proof.
  intros Hinv.
  destruct (CreateIssue _ _ _ _ _ _ _ _ _) as [res db'] eqn:Hop.
  apply CreateIssue_effect in Hop
    as [[-> _]|(k & cp & nb & _ & _ & _ & -> & _)]; [exact Hinv|].
  simpl. apply closedInv_update; [exact Hinv|]. simpl.
  split; [intros [? [=]]|intros [[=]|[=]]].
Qed.

Lemma closedInv_TransitionState (db : Store) now id to ev :
  closedInv db -> closedInv (snd (TransitionState db now id to ev)).
Proof.
  intros Hinv.
  destruct (TransitionState _ _ _ _ _) as [res db'] eqn:Hop.
  apply TransitionState_effect in Hop as [[-> _]|(r & Hr & -> & _)]; [exact Hinv|].
  simpl. apply closedInv_update; [exact Hinv|apply closed_at_setState].
Qed.

Lemma closedInv_SetParent (db : Store) now id parentID ev :
  closedInv db -> closedInv (snd (SetParent db now id parentID ev)).
Proof.
  intros Hinv.
  destruct (SetParent _ _ _ _ _) as [res db'] eqn:Hop.
  apply SetParent_effect in Hop as [[-> _]|(r & np & Hr & _ & -> & _)]; [exact Hinv|].
  simpl. apply closedInv_update; [exact Hinv|exact (Hinv _ _ Hr)].
Qed.

Lemma closedInv_SetBlockedBy (db : Store) now id blockedBy ev :
  closedInv db -> closedInv (snd (SetBlockedBy db now id blockedBy ev)).
Proof.
  intros Hinv.
  destruct (SetBlockedBy _ _ _ _ _) as [res db'] eqn:Hop.
  apply SetBlockedBy_effect in Hop as [[-> _]|(r & nb & Hr & -> & _)]; [exact Hinv|].
  simpl. apply closedInv_update; [exact Hinv|exact (Hinv _ _ Hr)].
Qed.

(** C6. closed_at is non-null exactly in the states done and canceled, for
    every row of every table the service can produce: a created issue is in
    todo with null closed_at; a transition stores the current time when the
    target is done or canceled and null for any other target; [SetParent]
    and [SetBlockedBy] leave the state and closed_at of every row as they
    were. *)
Theorem closed_at_iff_done_or_canceled (db : Store) :
  (reachable db -> closedInv db) /\
  (closedInv db ->
   (forall draw now pp c title body parentID blockedBy,
      let out := CreateIssue draw db now pp c title body parentID blockedBy in
      closedInv (snd out) /\
      (forall issue, fst out = inr issue ->
         State_ issue = StateTodo /\ ClosedAt issue = None /\
         exists r, snd out !! ID issue = Some r /\ db !! ID issue = None /\
                   state r = StateTodo /\ closed_at r = None)) /\
   (forall now id to ev,
      let out := TransitionState db now id to ev in
      closedInv (snd out) /\
      (forall issue, fst out = inr issue ->
         exists r, snd out !! id = Some r /\
           state r = to /\ State_ issue = to /\ ClosedAt issue = closed_at r /\
           closed_at r = (if bool_decide (to = StateDone) || bool_decide (to = StateCanceled)
                          then Some now else None))) /\
   (forall now id parentID ev,
      let out := SetParent db now id parentID ev in
      closedInv (snd out) /\
      (forall k, state <$> (snd out !! k) = state <$> (db !! k) /\
                 closed_at <$> (snd out !! k) = closed_at <$> (db !! k))) /\
   (forall now id blockedBy ev,
      let out := SetBlockedBy db now id blockedBy ev in
      closedInv (snd out) /\
      (forall k, state <$> (snd out !! k) = state <$> (db !! k) /\
                 closed_at <$> (snd out !! k) = closed_at <$> (db !! k)))).
Proof.
  split.
  { induction 1 as [|? ? ? ? ? ? ? ? ? _ IH|? ? ? ? ? _ IH|? ? ? ? ? _ IH|? ? ? ? ? _ IH].
    - apply closedInv_empty.
    - now apply closedInv_CreateIssue.
    - now apply closedInv_TransitionState.
    - now apply closedInv_SetParent.
    - now apply closedInv_SetBlockedBy. }
  intros Hinv. split; [|split; [|split]].
  - intros draw now pp c title body parentID blockedBy out. subst out.
    split; [now apply closedInv_CreateIssue|].
    destruct (CreateIssue _ _ _ _ _ _ _ _ _) as [res db'] eqn:Hop.
    apply CreateIssue_effect in Hop
      as [[-> [e ->]]|(k & cp & nb & _ & _ & Hfree & -> & ->)]; simpl.
    + intros issue [=].
    + intros issue [= <-]. simpl. repeat split.
      eexists. rewrite lookup_insert_eq. repeat split. exact Hfree.
  - intros now id to ev out. subst out.
    split; [now apply closedInv_TransitionState|].
    destruct (TransitionState _ _ _ _ _) as [res db'] eqn:Hop.
    apply TransitionState_effect in Hop as [[-> [e ->]]|(r & Hr & -> & ->)]; simpl.
    + intros issue [=].
    + intros issue [= <-]. eexists. rewrite lookup_insert_eq. repeat split.
  - intros now id parentID ev out. subst out.
    split; [now apply closedInv_SetParent|].
    destruct (SetParent _ _ _ _ _) as [res db'] eqn:Hop.
    apply SetParent_effect in Hop as [[-> _]|(r & np & Hr & _ & -> & _)]; simpl.
    + intros k. split; reflexivity.
    + intros k. destruct (decide (TrimSpace id = k)) as [<-|Hne].
      * rewrite lookup_insert_eq, Hr. split; reflexivity.
      * rewrite lookup_insert_ne by done. split; reflexivity.
  - intros now id blockedBy ev out. subst out.
    split; [now apply closedInv_SetBlockedBy|].
    destruct (SetBlockedBy _ _ _ _ _) as [res db'] eqn:Hop.
    apply SetBlockedBy_effect in Hop as [[-> _]|(r & nb & Hr & -> & _)]; simpl.
    + intros k. split; reflexivity.
    + intros k. destruct (decide (TrimSpace id = k)) as [<-|Hne].
      * rewrite lookup_insert_eq, Hr. split; reflexivity.
      * rewrite lookup_insert_ne by done. split; reflexivity.
Qed.

End Hierarchy.

(** Instances, run with the string functions on ASCII text. *)
Section HierarchyExamples.
#[local] Existing Instance asciiStrings.

Lemma exampleStore_reachable : reachable exampleStore.
Proof.
  replace exampleStore with exampleHistory by (vm_compute; reflexivity).
  cbv beta zeta delta [exampleHistory].
  repeat lazymatch goal with
         | |- reachable (snd (SetBlockedBy _ _ _ _ _)) => refine (reach_blocked _ _ _ _ _ _)
         | |- reachable (snd (TransitionState _ _ _ _ _)) =>
             refine (reach_transition _ _ _ _ _ _)
         | |- reachable (snd (CreateIssue _ _ _ _ _ _ _ _ _)) =>
             refine (reach_create _ _ _ _ _ _ _ _ _ _)
         end.
  exact reach_empty.
Qed.

Lemma hierarchy_invariant_witness :
  hierarchyInv exampleStore /\
  hierarchyInv (snd (CreateIssue (fun k => Z.of_nat k) exampleStore 20 "cat" CategoryTask
                       "Search" EmptyString (Some "cat-100001") ["cat-100002"])) /\
  snd (SetParent exampleStore 20 "cat-100002" (Some "cat-100000") None) = exampleStore /\
  exists e, fst (SetParent exampleStore 20 "cat-100002" (Some "cat-100000") None) = inl e /\
    (Unwrap e = Some ErrInvalidInput \/
     Unwrap e = Some ErrNotFound /\
     exists pid, effectiveParent (Some "cat-100000") = Some pid /\ exampleStore !! pid = None).
Proof.
  destruct (hierarchy_invariant_preserved exampleStore) as [Hreach Hpres].
  pose proof (Hreach exampleStore_reachable) as Hinv.
  destruct (Hpres Hinv) as (Hcreate & Hparent & _ & _).
  split; [exact Hinv|]. split.
  - apply Hcreate.
  - apply (Hparent 20 "cat-100002" (Some "cat-100000") None) with (r := exampleTodoTask);
      [exact exampleStore_int64Rows|reflexivity|].
    intros (_ & _ & Htask).
    destruct (Htask eq_refl) as (pid & pr & Hpid & Hpr & Hcat & _).
    vm_compute in Hpid. injection Hpid as <-.
    vm_compute in Hpr. injection Hpr as <-. discriminate Hcat.
Defined.

Lemma closed_at_witness :
  closedInv exampleStore /\
  closedInv (snd (TransitionState exampleStore 20 "cat-100004" "canceled" None)) /\
  exists r, snd (TransitionState exampleStore 20 "cat-100003" "todo" None) !! "cat-100003"
            = Some r /\ state r = "todo" /\ closed_at r = None.
Proof.
  destruct (closed_at_iff_done_or_canceled exampleStore) as [Hreach Hpres].
  pose proof (Hreach exampleStore_reachable) as Hinv.
  destruct (Hpres Hinv) as (_ & Hts & _ & _).
  split; [exact Hinv|]. split.
  - apply Hts.
  - destruct (Hts 20 "cat-100003" "todo" None) as [_ Hrow].
    destruct (Hrow (scanIssue "cat-100003" (setState 20 "todo" exampleDoneTask)) eq_refl)
      as (r & Hr & Hs & _ & _ & Hc).
    exists r. repeat split; assumption.
Defined.

End HierarchyExamples.

(** * Further properties of the service *)

(** ** Trimming *)

Section ServiceFacts.
Context {str : Strings}.

Lemma TrimLeft_startsClean s : startsClean (ASCII.TrimLeft s).
Proof.
  induction s as [|c s IH]; simpl; [done|].
  destruct (isSpace c) eqn:Hc; [exact IH|exact Hc].
Qed.

Lemma TrimLeft_clean s : startsClean s -> ASCII.TrimLeft s = s.
Proof. destruct s as [|c s]; simpl; [done|]. now intros ->. Qed.

Lemma TrimRight_startsClean s : startsClean s -> startsClean (ASCII.TrimRight s).
Proof.
  destruct s as [|c s]; simpl; [done|]. intros Hc.
  destruct (ASCII.TrimRight s); [now rewrite Hc|exact Hc].
Qed.

Lemma TrimRight_cons c u d t :
  ASCII.TrimRight u = String d t -> ASCII.TrimRight (String c u) = String c (String d t).
Proof. simpl. now intros ->. Qed.

Lemma TrimRight_idem s : ASCII.TrimRight (ASCII.TrimRight s) = ASCII.TrimRight s.
Proof.
  induction s as [|c s IH]; [done|].
  change (ASCII.TrimRight (String c s))
    with (match ASCII.TrimRight s with
          | EmptyString => if isSpace c then EmptyString else String c EmptyString
          | String d t => String c (String d t)
          end).
  destruct (ASCII.TrimRight s) as [|d t] eqn:Ht.
  - destruct (isSpace c) eqn:Hc; simpl; [done|]. now rewrite Hc.
  - now apply TrimRight_cons.
Qed.

Lemma asciiTrimSpace_idem s : ASCII.TrimSpace (ASCII.TrimSpace s) = ASCII.TrimSpace s.
Proof.
  unfold ASCII.TrimSpace.
  rewrite (TrimLeft_clean (ASCII.TrimRight (ASCII.TrimLeft s))).
  - apply TrimRight_idem.
  - apply TrimRight_startsClean, TrimLeft_startsClean.
Qed.

(** ** Decimal rendering *)

Lemma string_of_uint_digits d : all_bytes isDigit (NilEmpty.string_of_uint d) = true.
Proof. induction d; simpl; auto. Qed.

Lemma FormatInt_digits n :
  0 <= n ->
  exists c rest, FormatInt n = String c rest /\ isDigit c = true /\
                 all_bytes isDigit rest = true.
Proof.
  intros Hn. unfold FormatInt, NilZero.string_of_int.
  destruct n as [|p|p]; [| |lia]; simpl.
  - exists "0"%char, EmptyString. auto.
  - unfold NilZero.string_of_uint.
    pose proof (string_of_uint_digits (Pos.to_uint p)) as Hd.
    destruct (Pos.to_uint p) eqn:Hp; simpl in Hd |- *;
      eexists _, _; (split; [reflexivity|split; [reflexivity|exact Hd]]).
Qed.

Lemma issueIDRe_allocated p n :
  projectPrefixRe p = true -> 0 <= n ->
  issueIDRe (p ++ String "-"%char (FormatInt n)) = true.
Proof.
  intros Hp Hn. destruct (FormatInt_digits n Hn) as (c & rest & -> & Hc & Hrest).
  destruct p as [|a [|b [|d [|]]]]; try discriminate.
  simpl in Hp |- *. rewrite Hp, Hc, Hrest. reflexivity.
Qed.

Lemma allocatedForm_plain id : allocatedForm id -> all_bytes plain id = true.
Proof.
  intros (p & n & Hp & ->). rewrite all_bytes_app. simpl.
  rewrite FormatInt_plain, andb_true_r.
  destruct p as [|a [|b [|c [|]]]]; try discriminate.
  simpl in Hp |- *. repeat (apply andb_prop in Hp as [Hp ?]).
  now rewrite !lowerAlnum_plain.
Qed.

Lemma allocatedForm_trimmed id : allocatedForm id -> TrimSpace id = id.
Proof. intros H. now apply TrimSpace_plain, allocatedForm_plain. Qed.

Lemma allocatedForm_allocatedID p n :
  projectPrefixRe p = true -> allocatedForm (allocatedID p n).
Proof.
  intros Hp. unfold allocatedID. rewrite Sprintf_issueID. exists p, (randomIssueNumber n). auto.
Qed.

(** ** When the updates succeed *)

Lemma TransitionState_success (db : Store) now id to ev u db' :
  TransitionState db now id to ev = (inr u, db') ->
  IsValidState to = true /\
  exists r, db !! id = Some r /\
    ValidateTransition (state r) to = None /\
    (to = StateInProgress -> depsDone db (blocked_by r)) /\
    versionMatches r ev = true /\
    db' = <[id := setState now to r]> db /\
    u = scanIssue id (setState now to r).
Proof.
  destruct (IsValidState to) eqn:Hto.
  2:{ unfold TransitionState. rewrite Hto. discriminate. }
  intros Hop. split; [reflexivity|]. revert Hop.
  destruct (db !! id) as [r|] eqn:Hr.
  2:{ unfold TransitionState. rewrite Hto. simpl.
      unfold run_tx, TransitionStateTx. unfold tx_bind at 1.
      rewrite (getIssueByIDTx_None _ _ Hr). discriminate. }
  rewrite (TransitionState_existing _ _ _ _ _ _ Hr Hto).
  intros Hop. exists r. split; [reflexivity|]. revert Hop.
  destruct (ValidateTransition _ _); [discriminate|].
  case_bool_decide as Hip; simpl.
  - destruct (firstMissing db (blocked_by r)) eqn:Hfm; [discriminate|].
    destruct (0 <? length (notDone db (blocked_by r)))%nat eqn:Hlen; [discriminate|].
    destruct (versionMatches r ev); [|discriminate].
    intros [= <- <-]. repeat split. intros _.
    rewrite firstMissing_None in Hfm. apply (notDone_nil _ _ Hfm).
    apply Nat.ltb_ge in Hlen. destruct (notDone db (blocked_by r)); [done|simpl in Hlen; lia].
  - destruct (versionMatches r ev); [|discriminate].
    intros [= <- <-]. repeat split. done.
Qed.

Lemma SetParent_success (db : Store) now id parentID ev u db' :
  SetParent db now id parentID ev = (inr u, db') ->
  TrimSpace id <> EmptyString /\
  exists r, db !! TrimSpace id = Some r /\
    parentRule db (ProjectPrefix (scanIssue (TrimSpace id) r)) (category r)
      (effectiveParent parentID) /\
    versionMatches r ev = true /\
    db' = <[TrimSpace id := setParentID now (effectiveParent parentID) r]> db /\
    u = scanIssue (TrimSpace id) (setParentID now (effectiveParent parentID) r).
Proof.
  destruct (decide (TrimSpace id = EmptyString)) as [Hid|Hid].
  { unfold SetParent. rewrite bool_decide_eq_true_2 by done. discriminate. }
  intros Hop. split; [done|]. revert Hop.
  destruct (db !! TrimSpace id) as [r|] eqn:Hr.
  2:{ unfold SetParent. rewrite bool_decide_eq_false_2 by done.
      unfold run_tx, SetParentTx. unfold tx_bind at 1.
      rewrite (getIssueByIDTx_None _ _ Hr). discriminate. }
  rewrite (SetParent_existing _ _ _ _ _ _ Hr Hid).
  intros Hop. exists r. split; [reflexivity|]. revert Hop.
  destruct (setParentChecksTx _ _ _) as [e|[np tx]] eqn:Hchk; [discriminate|].
  apply setParentChecksTx_ok in Hchk as (-> & Hrule).
  destruct (versionMatches r ev); [|discriminate].
  intros [= <- <-]. auto.
Qed.

Lemma SetBlockedBy_success (db : Store) now id blockedBy ev u db' :
  SetBlockedBy db now id blockedBy ev = (inr u, db') ->
  TrimSpace id <> EmptyString /\
  exists r nb, db !! TrimSpace id = Some r /\
    normalizeBlockedByTx (TrimSpace id) (ProjectPrefix (scanIssue (TrimSpace id) r))
      blockedBy db = inr (nb, db) /\
    versionMatches r ev = true /\
    db' = <[TrimSpace id := setBlockedByCol now nb r]> db /\
    u = scanIssue (TrimSpace id) (setBlockedByCol now nb r).
Proof.
  destruct (decide (TrimSpace id = EmptyString)) as [Hid|Hid].
  { unfold SetBlockedBy. rewrite bool_decide_eq_true_2 by done. discriminate. }
  intros Hop. split; [done|]. revert Hop.
  destruct (db !! TrimSpace id) as [r|] eqn:Hr.
  2:{ unfold SetBlockedBy. rewrite bool_decide_eq_false_2 by done.
      unfold run_tx, SetBlockedByTx. unfold tx_bind at 1.
      rewrite (getIssueByIDTx_None _ _ Hr). discriminate. }
  rewrite (SetBlockedBy_existing _ _ _ _ _ _ Hr Hid).
  destruct (normalizeBlockedByTx _ _ _ _) as [e|[nb tx]] eqn:Hchk; [discriminate|].
  pose proof (normalizeBlockedByLoop_readonly _ _ _ _ _ _ _ _ Hchk) as Htx. subst tx.
  destruct (versionMatches r ev) eqn:Hv; [|discriminate].
  intros [= <- <-]. exists r, nb. auto 10.
Qed.

Lemma CreateIssue_success draw (db : Store) now pp c title body parentID blockedBy u db' :
  CreateIssue draw db now pp c title body parentID blockedBy = (inr u, db') ->
  validCreateInput pp c title /\
  exists k nb,
    let p := TrimSpace (ToLower pp) in
    let issueID := allocatedID p (draw k) in
    let row := insertedRow now c (TrimSpace title) body (effectiveParent parentID) nb in
    db !! issueID = None /\
    parentRule db p c (effectiveParent parentID) /\
    normalizeBlockedByTx issueID p blockedBy db = inr (nb, db) /\
    db' = <[issueID := row]> db /\
    u = scanIssue issueID row.
Proof.
  intros Hop.
  apply CreateIssue_effect in Hop
    as [[_ [e [=]]]|(k & cp & nb & Hvalid & Hchk & Hfree & -> & [= ->])].
  split; [exact Hvalid|].
  apply createChecksTx_ok in Hchk as (-> & Hrule & Hnorm).
  exists k, nb. simpl. auto 10.
Qed.

(** ** Rows stay well formed *)

Lemma rowsInv_CreateIssue draw (db : Store) now pp c title body parentID blockedBy :
  rowsInv db -> rowsInv (snd (CreateIssue draw db now pp c title body parentID blockedBy)).
Proof.
  intros Hinv.
  destruct (CreateIssue _ _ _ _ _ _ _ _ _) as [[e|u] db'] eqn:Hop.
  { apply CreateIssue_effect in Hop as [[-> _]|(? & ? & ? & _ & _ & _ & _ & [=])].
    exact Hinv. }
  apply CreateIssue_success in Hop
    as ((Hp & Hc & Ht) & k & nb & Hfree & _ & _ & -> & _).
  simpl. intros id r. destruct (decide (allocatedID (TrimSpace (ToLower pp)) (draw k) = id))
    as [<-|Hne].
  - rewrite lookup_insert_eq. intros [= <-]. simpl.
    split; [now apply allocatedForm_allocatedID|].
    repeat split; [exact Hc|exact Ht|now eexists|lia].
  - rewrite lookup_insert_ne by done. apply Hinv.
Qed.

Lemma rowsInv_update (db : Store) id r r' :
  rowsInv db -> db !! id = Some r ->
  category r' = category r -> title r' = title r ->
  IsValidState (state r') = true -> version r <= version r' ->
  rowsInv (<[id := r']> db).
Proof.
  intros Hinv Hr Hc Ht Hs Hv id2 r2. destruct (decide (id = id2)) as [<-|Hne].
  - rewrite lookup_insert_eq. intros [= <-].
    destruct (Hinv _ _ Hr) as (? & ? & ? & ? & ? & ?).
    rewrite Hc, Ht. repeat split; try done. lia.
  - rewrite lookup_insert_ne by done. apply Hinv.
Qed.

Lemma rowsInv_TransitionState (db : Store) now id to ev :
  rowsInv db -> rowsInv (snd (TransitionState db now id to ev)).
Proof.
  intros Hinv.
  destruct (TransitionState _ _ _ _ _) as [[e|u] db'] eqn:Hop.
  { apply TransitionState_effect in Hop as [[-> _]|(? & _ & _ & [=])]. exact Hinv. }
  apply TransitionState_success in Hop as (Hto & r & Hr & _ & _ & _ & -> & _).
  simpl. apply (rowsInv_update _ _ r); simpl; try done. lia.
Qed.

Lemma rowsInv_SetParent (db : Store) now id parentID ev :
  rowsInv db -> rowsInv (snd (SetParent db now id parentID ev)).
Proof.
  intros Hinv.
  destruct (SetParent _ _ _ _ _) as [[e|u] db'] eqn:Hop.
  { apply SetParent_effect in Hop as [[-> _]|(? & ? & _ & _ & _ & [=])]. exact Hinv. }
  apply SetParent_success in Hop as (_ & r & Hr & _ & _ & -> & _).
  simpl. apply (rowsInv_update _ _ r); simpl; try done; [|lia].
  now destruct (Hinv _ _ Hr) as (_ & _ & ? & _).
Qed.

Lemma rowsInv_SetBlockedBy (db : Store) now id blockedBy ev :
  rowsInv db -> rowsInv (snd (SetBlockedBy db now id blockedBy ev)).
Proof.
  intros Hinv.
  destruct (SetBlockedBy _ _ _ _ _) as [[e|u] db'] eqn:Hop.
  { apply SetBlockedBy_effect in Hop as [[-> _]|(? & ? & _ & _ & [=])]. exact Hinv. }
  apply SetBlockedBy_success in Hop as (_ & r & nb & Hr & _ & _ & -> & _).
  simpl. apply (rowsInv_update _ _ r); simpl; try done; [|lia].
  now destruct (Hinv _ _ Hr) as (_ & _ & ? & _).
Qed.

Lemma reachable_rowsInv (db : Store) : reachable db -> rowsInv db.
Proof.
  induction 1 as [|? ? ? ? ? ? ? ? ? _ IH|? ? ? ? ? _ IH|? ? ? ? ? _ IH|? ? ? ? ? _ IH].
  - intros id r. now rewrite lookup_empty.
  - now apply rowsInv_CreateIssue.
  - now apply rowsInv_TransitionState.
  - now apply rowsInv_SetParent.
  - now apply rowsInv_SetBlockedBy.
Qed.

(** ** Dependencies stay resolvable *)

Lemma depsInv_update (db : Store) id r r' :
  depsInv db -> db !! id = Some r ->
  (blocked_by r' = blocked_by r \/
   (NoDup (blocked_by r') /\
    forall d, d ∈ blocked_by r' ->
      accepted db id (ProjectPrefix (scanIssue id r)) d)) ->
  depsInv (<[id := r']> db).
Proof.
  intros Hinv Hr Hdeps.
  assert (Hkeep : forall d rd, db !! d = Some rd ->
            exists rd', <[id := r']> db !! d = Some rd' /\
              ProjectPrefix (scanIssue d rd') = ProjectPrefix (scanIssue d rd)).
  { intros d rd Hd. destruct (decide (id = d)) as [<-|Hne].
    - exists r'. now rewrite lookup_insert_eq.
    - exists rd. now rewrite lookup_insert_ne. }
  intros id2 r2. destruct (decide (id = id2)) as [<-|Hne].
  - rewrite lookup_insert_eq. intros [= <-].
    destruct Hdeps as [->|[Hnd Hacc]].
    + destruct (Hinv _ _ Hr) as [Hnd Hall]. split; [exact Hnd|].
      intros d Hd. destruct (Hall d Hd) as (? & ? & rd & Hrd & Hpp).
      destruct (Hkeep _ _ Hrd) as (rd' & ? & ?). split; [done|]. split; [done|].
      exists rd'. split; [done|]. exact Hpp.
    + split; [exact Hnd|]. intros d Hd.
      destruct (Hacc d Hd) as (Hre & Hself & Hpp & [rd Hrd]).
      destruct (Hkeep _ _ Hrd) as (rd' & ? & ?). split; [done|]. split; [done|].
      exists rd'. split; [done|]. simpl. now rewrite Hpp.
  - rewrite lookup_insert_ne by done. intros Hr2.
    destruct (Hinv _ _ Hr2) as [Hnd Hall]. split; [exact Hnd|].
    intros d Hd. destruct (Hall d Hd) as (? & ? & rd & Hrd & Hpp).
    destruct (Hkeep _ _ Hrd) as (rd' & ? & ?). split; [done|]. split; [done|].
    exists rd'. split; [done|]. exact Hpp.
Qed.

Lemma normalizeBlockedByTx_accepted (db : Store) issueID p blockedBy nb tx :
  normalizeBlockedByTx issueID p blockedBy db = inr (nb, tx) ->
  NoDup nb /\ forall d, d ∈ nb -> accepted db issueID p d.
Proof.
  unfold normalizeBlockedByTx. intros Hrun.
  destruct (normalizeBlockedByLoop_output _ _ _ _ _ _ _ _ Hrun) as [Hacc Hnd];
    [intros x Hx; inversion Hx|apply NoDup_nil_2|]. auto.
Qed.

Lemma depsInv_CreateIssue draw (db : Store) now pp c title body parentID blockedBy :
  depsInv db -> depsInv (snd (CreateIssue draw db now pp c title body parentID blockedBy)).
Proof.
  intros Hinv.
  destruct (CreateIssue _ _ _ _ _ _ _ _ _) as [[e|u] db'] eqn:Hop.
  { apply CreateIssue_effect in Hop as [[-> _]|(? & ? & ? & _ & _ & _ & _ & [=])].
    exact Hinv. }
  apply CreateIssue_success in Hop
    as ((Hp & _ & _) & k & nb & Hfree & _ & Hnorm & -> & _).
  apply normalizeBlockedByTx_accepted in Hnorm as [Hnd Hacc].
  simpl. intros id r.
  destruct (decide (allocatedID (TrimSpace (ToLower pp)) (draw k) = id)) as [<-|Hne].
  - rewrite lookup_insert_eq. intros [= <-]. simpl. split; [exact Hnd|].
    intros d Hd. destruct (Hacc d Hd) as (Hre & Hself & Hpp & [rd Hrd]).
    split; [done|]. split; [done|]. exists rd.
    rewrite lookup_insert_ne by congruence. split; [done|].
    rewrite Hpp. fold (allocatedID (TrimSpace (ToLower pp)) (draw k)).
    pose proof (ProjectPrefix_allocated _ (draw k) rd Hp) as Hnew. simpl in Hnew.
    now rewrite Hnew.
  - rewrite lookup_insert_ne by done. intros Hr.
    destruct (Hinv _ _ Hr) as [Hnd' Hall]. split; [exact Hnd'|].
    intros d Hd. destruct (Hall d Hd) as (? & ? & rd & Hrd & Hpp).
    split; [done|]. split; [done|]. exists rd.
    rewrite lookup_insert_ne by congruence. auto.
Qed.

Lemma depsInv_TransitionState (db : Store) now id to ev :
  depsInv db -> depsInv (snd (TransitionState db now id to ev)).
Proof.
  intros Hinv.
  destruct (TransitionState _ _ _ _ _) as [res db'] eqn:Hop.
  apply TransitionState_effect in Hop as [[-> _]|(r & Hr & -> & _)]; [exact Hinv|].
  simpl. apply (depsInv_update _ _ r); auto.
Qed.

Lemma depsInv_SetParent (db : Store) now id parentID ev :
  depsInv db -> depsInv (snd (SetParent db now id parentID ev)).
Proof.
  intros Hinv.
  destruct (SetParent _ _ _ _ _) as [res db'] eqn:Hop.
  apply SetParent_effect in Hop as [[-> _]|(r & np & Hr & _ & -> & _)]; [exact Hinv|].
  simpl. apply (depsInv_update _ _ r); auto.
Qed.

Lemma depsInv_SetBlockedBy (db : Store) now id blockedBy ev :
  depsInv db -> depsInv (snd (SetBlockedBy db now id blockedBy ev)).
Proof.
  intros Hinv.
  destruct (SetBlockedBy _ _ _ _ _) as [[e|u] db'] eqn:Hop.
  { apply SetBlockedBy_effect in Hop as [[-> _]|(? & ? & _ & _ & [=])]. exact Hinv. }
  apply SetBlockedBy_success in Hop as (_ & r & nb & Hr & Hnorm & _ & -> & _).
  apply normalizeBlockedByTx_accepted in Hnorm as [Hnd Hacc].
  simpl. apply (depsInv_update _ _ r); auto.
Qed.

Lemma reachable_depsInv (db : Store) : reachable db -> depsInv db.
Proof.
  induction 1 as [|? ? ? ? ? ? ? ? ? _ IH|? ? ? ? ? _ IH|? ? ? ? ? _ IH|? ? ? ? ? _ IH].
  - intros id r. now rewrite lookup_empty.
  - now apply depsInv_CreateIssue.
  - now apply depsInv_TransitionState.
  - now apply depsInv_SetParent.
  - now apply depsInv_SetBlockedBy.
Qed.

Lemma reachable_hierarchyInv (db : Store) : reachable db -> hierarchyInv db.
Proof.
  induction 1 as [|? ? ? ? ? ? ? ? ? _ IH|? ? ? ? ? _ IH|? ? ? ? ? _ IH|? ? ? ? ? _ IH].
  - apply hierarchyInv_empty.
  - now apply hierarchyInv_CreateIssue.
  - now apply hierarchyInv_TransitionState.
  - now apply hierarchyInv_SetParent.
  - now apply hierarchyInv_SetBlockedBy.
Qed.

End ServiceFacts.

(** * Further verified properties *)

Section ServiceProperties.
Context {str : Strings}.

(** X1. An operation that returns an error has written nothing: the table
    after a failed CreateIssue, TransitionState, SetParent or SetBlockedBy
    is the table before it.  (For a table of int64 versions, with room for
    the increment in the row that an update touches, as in all statements
    about calls below.) *)
Theorem failed_operations_change_nothing (db : Store) (e : error) :
  (forall draw now pp c title body parentID blockedBy,
     int64Rows db ->
     fst (CreateIssue draw db now pp c title body parentID blockedBy) = inl e ->
     snd (CreateIssue draw db now pp c title body parentID blockedBy) = db) /\
  (forall now id to ev,
     transitionDomain db id ->
     fst (TransitionState db now id to ev) = inl e ->
     snd (TransitionState db now id to ev) = db) /\
  (forall now id parentID ev,
     updateDomain db id ->
     fst (SetParent db now id parentID ev) = inl e ->
     snd (SetParent db now id parentID ev) = db) /\
  (forall now id blockedBy ev,
     updateDomain db id ->
     fst (SetBlockedBy db now id blockedBy ev) = inl e ->
     snd (SetBlockedBy db now id blockedBy ev) = db).
Proof.
  split; [|split; [|split]].
  - intros draw now pp c title body parentID blockedBy _.
    destruct (CreateIssue _ _ _ _ _ _ _ _ _) as [res db'] eqn:Hop.
    apply CreateIssue_effect in Hop as [[-> _]|(? & ? & ? & _ & _ & _ & _ & ->)];
      [reflexivity|discriminate].
  - intros now id to ev _.
    destruct (TransitionState _ _ _ _ _) as [res db'] eqn:Hop.
    apply TransitionState_effect in Hop as [[-> _]|(? & _ & _ & ->)];
      [reflexivity|discriminate].
  - intros now id parentID ev _.
    destruct (SetParent _ _ _ _ _) as [res db'] eqn:Hop.
    apply SetParent_effect in Hop as [[-> _]|(? & ? & _ & _ & _ & ->)];
      [reflexivity|discriminate].
  - intros now id blockedBy ev _.
    destruct (SetBlockedBy _ _ _ _ _) as [res db'] eqn:Hop.
    apply SetBlockedBy_effect in Hop as [[-> _]|(? & ? & _ & _ & ->)];
      [reflexivity|discriminate].
Qed.

(** X2. A successful CreateIssue adds exactly one row, under an id that was
    free, and returns it: the id is the project prefix, a hyphen and the
    drawn number and matches the id pattern; the issue is in the given
    (normalized) project, in state todo at version 1, with the trimmed title,
    the designated parent, the normalized dependency list, both timestamps at
    the current time and no closed_at.  Every other row is as before. *)
Theorem created_issue_is_a_fresh_todo_row draw (db : Store) now pp c title body parentID
    blockedBy issue db' :
  int64Rows db ->
  (forall k, 0 <= draw k < 900000) ->
  CreateIssue draw db now pp c title body parentID blockedBy = (inr issue, db') ->
  db !! ID issue = None /\
  (forall k, k <> ID issue -> db' !! k = db !! k) /\
  (exists r, db' !! ID issue = Some r /\ issue = scanIssue (ID issue) r) /\
  issueIDRe (ID issue) = true /\
  (exists k, ID issue = TrimSpace (ToLower pp) ++ String "-"%char
                          (FormatInt (randomIssueNumber (draw k)))) /\
  ProjectPrefix issue = TrimSpace (ToLower pp) /\
  Category_ issue = c /\ IsValidCategory c = true /\
  Title issue = TrimSpace title /\ Title issue <> EmptyString /\
  Body issue = body /\
  State_ issue = StateTodo /\ Version issue = 1 /\
  ParentID issue = effectiveParent parentID /\
  normalizeBlockedByTx (ID issue) (TrimSpace (ToLower pp)) blockedBy db
    = inr (BlockedBy issue, db) /\
  CreatedAt issue = now /\ LastUpdatedAt issue = now /\ ClosedAt issue = None.
Proof.
  intros _ Hdraw Hop.
  apply CreateIssue_success in Hop
    as ((Hp & Hc & Ht) & k & nb & Hfree & _ & Hnorm & -> & ->).
  simpl ID. unfold allocatedID in *. rewrite Sprintf_issueID in *.
  split; [exact Hfree|]. split.
  { intros k' Hk'. now rewrite lookup_insert_ne. }
  split.
  { eexists. rewrite lookup_insert_eq. split; reflexivity. }
  split.
  { apply issueIDRe_allocated; [exact Hp|].
    pose proof (randomIssueNumber_range _ (Hdraw k)). lia. }
  split; [eauto|]. simpl.
  rewrite (projectPrefixFromIssueID_fresh _ _ Hp). repeat split; done.
Qed.

(** X3. TransitionState succeeds exactly when the target is a defined
    state, the issue exists, the target is its current state or a legal
    edge from it, every dependency is done when the target is in_progress,
    and the expected version (if any) is the row's version; the result is
    then the row with the new state, version plus 1 and fresh timestamps. *)
Theorem transition_succeeds_exactly_when (db : Store) now id to ev :
  transitionDomain db id ->
  (exists u db', TransitionState db now id to ev = (inr u, db')) <->
  IsValidState to = true /\
  exists r, db !! id = Some r /\
    ValidateTransition (state r) to = None /\
    (to = StateInProgress -> depsDone db (blocked_by r)) /\
    versionMatches r ev = true.
Proof.
  intros _. split.
  - intros (u & db' & Hop).
    apply TransitionState_success in Hop as (Hto & r & Hr & Hedge & Hgate & Hv & _).
    eauto 10.
  - intros (Hto & r & Hr & Hedge & Hgate & Hv).
    rewrite (TransitionState_existing _ _ _ _ _ _ Hr Hto), Hedge, Hv.
    case_bool_decide as Hip; simpl; [|eauto].
    specialize (Hgate Hip).
    assert (Hall : forall d, d ∈ blocked_by r -> is_Some (db !! d)).
    { intros d Hd. destruct (Hgate d Hd) as (rd & -> & _). eauto. }
    apply firstMissing_None in Hall as Hfm. rewrite Hfm.
    apply (notDone_nil _ _ Hall) in Hgate. rewrite Hgate. simpl. eauto.
Qed.

(** X4. The three updates touch one row and a fixed set of its columns.
    Whatever the outcome, no row appears or disappears, rows under other ids
    are untouched, and category, title, body and created_at of every row
    stay as they were; TransitionState also keeps parent_id and blocked_by,
    SetParent keeps state, closed_at and blocked_by, SetBlockedBy keeps
    state, closed_at and parent_id. *)
Theorem updates_touch_one_row (db : Store) :
  (forall now id to ev,
     transitionDomain db id ->
     let db' := snd (TransitionState db now id to ev) in
     (forall k, k <> id -> db' !! k = db !! k) /\
     (forall k, category <$> (db' !! k) = category <$> (db !! k) /\
                title <$> (db' !! k) = title <$> (db !! k) /\
                body <$> (db' !! k) = body <$> (db !! k) /\
                created_at <$> (db' !! k) = created_at <$> (db !! k) /\
                parent_id <$> (db' !! k) = parent_id <$> (db !! k) /\
                blocked_by <$> (db' !! k) = blocked_by <$> (db !! k))) /\
  (forall now id parentID ev,
     updateDomain db id ->
     let db' := snd (SetParent db now id parentID ev) in
     (forall k, k <> TrimSpace id -> db' !! k = db !! k) /\
     (forall k, category <$> (db' !! k) = category <$> (db !! k) /\
                title <$> (db' !! k) = title <$> (db !! k) /\
                body <$> (db' !! k) = body <$> (db !! k) /\
                created_at <$> (db' !! k) = created_at <$> (db !! k) /\
                state <$> (db' !! k) = state <$> (db !! k) /\
                closed_at <$> (db' !! k) = closed_at <$> (db !! k) /\
                blocked_by <$> (db' !! k) = blocked_by <$> (db !! k))) /\
  (forall now id blockedBy ev,
     updateDomain db id ->
     let db' := snd (SetBlockedBy db now id blockedBy ev) in
     (forall k, k <> TrimSpace id -> db' !! k = db !! k) /\
     (forall k, category <$> (db' !! k) = category <$> (db !! k) /\
                title <$> (db' !! k) = title <$> (db !! k) /\
                body <$> (db' !! k) = body <$> (db !! k) /\
                created_at <$> (db' !! k) = created_at <$> (db !! k) /\
                state <$> (db' !! k) = state <$> (db !! k) /\
                closed_at <$> (db' !! k) = closed_at <$> (db !! k) /\
                parent_id <$> (db' !! k) = parent_id <$> (db !! k))).
Proof.
  split; [|split].
  - intros now id to ev _ db'. subst db'.
    destruct (TransitionState _ _ _ _ _) as [res db'] eqn:Hop.
    apply TransitionState_effect in Hop as [[-> _]|(r & Hr & -> & _)]; simpl.
    + split; [reflexivity|]. intros k. repeat split.
    + split; [intros k Hk; now rewrite lookup_insert_ne|].
      intros k. destruct (decide (id = k)) as [<-|Hne].
      * rewrite lookup_insert_eq, Hr. repeat split.
      * rewrite lookup_insert_ne by done. repeat split.
  - intros now id parentID ev _ db'. subst db'.
    destruct (SetParent _ _ _ _ _) as [res db'] eqn:Hop.
    apply SetParent_effect in Hop as [[-> _]|(r & np & Hr & _ & -> & _)]; simpl.
    + split; [reflexivity|]. intros k. repeat split.
    + split; [intros k Hk; now rewrite lookup_insert_ne|].
      intros k. destruct (decide (TrimSpace id = k)) as [<-|Hne].
      * rewrite lookup_insert_eq, Hr. repeat split.
      * rewrite lookup_insert_ne by done. repeat split.
  - intros now id blockedBy ev _ db'. subst db'.
    destruct (SetBlockedBy _ _ _ _ _) as [res db'] eqn:Hop.
    apply SetBlockedBy_effect in Hop as [[-> _]|(r & nb & Hr & -> & _)]; simpl.
    + split; [reflexivity|]. intros k. repeat split.
    + split; [intros k Hk; now rewrite lookup_insert_ne|].
      intros k. destruct (decide (TrimSpace id = k)) as [<-|Hne].
      * rewrite lookup_insert_eq, Hr. repeat split.
      * rewrite lookup_insert_ne by done. repeat split.
Qed.


(** X6. In every table the service can produce, every row has an id made of
    a 3-character project prefix, a hyphen and a number (so the id carries
    no space or upper-case letter), one of the three categories, one of the
    five states, and a non-empty title that is the trimmed form of a string. *)
Theorem rows_stay_well_formed (db : Store) id r :
  reachable db -> db !! id = Some r ->
  (exists p n, projectPrefixRe p = true /\ id = p ++ String "-"%char (FormatInt n) /\
               ProjectPrefix (scanIssue id r) = p) /\
  TrimSpace id = id /\ ToLower id = id /\
  category r ∈ [CategoryTask; CategoryWorkstream; CategoryProject] /\
  state r ∈ defined_states /\
  title r <> EmptyString /\ exists raw, title r = TrimSpace raw.
Proof.
  intros Hreach Hr.
  destruct (reachable_rowsInv _ Hreach _ _ Hr) as (Hid & Hc & Hs & Ht & Htt & _).
  split.
  { destruct Hid as (p & n & Hp & ->). exists p, n. repeat split; [done|]. simpl.
    now rewrite (projectPrefixFromIssueID_fresh _ _ Hp). }
  split; [now apply allocatedForm_trimmed|].
  split; [now apply ToLower_plain, allocatedForm_plain|].
  split.
  { unfold IsValidCategory in Hc. rewrite !orb_true_iff, !bool_decide_eq_true in Hc.
    rewrite !elem_of_cons. tauto. }
  split; [now apply IsValidState_defined|]. done.
Qed.

(** X7. In every table the service can produce, each dependency of each
    issue is a different, existing issue of the same project, listed once.
    So the dependency lookup of the in_progress gate never misses: on an
    existing issue a transition to in_progress does not fail with
    not-found. *)
Theorem dependencies_stay_resolvable (db : Store) id r :
  reachable db -> db !! id = Some r ->
  NoDup (blocked_by r) /\
  (forall d, d ∈ blocked_by r ->
     d <> id /\ issueIDRe d = true /\
     exists rd, db !! d = Some rd /\
       ProjectPrefix (scanIssue d rd) = ProjectPrefix (scanIssue id r)) /\
  (forall now ev e,
     transitionDomain db id ->
     fst (TransitionState db now id StateInProgress ev) = inl e ->
     errors_Is e ErrNotFound = false).
Proof.
  intros Hreach Hr.
  destruct (reachable_depsInv _ Hreach _ _ Hr) as [Hnd Hall].
  split; [exact Hnd|]. split; [exact Hall|].
  intros now ev e _.
  assert (Hto : IsValidState StateInProgress = true) by reflexivity.
  rewrite (TransitionState_existing _ _ _ _ _ _ Hr Hto).
  assert (Hfm : firstMissing db (blocked_by r) = None).
  { apply firstMissing_None. intros d Hd.
    destruct (Hall d Hd) as (_ & _ & rd & -> & _). eauto. }
  rewrite bool_decide_eq_true_2 by reflexivity. rewrite Hfm.
  unfold ValidateTransition.
  case_bool_decide; simpl.
  - destruct (0 <? _)%nat; simpl; [now intros [= <-]|].
    destruct (versionMatches r ev); simpl; [discriminate|now intros [= <-]].
  - destruct (validTransitions !! state r) as [next|]; [|now intros [= <-]].
    destruct (default false (next !! StateInProgress)); simpl; [|now intros [= <-]].
    destruct (0 <? _)%nat; simpl; [now intros [= <-]|].
    destruct (versionMatches r ev); simpl; [discriminate|now intros [= <-]].
Qed.

(** X8. Read your writes: after a successful CreateIssue, TransitionState,
    SetParent or SetBlockedBy on a table the service can produce, GetIssue
    with the id of the returned issue returns that same issue. *)
Theorem get_returns_what_was_written (db : Store) :
  reachable db ->
  (forall draw now pp c title body parentID blockedBy u,
     int64Rows db ->
     fst (CreateIssue draw db now pp c title body parentID blockedBy) = inr u ->
     GetIssue (snd (CreateIssue draw db now pp c title body parentID blockedBy)) (ID u)
     = inr u) /\
  (forall now id to ev u,
     transitionDomain db id ->
     fst (TransitionState db now id to ev) = inr u ->
     ID u = id /\ GetIssue (snd (TransitionState db now id to ev)) (ID u) = inr u) /\
  (forall now id parentID ev u,
     updateDomain db id ->
     fst (SetParent db now id parentID ev) = inr u ->
     ID u = TrimSpace id /\ GetIssue (snd (SetParent db now id parentID ev)) (ID u) = inr u) /\
  (forall now id blockedBy ev u,
     updateDomain db id ->
     fst (SetBlockedBy db now id blockedBy ev) = inr u ->
     ID u = TrimSpace id /\
     GetIssue (snd (SetBlockedBy db now id blockedBy ev)) (ID u) = inr u).
Proof.
  intros Hreach. pose proof (reachable_rowsInv _ Hreach) as Hinv.
  split; [|split; [|split]].
  - intros draw now pp c title body parentID blockedBy u _.
    destruct (CreateIssue _ _ _ _ _ _ _ _ _) as [res db'] eqn:Hop. simpl. intros ->.
    apply CreateIssue_success in Hop as ((Hp & _ & _) & k & nb & _ & _ & _ & -> & ->).
    simpl ID. unfold GetIssue, getIssueByIDTx.
    rewrite (allocatedForm_trimmed _ (allocatedForm_allocatedID _ (draw k) Hp)).
    now rewrite lookup_insert_eq.
  - intros now id to ev u _.
    destruct (TransitionState _ _ _ _ _) as [res db'] eqn:Hop. simpl. intros ->.
    apply TransitionState_success in Hop as (_ & r & Hr & _ & _ & _ & -> & ->).
    split; [reflexivity|]. simpl ID. unfold GetIssue, getIssueByIDTx.
    destruct (Hinv _ _ Hr) as (Hid & _). rewrite (allocatedForm_trimmed _ Hid).
    now rewrite lookup_insert_eq.
  - intros now id parentID ev u _.
    destruct (SetParent _ _ _ _ _) as [res db'] eqn:Hop. simpl. intros ->.
    apply SetParent_success in Hop as (_ & r & Hr & _ & _ & -> & ->).
    split; [reflexivity|]. simpl ID. unfold GetIssue, getIssueByIDTx.
    destruct (Hinv _ _ Hr) as (Hid & _). rewrite (allocatedForm_trimmed _ Hid).
    now rewrite lookup_insert_eq.
  - intros now id blockedBy ev u _.
    destruct (SetBlockedBy _ _ _ _ _) as [res db'] eqn:Hop. simpl. intros ->.
    apply SetBlockedBy_success in Hop as (_ & r & nb & Hr & _ & _ & -> & ->).
    split; [reflexivity|]. simpl ID. unfold GetIssue, getIssueByIDTx.
    destruct (Hinv _ _ Hr) as (Hid & _). rewrite (allocatedForm_trimmed _ Hid).
    now rewrite lookup_insert_eq.
Qed.

(** X9. Parent references cannot form a cycle or a chain longer than two
    links.  In every table the service can produce, following parent_id
    from a project reaches nothing, from a workstream reaches one project
    and stops, and from a task reaches one workstream, then one project, and
    stops, however far the chain is followed; no issue is its own ancestor. *)
Theorem parent_chains_are_short (db : Store) id r :
  reachable db -> db !! id = Some r ->
  (category r = CategoryProject -> forall fuel, ancestors db fuel id = []) /\
  (category r = CategoryWorkstream ->
     exists p rp, db !! p = Some rp /\ category rp = CategoryProject /\
       forall fuel, (2 <= fuel)%nat -> ancestors db fuel id = [p]) /\
  (category r = CategoryTask ->
     exists w rw p rp,
       db !! w = Some rw /\ category rw = CategoryWorkstream /\
       db !! p = Some rp /\ category rp = CategoryProject /\
       forall fuel, (3 <= fuel)%nat -> ancestors db fuel id = [w; p]) /\
  (forall fuel, (id ∉ ancestors db fuel id) /\ (length (ancestors db fuel id) <= 2)%nat).
Proof.
  intros Hreach Hr.
  pose proof (reachable_hierarchyInv _ Hreach) as Hh.
  pose proof (reachable_rowsInv _ Hreach) as Hrows.
  assert (Hproj : forall k rk, db !! k = Some rk -> category rk = CategoryProject ->
            forall fuel, ancestors db fuel k = []).
  { intros k rk Hk Hc [|fuel]; simpl; [done|]. rewrite Hk.
    destruct (Hh _ _ Hk) as (Hp & _ & _). now rewrite (Hp Hc). }
  assert (Hws : forall k rk, db !! k = Some rk -> category rk = CategoryWorkstream ->
            exists p rp, db !! p = Some rp /\ category rp = CategoryProject /\
              forall fuel, ancestors db (S fuel) k = p :: ancestors db fuel p).
  { intros k rk Hk Hc. destruct (Hh _ _ Hk) as (_ & Hw & _).
    destruct (Hw Hc) as (p & rp & Hpar & Hp & Hcp & _). exists p, rp.
    repeat split; try done. intros fuel. simpl. now rewrite Hk, Hpar. }
  assert (Htask : forall k rk, db !! k = Some rk -> category rk = CategoryTask ->
            exists w rw, db !! w = Some rw /\ category rw = CategoryWorkstream /\
              forall fuel, ancestors db (S fuel) k = w :: ancestors db fuel w).
  { intros k rk Hk Hc. destruct (Hh _ _ Hk) as (_ & _ & Ht).
    destruct (Ht Hc) as (w & rw & Hpar & Hw & Hcw & _). exists w, rw.
    repeat split; try done. intros fuel. simpl. now rewrite Hk, Hpar. }
  split; [intros Hc; now apply (Hproj _ _ Hr)|].
  split.
  { intros Hc. destruct (Hws _ _ Hr Hc) as (p & rp & Hp & Hcp & Hstep).
    exists p, rp. repeat split; try done. intros [|fuel] Hf; [lia|].
    now rewrite Hstep, (Hproj _ _ Hp Hcp). }
  split.
  { intros Hc. destruct (Htask _ _ Hr Hc) as (w & rw & Hw & Hcw & Hstep).
    destruct (Hws _ _ Hw Hcw) as (p & rp & Hp & Hcp & Hstep').
    exists w, rw, p, rp. repeat split; try done. intros [|[|fuel]] Hf; [lia|lia|].
    now rewrite Hstep, Hstep', (Hproj _ _ Hp Hcp). }
  intros fuel.
  destruct (Hrows _ _ Hr) as (_ & Hvalid & _).
  unfold IsValidCategory in Hvalid. rewrite !orb_true_iff, !bool_decide_eq_true in Hvalid.
  destruct Hvalid as [[Hc|Hc]|Hc].
  - destruct (Htask _ _ Hr Hc) as (w & rw & Hw & Hcw & Hstep).
    destruct (Hws _ _ Hw Hcw) as (p & rp & Hp & Hcp & Hstep').
    destruct fuel as [|[|fuel]].
    + split; [apply not_elem_of_nil|simpl; lia].
    + rewrite Hstep. simpl ancestors. split; [|simpl; lia].
      intros [->|Hin]%elem_of_cons; [|inversion Hin].
      assert (rw = r) as -> by congruence. rewrite Hc in Hcw. discriminate.
    + rewrite Hstep, Hstep', (Hproj _ _ Hp Hcp). split; [|simpl; lia].
      intros [->|[->|Hin]%elem_of_cons]%elem_of_cons; [| |inversion Hin].
      * assert (rw = r) as -> by congruence. rewrite Hc in Hcw. discriminate.
      * assert (rp = r) as -> by congruence. rewrite Hc in Hcp. discriminate.
  - destruct (Hws _ _ Hr Hc) as (p & rp & Hp & Hcp & Hstep).
    destruct fuel as [|fuel].
    + split; [apply not_elem_of_nil|simpl; lia].
    + rewrite Hstep, (Hproj _ _ Hp Hcp). split; [|simpl; lia].
      intros [->|Hin]%elem_of_cons; [|inversion Hin].
      assert (rp = r) as -> by congruence. rewrite Hc in Hcp. discriminate.
  - rewrite (Hproj _ _ Hr Hc). split; [apply not_elem_of_nil|simpl; lia].
Qed.

(** X10. The only way into done is from in_progress, and the only way out
    of done or canceled is back to todo: a successful TransitionState whose
    target differs from the current state satisfies both. *)
Theorem done_is_entered_from_in_progress (db : Store) now id to ev r u db' :
  transitionDomain db id ->
  db !! id = Some r ->
  TransitionState db now id to ev = (inr u, db') ->
  state r <> to ->
  (to = StateDone -> state r = StateInProgress) /\
  (state r = StateDone \/ state r = StateCanceled -> to = StateTodo) /\
  state r ∈ defined_states.
Proof.
  intros _ Hr Hop Hne.
  apply TransitionState_success in Hop as (Hto & r' & Hr' & Hedge & _).
  assert (r' = r) as -> by congruence.
  unfold ValidateTransition in Hedge.
  rewrite bool_decide_eq_false_2 in Hedge by done.
  destruct (validTransitions !! state r) as [next|] eqn:Hnext; [|discriminate].
  assert (Hfrom : state r ∈ defined_states).
  { apply IsValidState_defined. unfold IsValidState. now rewrite Hnext. }
  apply IsValidState_defined in Hto.
  split; [|split; [|exact Hfrom]].
  - intros ->. revert Hfrom Hnext Hedge Hne. unfold defined_states.
    rewrite !elem_of_cons, elem_of_nil.
    intros [->|[->|[->|[->|[->|[]]]]]] [= <-]; vm_compute; congruence.
  - revert Hto Hnext Hedge Hne. unfold defined_states.
    rewrite !elem_of_cons, elem_of_nil.
    intros [->|[->|[->|[->|[->|[]]]]]] Hnext Hedge Hne [Hs|Hs];
      rewrite Hs in Hnext, Hne; injection Hnext as <-;
      first [reflexivity | exfalso; vm_compute in Hedge; congruence
            | exfalso; apply Hne; reflexivity].
Qed.

End ServiceProperties.

(** Instances, run with the string functions on ASCII text. *)
Section ServiceExamples.
#[local] Existing Instance asciiStrings.

Lemma failed_operations_witness :
  snd (SetParent exampleStore 20 "cat-100002" None (Some 3)) = exampleStore.
Proof.
  destruct (failed_operations_change_nothing exampleStore
              (Errorf "%w: category %q requires parent category %q" ErrInvalidInput
                 [AStr "task"; AStr "workstream"])) as (_ & _ & Hparent & _).
  apply Hparent; [|reflexivity].
  apply exampleStore_updateDomain.
Defined.

Lemma created_issue_witness :
  exists issue db',
    CreateIssue (fun _ => 5) exampleStore 20 " CAT" CategoryTask " Search " "body"
      (Some " cat-100001") ["cat-100002"; "cat-100002"] = (inr issue, db') /\
    ID issue = "cat-100005" /\
    exampleStore !! ID issue = None /\ issueIDRe (ID issue) = true /\
    Title issue = "Search" /\ Version issue = 1.
Proof.
  pose (row := insertedRow 20 CategoryTask "Search" "body" (Some "cat-100001")
                 ["cat-100002"]).
  pose (issue := scanIssue "cat-100005" row).
  pose (db' := <["cat-100005" := row]> exampleStore).
  assert (Hop : CreateIssue (fun _ => 5) exampleStore 20 " CAT" CategoryTask " Search " "body"
                  (Some " cat-100001") ["cat-100002"; "cat-100002"] = (inr issue, db'))
    by (vm_compute; reflexivity).
  assert (Hdraw : forall k : nat, 0 <= (fun _ : nat => 5) k < 900000) by (intros; simpl; lia).
  destruct (created_issue_is_a_fresh_todo_row _ _ _ _ _ _ _ _ _ _ _
              exampleStore_int64Rows Hdraw Hop)
    as (Hfree & _ & _ & Hre & _ & _ & _ & _ & Ht & _ & _ & _ & Hv & _).
  exists issue, db'. repeat split; try assumption.
Defined.

Lemma transition_succeeds_witness :
  IsValidState "blocked" = true /\
  exists r, exampleStore !! "cat-100004" = Some r /\
    ValidateTransition (state r) "blocked" = None /\
    ("blocked" = StateInProgress -> depsDone exampleStore (blocked_by r)) /\
    versionMatches r (Some 3) = true.
Proof.
  apply (transition_succeeds_exactly_when exampleStore 20 "cat-100004" "blocked" (Some 3)).
  - apply exampleStore_transitionDomain.
  - eexists _, _. vm_compute. reflexivity.
Defined.

Lemma updates_touch_one_row_witness :
  snd (TransitionState exampleStore 20 "cat-100002" "canceled" None) !! "cat-100003"
  = exampleStore !! "cat-100003".
Proof.
  destruct (updates_touch_one_row exampleStore) as (Hts & _ & _).
  apply (Hts 20 "cat-100002" "canceled" None
           (exampleStore_transitionDomain "cat-100002")).
  discriminate.
Defined.


Lemma rows_stay_well_formed_witness :
  TrimSpace "cat-100003" = "cat-100003" /\
  state exampleDoneTask ∈ defined_states.
Proof.
  destruct (rows_stay_well_formed exampleStore "cat-100003" exampleDoneTask
              exampleStore_reachable eq_refl) as (_ & Ht & _ & _ & Hs & _).
  split; assumption.
Defined.

Lemma dependencies_stay_resolvable_witness :
  NoDup (blocked_by exampleBusyTask) /\
  forall now ev e,
    fst (TransitionState exampleStore now "cat-100004" StateInProgress ev) = inl e ->
    errors_Is e ErrNotFound = false.
Proof.
  destruct (dependencies_stay_resolvable exampleStore "cat-100004" exampleBusyTask
              exampleStore_reachable eq_refl) as (Hnd & _ & Hnf).
  split; [assumption|]. intros now ev e. apply Hnf.
  apply exampleStore_transitionDomain.
Defined.

Lemma get_returns_what_was_written_witness :
  exists u,
    fst (TransitionState exampleStore 20 "cat-100002" "blocked" None) = inr u /\
    ID u = "cat-100002" /\
    GetIssue (snd (TransitionState exampleStore 20 "cat-100002" "blocked" None)) (ID u)
    = inr u.
Proof.
  destruct (get_returns_what_was_written exampleStore exampleStore_reachable)
    as (_ & Hts & _ & _).
  eexists. split; [vm_compute; reflexivity|].
  apply Hts; [|vm_compute; reflexivity].
  apply exampleStore_transitionDomain.
Defined.

Lemma parent_chains_are_short_witness :
  ancestors exampleStore 5 "cat-100004" = ["cat-100001"; "cat-100000"] /\
  "cat-100004" ∉ ancestors exampleStore 5 "cat-100004".
Proof.
  destruct (parent_chains_are_short exampleStore "cat-100004" exampleBusyTask
              exampleStore_reachable eq_refl) as (_ & _ & _ & Hself).
  split; [reflexivity|]. apply (Hself 5%nat).
Defined.

Lemma done_is_entered_from_in_progress_witness :
  ("todo" = StateDone -> state exampleDoneTask = StateInProgress) /\
  (state exampleDoneTask = StateDone \/ state exampleDoneTask = StateCanceled ->
   "todo" = StateTodo) /\
  state exampleDoneTask ∈ defined_states.
Proof.
  apply (done_is_entered_from_in_progress exampleStore 20 "cat-100003" "todo" None
           exampleDoneTask
           (scanIssue "cat-100003" (setState 20 "todo" exampleDoneTask))
           (<["cat-100003" := setState 20 "todo" exampleDoneTask]> exampleStore)).
  - apply exampleStore_transitionDomain.
  - reflexivity.
  - vm_compute. reflexivity.
  - discriminate.
Defined.

End ServiceExamples.

(** ** Listing *)

Section Listing.
Context {str : Strings}.



Lemma elem_of_selectedRows (db : Store) p st u :
  u ∈ selectedRows db p st <->
  exists id r, db !! id = Some r /\ u = scanIssue id r /\ listCondition p st id r = true.
Proof.
  unfold selectedRows. rewrite list_elem_of_In, in_map_iff. split.
  - intros ([id r] & <- & Hin). apply filter_In in Hin as [Hin Hc].
    apply list_elem_of_In, elem_of_map_to_list in Hin. eauto.
  - intros (id & r & Hr & -> & Hc). exists (id, r). split; [done|].
    apply filter_In. split; [|done]. now apply list_elem_of_In, elem_of_map_to_list.
Qed.

Lemma NoDup_fst_filter {A} (P : string * A -> bool) (l : list (string * A)) :
  NoDup (List.map fst l) -> NoDup (List.map fst (List.filter P l)).
Proof.
  induction l as [|x l IH]; simpl; [done|].
  intros [Hx Hl]%NoDup_cons. destruct (P x); simpl; [|auto].
  apply NoDup_cons. split; [|auto].
  intros Hin. apply Hx. apply list_elem_of_In, in_map_iff in Hin as (y & Hy & Hin).
  apply filter_In in Hin as [Hin _].
  apply list_elem_of_In, in_map_iff. eauto.
Qed.

Lemma NoDup_ID_selectedRows (db : Store) p st : NoDup (List.map ID (selectedRows db p st)).
Proof.
  unfold selectedRows. rewrite List.map_map.
  erewrite List.map_ext; [apply NoDup_fst_filter, NoDup_fst_map_to_list|].
  now intros [id r].
Qed.

Lemma ListIssues_selected (db : Store) p st :
  (forall s, st = Some s -> IsValidState s = true) ->
  ListIssues db p st = inr (merge_sort orderedBefore (selectedRows db p st)).
Proof.
  intros Hst. unfold ListIssues, selectedRows. destruct st as [s|]; [|reflexivity].
  now rewrite (Hst s eq_refl).
Qed.


Lemma like_percent s : like "%" s = true.
Proof.
  induction s as [|c s IH]; [reflexivity|].
  change (like "%" (String c s)) with (like EmptyString (String c s) || like "%" s).
  rewrite IH. apply orb_true_r.
Qed.

Lemma lowerAlnum_literal c :
  lowerAlnum c = true ->
  Ascii.eqb c "%"%char = false /\ Ascii.eqb c "_"%char = false /\ toLowerByte c = c.
Proof. destruct c as [[] [] [] [] [] [] [] []]; vm_compute; intros; try discriminate; auto. Qed.

Lemma like_lowerAlnum c pattern d s :
  lowerAlnum c = true -> lowerAlnum d = true ->
  like (String c pattern) (String d s) = Ascii.eqb c d && like pattern s.
Proof.
  intros Hc Hd.
  destruct (lowerAlnum_literal c Hc) as (H1 & H2 & H3).
  destruct (lowerAlnum_literal d Hd) as (_ & _ & H4).
  simpl. now rewrite H1, H2, H3, H4.
Qed.

Lemma like_project_prefix p q rest :
  projectPrefixRe p = true -> projectPrefixRe q = true ->
  like (p ++ "-%") (q ++ String "-"%char rest) = bool_decide (p = q).
Proof.
  intros Hp Hq.
  destruct p as [|a [|b [|c [|]]]]; try discriminate.
  destruct q as [|x [|y [|z [|]]]]; try discriminate.
  simpl in Hp, Hq. repeat (apply andb_prop in Hp as [Hp ?]).
  repeat (apply andb_prop in Hq as [Hq ?]).
  change (String a (String b (String c EmptyString)) ++ "-%")
    with (String a (String b (String c "-%"))).
  change (String x (String y (String z EmptyString)) ++ String "-"%char rest)
    with (String x (String y (String z (String "-"%char rest)))).
  rewrite !like_lowerAlnum by done.
  change (like "-%" (String "-"%char rest)) with (like "%" rest).
  rewrite like_percent, andb_true_r.
  destruct (Ascii.eqb_spec a x) as [->|Ha]; simpl.
  2:{ symmetry. apply bool_decide_eq_false_2. congruence. }
  destruct (Ascii.eqb_spec b y) as [->|Hb]; simpl.
  2:{ symmetry. apply bool_decide_eq_false_2. congruence. }
  destruct (Ascii.eqb_spec c z) as [->|Hc]; simpl.
  2:{ symmetry. apply bool_decide_eq_false_2. congruence. }
  symmetry. now apply bool_decide_eq_true_2.
Qed.

(** X12. With a well-formed project prefix (in any letter case, with or
    without surrounding blanks) the LIKE filter of ListIssues is an exact
    match on the project: on a table the service can produce, an issue is
    listed exactly when its project prefix is the given one. *)
Theorem project_filter_is_exact (db : Store) p st :
  reachable db -> readDomain db p ->
  projectPrefixRe (ToLower (TrimSpace p)) = true ->
  (forall s, st = Some s -> s ∈ defined_states) ->
  exists l, ListIssues db p st = inr l /\
    forall u, u ∈ l <->
      exists id r, db !! id = Some r /\ u = scanIssue id r /\
        ProjectPrefix u = ToLower (TrimSpace p) /\
        (forall s, st = Some s -> State_ u = s).
Proof.
  intros Hreach _ Hp Hst.
  exists (merge_sort orderedBefore (selectedRows db p st)). split.
  { apply ListIssues_selected. intros s Hs. apply IsValidState_defined. eauto. }
  intros u. rewrite (merge_sort_Permutation orderedBefore (selectedRows db p st)).
  rewrite elem_of_selectedRows.
  assert (Hne : TrimSpace p <> EmptyString).
  { intros Hnil. rewrite Hnil, ToLower_empty in Hp. discriminate. }
  assert (Hcond : forall id r, db !! id = Some r ->
            listCondition p st id r = true <->
            ProjectPrefix (scanIssue id r) = ToLower (TrimSpace p) /\
            (forall s, st = Some s -> state r = s)).
  { intros id r Hr. unfold listCondition.
    rewrite bool_decide_eq_false_2 by done.
    destruct (reachable_rowsInv _ Hreach _ _ Hr) as ((q & n & Hq & ->) & _).
    simpl ProjectPrefix. rewrite (projectPrefixFromIssueID_fresh _ _ Hq).
    rewrite (like_project_prefix _ _ _ Hp Hq), andb_true_iff, bool_decide_eq_true.
    destruct st as [s|].
    - rewrite bool_decide_eq_true. split.
      + intros [-> ->]. split; [done|]. now intros ? [= <-].
      + intros [-> Hs]. split; [done|]. now apply Hs.
    - split; [intros [-> _]; split; [done|discriminate]|intros [-> _]; done]. }
  split.
  - intros (id & r & Hr & -> & Hc). apply (Hcond _ _ Hr) in Hc as [Hpp Hs]. eauto 10.
  - intros (id & r & Hr & -> & Hpp & Hs). exists id, r. split; [done|]. split; [done|].
    apply (Hcond _ _ Hr). auto.
Qed.

End Listing.

(** Instances, run with the string functions on ASCII text. *)
Section ListingExamples.
#[local] Existing Instance asciiStrings.


Lemma project_filter_witness :
  exists l, ListIssues exampleStore " CAT " (Some StateDone) = inr l /\
    forall u, u ∈ l <->
      exists id r, exampleStore !! id = Some r /\ u = scanIssue id r /\
        ProjectPrefix u = ToLower (TrimSpace " CAT ") /\
        (forall s, Some StateDone = Some s -> State_ u = s).
Proof.
  apply (project_filter_is_exact exampleStore " CAT " (Some StateDone)
           exampleStore_reachable).
  - apply exampleStore_readDomain. reflexivity.
  - reflexivity.
  - intros s [= <-]. unfold defined_states. rewrite !elem_of_cons. auto 6.
Defined.

End ListingExamples.

(** ** Command line helpers *)

Section CommandLine.
Context {str : Strings}.

Lemma all_bytes_TrimLeft P s :
  all_bytes P s = true -> all_bytes P (ASCII.TrimLeft s) = true.
Proof.
  induction s as [|c s IH]; simpl; [done|].
  intros [Hc Hs]%andb_prop. destruct (isSpace c); [auto|]. simpl. now rewrite Hc, Hs.
Qed.

Lemma all_bytes_TrimRight P s :
  all_bytes P s = true -> all_bytes P (ASCII.TrimRight s) = true.
Proof.
  induction s as [|c s IH]; simpl; [done|].
  intros [Hc Hs]%andb_prop. specialize (IH Hs).
  destruct (ASCII.TrimRight s) as [|d t].
  - destruct (isSpace c); simpl; [done|]. now rewrite Hc.
  - change (P c && all_bytes P (String d t) = true). now rewrite Hc, IH.
Qed.

Lemma all_bytes_TrimSpace P s :
  all_bytes P s = true -> all_bytes P (ASCII.TrimSpace s) = true.
Proof. intros H. now apply all_bytes_TrimRight, all_bytes_TrimLeft. Qed.

(** On ASCII text [TrimSpace] yields ASCII text and is idempotent. *)
Lemma TrimSpace_isASCII s : isASCII s = true -> isASCII (TrimSpace s) = true.
Proof. intros H. rewrite TrimSpace_ascii by done. now apply all_bytes_TrimSpace. Qed.

Lemma TrimSpace_idem s : isASCII s = true -> TrimSpace (TrimSpace s) = TrimSpace s.
Proof.
  intros H. rewrite (TrimSpace_ascii (TrimSpace s)) by now apply TrimSpace_isASCII.
  rewrite TrimSpace_ascii by done. apply asciiTrimSpace_idem.
Qed.

Lemma Split_nonempty s sep : Split s sep <> [].
Proof.
  destruct s as [|c s]; simpl; [done|].
  destruct (Ascii.eqb c sep); [done|]. now destruct (Split s sep).
Qed.

Lemma Split_all_bytes P s sep :
  all_bytes P s = true -> Forall (fun a => all_bytes P a = true) (Split s sep).
Proof.
  induction s as [|c s IH]; simpl.
  - repeat constructor.
  - intros [Hc Hs]%andb_prop. specialize (IH Hs).
    destruct (Ascii.eqb c sep).
    + constructor; [reflexivity|exact IH].
    + destruct (Split s sep) as [|a rest]; [repeat constructor; simpl; now rewrite Hc|].
      inversion IH as [|? ? Ha Hrest]; subst. constructor; [|exact Hrest].
      simpl. now rewrite Hc, Ha.
Qed.

Lemma Split_pieces s sep :
  Forall (fun a => all_bytes (fun c => negb (Ascii.eqb c sep)) a = true) (Split s sep).
Proof.
  induction s as [|c s IH]; simpl.
  - repeat constructor.
  - destruct (Ascii.eqb c sep) eqn:Hc.
    + constructor; [reflexivity|exact IH].
    + destruct (Split s sep) as [|a rest]; [repeat constructor; simpl; now rewrite Hc|].
      inversion IH as [|? ? Ha Hrest]; subst. constructor; [|exact Hrest].
      simpl. now rewrite Hc, Ha.
Qed.

Lemma Split_plain a sep :
  all_bytes (fun c => negb (Ascii.eqb c sep)) a = true -> Split a sep = [a].
Proof.
  induction a as [|c a IH]; simpl; [done|].
  intros [Hc Ha]%andb_prop. apply negb_true_iff in Hc. now rewrite Hc, (IH Ha).
Qed.

Lemma Split_app a sep t :
  all_bytes (fun c => negb (Ascii.eqb c sep)) a = true ->
  Split (a ++ String sep t) sep = a :: Split t sep.
Proof.
  induction a as [|c a IH].
  - intros _. change (Split (String sep t) sep = EmptyString :: Split t sep).
    simpl. now rewrite Ascii.eqb_refl.
  - intros [Hc Ha]%andb_prop. apply negb_true_iff in Hc.
    change (Split (String c (a ++ String sep t)) sep = String c a :: Split t sep).
    simpl. now rewrite Hc, (IH Ha).
Qed.

Lemma trimmedNonEmpty_entries raw :
  Forall (fun a => all_bytes notComma a = true) raw ->
  Forall (fun a => isASCII a = true) raw ->
  Forall (fun x => csvEntry x /\ isASCII x = true) (trimmedNonEmpty raw).
Proof.
  induction 1 as [|v rest Hv _ IH]; simpl; [constructor|].
  intros Hascii. inversion Hascii as [|? ? Hva Hresta]; subst. specialize (IH Hresta).
  case_bool_decide as Hempty; [exact IH|].
  constructor; [|exact IH].
  split; [|now apply TrimSpace_isASCII].
  split; [done|]. split; [now apply TrimSpace_idem|].
  rewrite TrimSpace_ascii by done. now apply all_bytes_TrimSpace.
Qed.

Lemma trimmedNonEmpty_id l :
  Forall (fun x => csvEntry x /\ isASCII x = true) l -> trimmedNonEmpty l = l.
Proof.
  induction 1 as [|x l [(Hne & Ht & _) _] _ IH]; simpl; [done|].
  rewrite Ht, bool_decide_eq_false_2 by done. now rewrite IH.
Qed.

Lemma csvEntry_clean x :
  csvEntry x -> isASCII x = true -> startsClean x /\ ASCII.TrimRight x = x.
Proof.
  intros (_ & Ht & _) Ha. rewrite TrimSpace_ascii in Ht by done.
  unfold ASCII.TrimSpace in Ht.
  assert (Hs : startsClean x).
  { rewrite <- Ht. apply TrimRight_startsClean, TrimLeft_startsClean. }
  split; [exact Hs|]. now rewrite (TrimLeft_clean _ Hs) in Ht.
Qed.

Lemma TrimRight_app a t :
  ASCII.TrimRight t = t -> t <> EmptyString -> ASCII.TrimRight (a ++ t) = a ++ t.
Proof.
  intros Ht Hne. induction a as [|c a IH]; [exact Ht|].
  change (ASCII.TrimRight (String c (a ++ t)) = String c (a ++ t)).
  simpl. rewrite IH. destruct (a ++ t) eqn:Hat; [|reflexivity].
  destruct a as [|d a]; [change (t = EmptyString) in Hat; congruence|].
  change (String d (a ++ t) = EmptyString) in Hat. discriminate.
Qed.

Lemma Join_entries l :
  Forall (fun x => csvEntry x /\ isASCII x = true) l -> l <> [] ->
  Join l "," <> EmptyString /\ startsClean (Join l ",") /\
  ASCII.TrimRight (Join l ",") = Join l "," /\
  Split (Join l ",") ","%char = l /\
  isASCII (Join l ",") = true.
Proof.
  induction 1 as [|x l [Hx Hxa] Hl IH]; [done|]. intros _.
  destruct (csvEntry_clean _ Hx Hxa) as [Hstart Hend].
  destruct Hx as (Hne & _ & Hcomma).
  destruct l as [|y l].
  - simpl. repeat split; try done. now apply Split_plain.
  - destruct IH as (Hne' & Hs' & He' & Hsp' & Ha'); [done|].
    change (Join (x :: y :: l) ",") with (x ++ String ","%char (Join (y :: l) ",")).
    split; [now destruct x|]. split; [now destruct x|]. split; [|split].
    + apply TrimRight_app; [|done].
      remember (Join (y :: l) ",") as J eqn:HJ. clear HJ.
      destruct J as [|d J']; [done|]. now apply TrimRight_cons.
    + rewrite (Split_app _ _ _ Hcomma). now rewrite Hsp'.
    + unfold isASCII in *. rewrite all_bytes_app, Hxa. simpl. exact Ha'.
Qed.

Lemma parseCSV_blank value : TrimSpace value = EmptyString -> parseCSV value = [].
Proof.
  intros Hblank. unfold parseCSV. rewrite Hblank. simpl.
  now rewrite TrimSpace_empty, bool_decide_eq_true_2.
Qed.

(** X13. Every entry that parseCSV returns for an ASCII argument is
    non-empty, carries no surrounding blanks and no comma; a blank argument
    gives the empty list; and joining the result with commas and parsing it
    again gives the same list. *)
Theorem parseCSV_entries_round_trip (value : string) :
  isASCII value = true ->
  (forall x, x ∈ parseCSV value -> csvEntry x) /\
  (TrimSpace value = EmptyString -> parseCSV value = []) /\
  parseCSV (Join (parseCSV value) ",") = parseCSV value.
Proof.
  intros Hvalue.
  assert (Hentries : Forall (fun x => csvEntry x /\ isASCII x = true) (parseCSV value)).
  { apply trimmedNonEmpty_entries; [apply Split_pieces|].
    apply Split_all_bytes. now apply TrimSpace_isASCII. }
  split; [|split].
  - intros x Hx. rewrite Forall_forall in Hentries. now destruct (Hentries x Hx).
  - apply parseCSV_blank.
  - destruct (parseCSV value) as [|x l] eqn:Hl.
    { simpl. apply parseCSV_blank, TrimSpace_empty. }
    destruct (Join_entries (x :: l) Hentries) as (_ & Hs & He & Hsp & Ha); [done|].
    unfold parseCSV at 1. rewrite TrimSpace_ascii by done. unfold ASCII.TrimSpace.
    rewrite (TrimLeft_clean _ Hs), He, Hsp.
    now apply trimmedNonEmpty_id.
Qed.

Lemma toLowerByte_idem c : toLowerByte (toLowerByte c) = toLowerByte c.
Proof. destruct c as [[] [] [] [] [] [] [] []]; reflexivity. Qed.

Lemma toLowerByte_ascii c : asciiByte c = true -> asciiByte (toLowerByte c) = true.
Proof. destruct c as [[] [] [] [] [] [] [] []]; vm_compute; congruence. Qed.

Lemma asciiToLower_idem s : ASCII.ToLower (ASCII.ToLower s) = ASCII.ToLower s.
Proof. induction s as [|c s IH]; simpl; [done|]. now rewrite toLowerByte_idem, IH. Qed.

Lemma ToLower_isASCII s : isASCII s = true -> isASCII (ToLower s) = true.
Proof.
  intros H. rewrite ToLower_ascii by done. unfold isASCII in *.
  induction s as [|c s IH]; simpl; [done|].
  apply andb_prop in H as [Hc Hs]. now rewrite (toLowerByte_ascii _ Hc), (IH Hs).
Qed.

Lemma ToLower_idem s : isASCII s = true -> ToLower (ToLower s) = ToLower s.
Proof.
  intros H. rewrite (ToLower_ascii (ToLower s)) by now apply ToLower_isASCII.
  rewrite ToLower_ascii by done. apply asciiToLower_idem.
Qed.

(** X14. Of the ASCII arguments, parseCategoryArg accepts exactly the six
    spellings t, w, p, task, workstream and project, in any letter case and
    with surrounding blanks, and the blank argument, which means task.  What
    it returns is always one of the three categories that CreateIssue
    accepts, and it is the one the spelling names. *)
Theorem parseCategoryArg_returns_valid_categories (shortValue : string) :
  isASCII shortValue = true ->
  (TrimSpace (ToLower shortValue) = EmptyString ->
   parseCategoryArg shortValue = inr CategoryTask) /\
  parseCategoryArg (ToLower shortValue) = parseCategoryArg shortValue /\
  ((exists c, parseCategoryArg shortValue = inr c) <->
   TrimSpace (ToLower shortValue) ∈
     [EmptyString; "task"; "t"; "workstream"; "w"; "project"; "p"]) /\
  (forall c, parseCategoryArg shortValue = inr c ->
     IsValidCategory c = true /\
     (c = CategoryTask <->
      TrimSpace (ToLower shortValue) ∈ [EmptyString; "task"; "t"]) /\
     (c = CategoryWorkstream <-> TrimSpace (ToLower shortValue) ∈ ["workstream"; "w"]) /\
     (c = CategoryProject <-> TrimSpace (ToLower shortValue) ∈ ["project"; "p"])).
Proof.
  intros Hascii. split; [|split; [|split]].
  - intros Hblank. unfold parseCategoryArg. now rewrite Hblank.
  - unfold parseCategoryArg. now rewrite ToLower_idem.
  - unfold parseCategoryArg. rewrite !elem_of_cons, elem_of_nil.
    repeat (case_bool_decide; simpl; [split; [tauto|eauto]|]).
    split; [intros [c [=]]|tauto].
  - intros c. unfold parseCategoryArg. rewrite !elem_of_cons, !elem_of_nil.
    set (raw := TrimSpace (ToLower shortValue)).
    repeat (case_bool_decide as H; simpl;
            [intros [= <-]; rewrite H; (split; [reflexivity|]);
             repeat split; intros; try tauto; try discriminate;
             exfalso; intuition discriminate|]; clear H).
    discriminate.
Qed.

(** ** Error kinds and exit codes *)

Lemma setParentChecksTx_errors (db : Store) issue parentID e :
  setParentChecksTx issue parentID db = inl e -> invalidOrNotFound e.
Proof.
  unfold setParentChecksTx, invalidOrNotFound.
  destruct (expectedParentCategory (Category_ issue)) as [req needs].
  destruct (hasParentID parentID); destruct needs; simpl; try (intros [= <-]; auto).
  unfold tx_bind, getIssueByIDTx.
  destruct (db !! _); [|intros [= <-]; auto].
  case_bool_decide; simpl; [|intros [= <-]; auto].
  case_bool_decide; simpl; [|intros [= <-]; auto].
  discriminate.
Qed.

Lemma ValidateTransition_error from to e :
  ValidateTransition from to = Some e -> Unwrap e = Some ErrInvalidStateTransition.
Proof.
  unfold ValidateTransition. case_bool_decide; [discriminate|].
  destruct (validTransitions !! from) as [next|]; [|now intros [= <-]].
  destruct (default false (next !! to)); [discriminate|now intros [= <-]].
Qed.

Lemma typedError_exit_code e : typedError e -> renderError e ∈ [2; 3; 4].
Proof.
  rewrite !elem_of_cons. unfold typedError, renderError, errors_Is.
  intros [Hk|[Hk|[Hk|Hk]]]; rewrite Hk; simpl; auto.
Qed.

Lemma invalidOrNotFound_typed e : invalidOrNotFound e -> typedError e.
Proof. unfold typedError. intros [?|?]; auto. Qed.

(** X15. Failures of the database driver and of the random source apart,
    every error that CreateIssue, TransitionState, SetParent, SetBlockedBy,
    ListIssues or GetIssue returns wraps invalid-input,
    invalid-state-transition, not-found or conflict: never one of the two
    reserved kinds depth-exceeded and cycle-detected, and never an untyped
    error.  Only TransitionState can report invalid-state-transition, and
    the listing can only report invalid-input.  The exit code that
    renderError derives from such an error is therefore 2, 3 or 4. *)
Theorem service_errors_are_typed (db : Store) (e : error) :
  (forall draw now pp c title body parentID blockedBy,
     int64Rows db ->
     fst (CreateIssue draw db now pp c title body parentID blockedBy) = inl e ->
     Unwrap e = Some ErrInvalidInput \/ Unwrap e = Some ErrNotFound \/
     Unwrap e = Some ErrConflict) /\
  (forall now id to ev,
     transitionDomain db id ->
     fst (TransitionState db now id to ev) = inl e -> typedError e) /\
  (forall now id parentID ev,
     updateDomain db id ->
     fst (SetParent db now id parentID ev) = inl e ->
     Unwrap e = Some ErrInvalidInput \/ Unwrap e = Some ErrNotFound \/
     Unwrap e = Some ErrConflict) /\
  (forall now id blockedBy ev,
     updateDomain db id ->
     fst (SetBlockedBy db now id blockedBy ev) = inl e ->
     Unwrap e = Some ErrInvalidInput \/ Unwrap e = Some ErrNotFound \/
     Unwrap e = Some ErrConflict) /\
  (forall p st, readDomain db p ->
     ListIssues db p st = inl e -> Unwrap e = Some ErrInvalidInput) /\
  (forall id, readDomain db id ->
     GetIssue db id = inl e -> Unwrap e = Some ErrNotFound) /\
  (typedError e -> renderError e ∈ [2; 3; 4]).
Proof.
  split; [|split; [|split; [|split; [|split; [|split]]]]].
  - intros draw now pp c title body parentID blockedBy _.
    destruct (validCreateInput_dec pp c title) as [Hvalid|Hinvalid].
    + rewrite (CreateIssue_valid _ _ _ _ _ _ _ _ _ Hvalid).
      destruct (createLoop_cases draw db now (TrimSpace (ToLower pp)) c (TrimSpace title) body
                  parentID blockedBy maxCreateAttempts 0)
        as [(j & r & dbr & _ & _ & Hret & ->)|[_ ->]]; simpl.
      * intros ->. unfold attemptAt in Hret.
        apply createAttempt_Return in Hret
          as [[_ [e' [[= <-] Hchk]]]|(? & ? & _ & _ & _ & [=])].
        apply createChecksTx_errors in Hchk as [?|?]; auto.
      * intros [= <-]. auto.
    + destruct (CreateIssue_invalid draw db now pp c title body parentID blockedBy Hinvalid)
        as (e' & -> & He'). simpl. intros [= <-]. auto.
  - intros now id to ev _. unfold typedError.
    destruct (IsValidState to) eqn:Hto.
    2:{ unfold TransitionState. rewrite Hto. simpl. intros [= <-]. auto. }
    destruct (db !! id) as [r|] eqn:Hr.
    2:{ unfold TransitionState. rewrite Hto. simpl.
        unfold run_tx, TransitionStateTx. unfold tx_bind at 1.
        rewrite (getIssueByIDTx_None _ _ Hr). simpl. intros [= <-]. auto. }
    rewrite (TransitionState_existing _ _ _ _ _ _ Hr Hto).
    destruct (ValidateTransition _ _) as [e'|] eqn:Hedge.
    { simpl. intros [= <-]. apply ValidateTransition_error in Hedge. auto. }
    destruct (if bool_decide _ then _ else _); [simpl; intros [= <-]; auto|].
    destruct (_ && _); [simpl; intros [= <-]; auto|].
    destruct (versionMatches r ev); simpl; [discriminate|intros [= <-]; auto].
  - intros now id parentID ev _.
    destruct (decide (TrimSpace id = EmptyString)) as [Hid|Hid].
    { unfold SetParent. rewrite bool_decide_eq_true_2 by done. simpl. intros [= <-]. auto. }
    destruct (db !! TrimSpace id) as [r|] eqn:Hr.
    2:{ unfold SetParent. rewrite bool_decide_eq_false_2 by done.
        unfold run_tx, SetParentTx. unfold tx_bind at 1.
        rewrite (getIssueByIDTx_None _ _ Hr). simpl. intros [= <-]. auto. }
    rewrite (SetParent_existing _ _ _ _ _ _ Hr Hid).
    destruct (setParentChecksTx _ _ _) as [e'|[np tx]] eqn:Hchk.
    { simpl. intros [= <-]. apply setParentChecksTx_errors in Hchk as [?|?]; auto. }
    destruct (versionMatches r ev); simpl; [discriminate|intros [= <-]; auto].
  - intros now id blockedBy ev _.
    destruct (decide (TrimSpace id = EmptyString)) as [Hid|Hid].
    { unfold SetBlockedBy. rewrite bool_decide_eq_true_2 by done. simpl.
      intros [= <-]. auto. }
    destruct (db !! TrimSpace id) as [r|] eqn:Hr.
    2:{ unfold SetBlockedBy. rewrite bool_decide_eq_false_2 by done.
        unfold run_tx, SetBlockedByTx. unfold tx_bind at 1.
        rewrite (getIssueByIDTx_None _ _ Hr). simpl. intros [= <-]. auto. }
    rewrite (SetBlockedBy_existing _ _ _ _ _ _ Hr Hid).
    destruct (normalizeBlockedByTx _ _ _ _) as [e'|[nb tx]] eqn:Hchk.
    { simpl. intros [= <-]. apply normalizeBlockedByLoop_errors in Hchk as [?|?]; auto. }
    destruct (versionMatches r ev); simpl; [discriminate|intros [= <-]; auto].
  - intros p st _. unfold ListIssues. destruct st as [s|]; [|discriminate].
    destruct (IsValidState s); simpl; [discriminate|now intros [= <-]].
  - intros id _. unfold GetIssue, getIssueByIDTx.
    destruct (db !! _); [discriminate|now intros [= <-]].
  - apply typedError_exit_code.
Qed.

(** ** Schema inspection *)

(** X16. hasAllAndOnly compares a column map with a wanted list.  For a map
    whose entries are all true (as issueColumns builds it) and a wanted list
    without repetitions (as the required list is), it answers true exactly
    when the columns of the map are the wanted ones, no more and no fewer. *)
Theorem hasAllAndOnly_exact (columns : gmap string bool) (wanted : list string) :
  (forall c v, columns !! c = Some v -> v = true) ->
  NoDup wanted ->
  (hasAllAndOnly columns wanted = true <->
   forall c, is_Some (columns !! c) <-> c ∈ wanted) /\
  NoDup required.
Proof.
  intros Htrue Hnd. split.
  2:{ apply (bool_decide_unpack _). vm_compute. exact I. }
  unfold hasAllAndOnly. split.
  - case_bool_decide as Hsize; simpl; [|discriminate].
    rewrite forallb_forall. intros Hall.
    assert (Hsub : list_to_set (C := gset string) wanted ⊆ dom columns).
    { intros c Hc. apply elem_of_list_to_set in Hc. apply elem_of_dom.
      apply list_elem_of_In in Hc. specialize (Hall c Hc).
      destruct (columns !! c); [eauto|discriminate]. }
    assert (Heq : list_to_set (C := gset string) wanted = dom columns).
    { apply set_subseteq_size_eq; [exact Hsub|].
      rewrite size_dom, size_list_to_set by done. lia. }
    intros c. rewrite <- elem_of_dom, <- Heq. apply elem_of_list_to_set.
  - intros Hiff.
    assert (Heq : dom columns = list_to_set (C := gset string) wanted).
    { apply set_eq. intros c. rewrite elem_of_dom, elem_of_list_to_set. apply Hiff. }
    rewrite bool_decide_eq_true_2.
    2:{ rewrite <- size_dom, Heq. now apply size_list_to_set. }
    simpl. apply forallb_forall. intros c Hc%list_elem_of_In%Hiff.
    destruct Hc as [v Hv]. rewrite Hv. simpl. now apply (Htrue c).
Qed.

End CommandLine.

(** Instances, run with the string functions on ASCII text. *)
Section CommandLineExamples.
#[local] Existing Instance asciiStrings.

Lemma parseCSV_witness :
  parseCSV " cat-7 , ,cat-8,, " = ["cat-7"; "cat-8"] /\
  parseCSV (Join (parseCSV " cat-7 , ,cat-8,, ") ",") = parseCSV " cat-7 , ,cat-8,, ".
Proof.
  split; [reflexivity|].
  apply (parseCSV_entries_round_trip " cat-7 , ,cat-8,, "). reflexivity.
Defined.

Lemma parseCategoryArg_witness :
  parseCategoryArg "  " = inr CategoryTask /\
  parseCategoryArg (ToLower " W ") = parseCategoryArg " W ".
Proof.
  destruct (parseCategoryArg_returns_valid_categories "  " eq_refl) as (Hblank & _).
  destruct (parseCategoryArg_returns_valid_categories " W " eq_refl) as (_ & Hcase & _).
  split; [apply Hblank; reflexivity|exact Hcase].
Defined.

Lemma service_errors_witness :
  renderError (staleWrite 2) ∈ [2; 3; 4] /\
  typedError (staleWrite 2).
Proof.
  destruct (service_errors_are_typed exampleStore (staleWrite 2))
    as (_ & Hts & _ & _ & _ & _ & Hcode).
  assert (Ht : typedError (staleWrite 2)).
  { apply (Hts 20 "cat-100002" "in_progress" (Some 2));
      [apply exampleStore_transitionDomain|reflexivity]. }
  split; [apply Hcode; exact Ht|exact Ht].
Defined.

Lemma hasAllAndOnly_witness :
  hasAllAndOnly (list_to_map ((fun c => (c, true)) <$> required)) required = true.
Proof.
  assert (Hnd : NoDup required).
  { apply (bool_decide_unpack _). vm_compute. exact I. }
  assert (Htrue : forall c v,
            (list_to_map ((fun c => (c, true)) <$> required) : gmap string bool) !! c = Some v ->
            v = true).
  { intros c v Hv. apply elem_of_list_to_map_2 in Hv.
    apply list_elem_of_fmap in Hv as (c' & [= _ ->] & _). reflexivity. }
  destruct (hasAllAndOnly_exact _ required Htrue Hnd) as [[_ Hback] _].
  apply Hback. intros c. split.
  - intros [v Hv]. apply elem_of_list_to_map_2 in Hv.
    apply list_elem_of_fmap in Hv as (c' & [= -> _] & Hin). exact Hin.
  - intros Hc. exists true. apply elem_of_list_to_map_1.
    + apply (bool_decide_unpack _). vm_compute. exact I.
    + apply list_elem_of_fmap. eauto.
Defined.

End CommandLineExamples.

(** ** The configuration file *)

Section ConfigFile.
Context {str : Strings}.

Lemma parseLines_app resolve path l1 l2 : forall i cfg,
  parseLines resolve path (l1 ++ l2) i cfg =
  match parseLines resolve path l1 i cfg with
  | inl e => inl e
  | inr cfg1 => parseLines resolve path l2 (i + length l1) cfg1
  end.
Proof.
  induction l1 as [|raw l1 IH]; intros i cfg.
  - simpl. now rewrite Nat.add_0_r.
  - rewrite <- app_comm_cons. simpl parseLines. simpl length.
    replace (i + S (length l1))%nat with (S i + length l1)%nat by lia.
    destruct (_ || _); [apply IH|].
    destruct (Cut _ _) as [[key value] [|]]; [|reflexivity].
    case_bool_decide; [case_bool_decide; [reflexivity|apply IH]|].
    case_bool_decide; [|reflexivity].
    destruct (negb _); [reflexivity|apply IH].
Qed.

Lemma parseLines_index resolve path lines : forall i j cfg cfg',
  parseLines resolve path lines i cfg = inr cfg' ->
  parseLines resolve path lines j cfg = inr cfg'.
Proof.
  induction lines as [|raw lines IH]; intros i j cfg cfg'; simpl; [done|].
  destruct (_ || _); [apply IH|].
  destruct (Cut _ _) as [[key value] [|]]; [|discriminate].
  case_bool_decide; [case_bool_decide; [discriminate|apply IH]|].
  case_bool_decide; [|discriminate].
  destruct (negb _); [discriminate|apply IH].
Qed.

Lemma parseLines_project resolve path lines : forall i cfg cfg',
  parseLines resolve path lines i cfg = inr cfg' ->
  Path cfg' = Path cfg /\
  (Project cfg' = Project cfg \/ projectPrefixRe (Project cfg') = true).
Proof.
  induction lines as [|raw lines IH]; intros i cfg cfg'; simpl.
  - intros [= <-]. auto.
  - destruct (_ || _); [apply IH|].
    destruct (Cut _ _) as [[key value] [|]]; [|discriminate].
    case_bool_decide; [case_bool_decide; [discriminate|]|].
    { intros Hrest. apply IH in Hrest as [Hp Hproj]. simpl in *. auto. }
    case_bool_decide; [|discriminate].
    destruct (projectPrefixRe _) eqn:Hre; simpl; [|discriminate].
    intros Hrest. apply IH in Hrest as [Hp [Hproj|Hproj]]; simpl in *; [|auto].
    split; [done|]. right. now rewrite Hproj.
Qed.

Lemma projectPrefixRe_plain p : projectPrefixRe p = true -> all_bytes plain p = true.
Proof.
  destruct p as [|a [|b [|c [|]]]]; try discriminate. simpl.
  intros H. repeat (apply andb_prop in H as [H ?]). now rewrite !lowerAlnum_plain.
Qed.

Lemma Split_app_sep a sep t :
  Split (a ++ String sep t) sep = (Split a sep ++ Split t sep)%list.
Proof.
  induction a as [|c a IH].
  - change (Split (String sep t) sep = (EmptyString :: Split t sep)).
    simpl. now rewrite Ascii.eqb_refl.
  - change (Split (String c (a ++ String sep t)) sep
            = (Split (String c a) sep ++ Split t sep)%list).
    simpl. destruct (Ascii.eqb c sep); [now rewrite IH|].
    rewrite IH. pose proof (Split_nonempty a sep). now destruct (Split a sep).
Qed.

(** X17. A configuration that parseFile accepts carries
    the path it was read from and a project that is either absent or a
    well-formed prefix, one that CreateIssue's own normalization leaves as it
    is and its prefix check accepts. *)
Theorem parsed_project_is_well_formed resolve path content cfg :
  parseFile resolve path content = inr cfg ->
  Path cfg = path /\
  (Project cfg = EmptyString \/
   (projectPrefixRe (Project cfg) = true /\
    TrimSpace (ToLower (Project cfg)) = Project cfg)).
Proof.
  unfold parseFile. intros Hparse.
  apply parseLines_project in Hparse as [Hpath Hproj]. simpl in *.
  split; [exact Hpath|]. destruct Hproj as [?|Hre]; [auto|]. right.
  split; [exact Hre|]. apply projectPrefixRe_plain in Hre.
  rewrite (ToLower_plain _ Hre). now apply TrimSpace_plain.
Qed.

(** X18. Blank lines and comment lines do not change what parseFile
    accepts: when a file is accepted, the file with one more blank
    or comment line inserted between two of its lines is accepted with the
    same result. *)
Theorem comment_lines_are_ignored resolve path above below comment cfg :
  skippedLine comment ->
  all_bytes (fun c => negb (Ascii.eqb c newline)) comment = true ->
  parseFile resolve path (above ++ String newline below) = inr cfg ->
  parseFile resolve path (above ++ String newline (comment ++ String newline below))
  = inr cfg.
Proof.
  intros Hskip Hline. unfold parseFile. fold newline.
  rewrite !Split_app_sep, (Split_plain _ _ Hline).
  rewrite !parseLines_app.
  destruct (parseLines resolve path (Split above newline) 0 _) as [e|cfg1];
    [discriminate|].
  intros Hrest. simpl parseLines at 1.
  assert (Hs : bool_decide (TrimSpace comment = EmptyString)
               || String.prefix "#" (TrimSpace comment) = true).
  { destruct Hskip as [ -> | -> ]; [reflexivity|apply orb_true_r]. }
  rewrite Hs. simpl. eapply parseLines_index, Hrest.
Qed.

End ConfigFile.

(** Instances, run with the string functions on ASCII text. *)
Section ConfigFileExamples.
#[local] Existing Instance asciiStrings.

Lemma parsed_project_witness :
  exists cfg,
    parseFile (fun _ v => v) "/repo/itconfig" ("project = C4T" ++ String newline "db=x") = inr cfg
    /\ Path cfg = "/repo/itconfig" /\
    (Project cfg = EmptyString \/
     (projectPrefixRe (Project cfg) = true /\
      TrimSpace (ToLower (Project cfg)) = Project cfg)).
Proof.
  eexists. split; [vm_compute; reflexivity|].
  apply (parsed_project_is_well_formed (fun _ v => v) "/repo/itconfig"
           ("project = C4T" ++ String newline "db=x")).
  vm_compute. reflexivity.
Defined.

Lemma comment_lines_witness :
  parseFile (fun _ v => v) "/repo/itconfig"
    ("db=x" ++ String newline (" # note" ++ String newline "project=cat"))
  = inr {| Path := "/repo/itconfig"; DBPath := "x"; Project := "cat" |}.
Proof.
  apply (comment_lines_are_ignored (fun _ v => v) "/repo/itconfig" "db=x" "project=cat"
           " # note").
  - right. reflexivity.
  - reflexivity.
  - vm_compute. reflexivity.
Defined.

End ConfigFileExamples.

(** ** The tree projection *)

Section TreeView.
Context {str : Strings}.

Lemma treeIndex_roots l ch rs : snd (treeIndex l ch rs) = (rs ++ rootsOf l)%list.
Proof.
  revert ch rs. induction l as [|i l IH]; intros ch rs.
  - simpl. now rewrite app_nil_r.
  - unfold rootsOf. simpl. destruct (ParentID i) as [pid|] eqn:Hp.
    + rewrite IH. reflexivity.
    + rewrite IH, <- app_assoc. reflexivity.
Qed.

Lemma treeIndex_children l ch rs pid :
  default [] (fst (treeIndex l ch rs) !! pid)
  = (default [] (ch !! pid) ++ childrenOf pid l)%list.
Proof.
  revert ch rs. induction l as [|i l IH]; intros ch rs.
  - simpl. now rewrite app_nil_r.
  - unfold childrenOf. simpl. destruct (ParentID i) as [q|] eqn:Hp.
    + rewrite IH. destruct (decide (q = pid)) as [->|Hne].
      * rewrite lookup_insert_eq, bool_decide_eq_true_2 by done.
        simpl. now rewrite <- app_assoc.
      * rewrite lookup_insert_ne, bool_decide_eq_false_2 by congruence. reflexivity.
    + rewrite IH. reflexivity.
Qed.

Lemma forEach_Some {A B} (f : A -> option B) (g : A -> B) xs :
  (forall x, x ∈ xs -> f x = Some (g x)) -> forEach f xs = Some (List.map g xs).
Proof.
  induction xs as [|x xs IH]; intros H; [reflexivity|].
  simpl. rewrite (H x) by left. rewrite IH; [reflexivity|].
  intros y Hy. apply H. now right.
Qed.

Lemma forEach_mono {A B} (f g : A -> option B) xs ys :
  (forall x y, f x = Some y -> g x = Some y) ->
  forEach f xs = Some ys -> forEach g xs = Some ys.
Proof.
  intros Hfg. revert ys. induction xs as [|x xs IH]; intros ys; [done|].
  simpl. destruct (f x) as [y|] eqn:Hx; [|discriminate].
  destruct (forEach f xs) as [ys'|]; [|discriminate].
  intros [= <-]. now rewrite (Hfg _ _ Hx), (IH ys').
Qed.

Lemma build_mono d ch root n :
  build d ch root = Some n -> build (S d) ch root = Some n.
Proof.
  revert root n. induction d as [|d IH]; intros root n; [discriminate|].
  intros H.
  change (match forEach (build (S d) ch) (default [] (ch !! ID root)) with
          | Some nodes => Some {| Issue_ := root; Children := nodes |}
          | None => None
          end = Some n).
  simpl in H. destruct (forEach (build d ch) _) as [nodes|] eqn:Hf; [|discriminate].
  now rewrite (forEach_mono _ (build (S d) ch) _ _ IH Hf).
Qed.

Lemma elem_of_childrenOf pid l u : u ∈ childrenOf pid l <-> u ∈ l /\ ParentID u = Some pid.
Proof.
  unfold childrenOf. rewrite !list_elem_of_In, filter_In, bool_decide_eq_true. tauto.
Qed.

Lemma elem_of_rootsOf l u : u ∈ rootsOf l <-> u ∈ l /\ ParentID u = None.
Proof.
  unfold rootsOf. rewrite !list_elem_of_In, filter_In, bool_decide_eq_true. tauto.
Qed.

Lemma list_nil_no_elem {A} (l : list A) : (forall x, x ∉ l) -> l = [].
Proof. destruct l as [|x l]; [done|]. intros H. destruct (H x). left. Qed.

Lemma NoDup_map_inj {A B} (f : A -> B) (l : list A) x y :
  NoDup (List.map f l) -> x ∈ l -> y ∈ l -> f x = f y -> x = y.
Proof.
  induction l as [|a l IH]; intros Hnd Hx Hy Hf; [inversion Hx|].
  simpl in Hnd. apply NoDup_cons in Hnd as [Hna Hnd].
  apply elem_of_cons in Hx as [->|Hx]; apply elem_of_cons in Hy as [->|Hy]; auto.
  - destruct Hna. rewrite Hf. apply list_elem_of_In, in_map, list_elem_of_In, Hy.
  - destruct Hna. rewrite <- Hf. apply list_elem_of_In, in_map, list_elem_of_In, Hx.
Qed.

Lemma NoDup_of_map {A B} (f : A -> B) (l : list A) : NoDup (List.map f l) -> NoDup l.
Proof.
  induction l as [|a l IH]; intros Hnd; [constructor|].
  simpl in Hnd. apply NoDup_cons in Hnd as [Hna Hnd]. apply NoDup_cons. split; [|auto].
  intros Hin. destruct Hna. apply list_elem_of_In, in_map, list_elem_of_In, Hin.
Qed.

Lemma NoDup_flat_map {A B} (f : A -> list B) (xs : list A) :
  NoDup xs -> (forall x, x ∈ xs -> NoDup (f x)) ->
  (forall x y z, x ∈ xs -> y ∈ xs -> z ∈ f x -> z ∈ f y -> x = y) ->
  NoDup (List.flat_map f xs).
Proof.
  induction xs as [|a xs IH]; intros Hnd Hf Hdis; [constructor|].
  apply NoDup_cons in Hnd as [Hna Hnd]. simpl. apply NoDup_app. split; [|split].
  - apply Hf. left.
  - intros z Hz Hin. apply list_elem_of_In, in_flat_map in Hin as (y & Hy & Hzy).
    apply list_elem_of_In in Hy, Hzy.
    assert (a = y) as -> by (apply (Hdis a y z); [left|now right|done|done]).
    done.
  - apply IH; [done| |].
    + intros x Hx. apply Hf. now right.
    + intros x y z Hx Hy. apply Hdis; now right.
Qed.

Lemma NoDup_filter_list {A} (P : A -> bool) (l : list A) : NoDup l -> NoDup (List.filter P l).
Proof.
  induction 1 as [|x l Hx Hnd IH]; [constructor|]. simpl.
  destruct (P x); [|done]. apply NoDup_cons. split; [|done].
  rewrite list_elem_of_In, filter_In, <- list_elem_of_In. tauto.
Qed.

Lemma flat_map_leafNode l : List.flat_map issuesOf (List.map leafNode l) = l.
Proof. induction l as [|x l IH]; [reflexivity|]. simpl. now rewrite IH. Qed.

Lemma Category_distinct :
  CategoryTask <> CategoryWorkstream /\ CategoryTask <> CategoryProject /\
  CategoryWorkstream <> CategoryProject.
Proof. repeat split; discriminate. Qed.

Section TreeShape.

Variable l : list Issue.

Variable ch : gmap string (list Issue).

Hypothesis Hch : forall pid, default [] (ch !! pid) = childrenOf pid l.

Hypothesis Hshape : forall u x, u ∈ l -> x ∈ l -> ParentID u = Some (ID x) ->
  (Category_ u = CategoryTask /\ Category_ x = CategoryWorkstream) \/
  (Category_ u = CategoryWorkstream /\ Category_ x = CategoryProject).

Lemma childrenOf_task t :
  t ∈ l -> Category_ t = CategoryTask -> childrenOf (ID t) l = [].
Proof.
  intros Ht Hc. apply list_nil_no_elem. intros c Hin.
  apply elem_of_childrenOf in Hin as [Hcl Hp].
  destruct (Hshape c t Hcl Ht Hp) as [[_ H]|[_ H]]; rewrite Hc in H; discriminate.
Qed.

Lemma childrenOf_workstream w c :
  w ∈ l -> Category_ w = CategoryWorkstream -> c ∈ childrenOf (ID w) l ->
  c ∈ l /\ Category_ c = CategoryTask.
Proof.
  intros Hw Hc Hin. apply elem_of_childrenOf in Hin as [Hcl Hp]. split; [done|].
  destruct (Hshape c w Hcl Hw Hp) as [[H _]|[_ H]]; [done|].
  rewrite Hc in H. discriminate.
Qed.

Lemma childrenOf_project p c :
  p ∈ l -> Category_ p = CategoryProject -> c ∈ childrenOf (ID p) l ->
  c ∈ l /\ Category_ c = CategoryWorkstream.
Proof.
  intros Hw Hc Hin. apply elem_of_childrenOf in Hin as [Hcl Hp]. split; [done|].
  destruct (Hshape c p Hcl Hw Hp) as [[_ H]|[H _]]; [|done].
  rewrite Hc in H. discriminate.
Qed.

Lemma build_task t d :
  t ∈ l -> Category_ t = CategoryTask -> build (S d) ch t = Some (leafNode t).
Proof.
  intros Ht Hc. simpl. now rewrite Hch, (childrenOf_task t Ht Hc).
Qed.

Lemma build_workstream w d :
  w ∈ l -> Category_ w = CategoryWorkstream ->
  build (S (S d)) ch w = Some (workstreamNode l w).
Proof.
  intros Hw Hc. change (build (S (S d)) ch w)
    with (match forEach (build (S d) ch) (default [] (ch !! ID w)) with
          | Some nodes => Some {| Issue_ := w; Children := nodes |}
          | None => None
          end).
  rewrite Hch, (forEach_Some _ leafNode); [reflexivity|].
  intros c Hin. destruct (childrenOf_workstream w c Hw Hc Hin). now apply build_task.
Qed.

Lemma build_project p d :
  p ∈ l -> Category_ p = CategoryProject ->
  build (S (S (S d))) ch p = Some (projectNode l p).
Proof.
  intros Hp Hc. change (build (S (S (S d))) ch p)
    with (match forEach (build (S (S d)) ch) (default [] (ch !! ID p)) with
          | Some nodes => Some {| Issue_ := p; Children := nodes |}
          | None => None
          end).
  rewrite Hch, (forEach_Some _ (workstreamNode l)); [reflexivity|].
  intros c Hin. destruct (childrenOf_project p c Hp Hc Hin). now apply build_workstream.
Qed.

Hypothesis Hroot : forall u, u ∈ l -> ParentID u = None -> Category_ u = CategoryProject.

Lemma forEach_build_roots d :
  forEach (build (S (S (S d))) ch) (rootsOf l) = Some (List.map (projectNode l) (rootsOf l)).
Proof.
  apply forEach_Some. intros p Hp. apply elem_of_rootsOf in Hp as [Hp Hn].
  apply build_project; auto.
Qed.

Lemma issuesOf_workstreamNode w : issuesOf (workstreamNode l w) = w :: childrenOf (ID w) l.
Proof. simpl. now rewrite flat_map_leafNode. Qed.

Lemma elem_of_issuesOf_projectNode p z :
  z ∈ issuesOf (projectNode l p) <->
  z = p \/ z ∈ childrenOf (ID p) l \/
  exists w, w ∈ childrenOf (ID p) l /\ z ∈ childrenOf (ID w) l.
Proof.
  simpl. rewrite elem_of_cons, list_elem_of_In, in_flat_map. split.
  - intros [->|(n & Hn & Hz)]; [auto|]. right.
    apply in_map_iff in Hn as (w & <- & Hw). apply list_elem_of_In in Hw, Hz.
    rewrite issuesOf_workstreamNode in Hz. apply elem_of_cons in Hz as [->|Hz]; eauto.
  - intros [->|[Hz|(w & Hw & Hz)]]; [auto| |]; right.
    + exists (workstreamNode l z). split; [apply in_map, list_elem_of_In, Hz|]. now left.
    + exists (workstreamNode l w). split; [apply in_map, list_elem_of_In, Hw|].
      apply list_elem_of_In. rewrite issuesOf_workstreamNode. now right.
Qed.

Hypothesis Hnd : NoDup (List.map ID l).

Lemma NoDup_issuesOf_projectNode p :
  p ∈ rootsOf l -> NoDup (issuesOf (projectNode l p)).
Proof.
  intros Hp. apply elem_of_rootsOf in Hp as [Hp Hn].
  pose proof (Hroot p Hp Hn) as Hc.
  assert (Hl : NoDup l) by (apply (NoDup_of_map ID), Hnd).
  simpl. apply NoDup_cons. split.
  - rewrite list_elem_of_In, in_flat_map. intros (n & Hin & Hz).
    apply in_map_iff in Hin as (w & <- & Hw). apply list_elem_of_In in Hw, Hz.
    rewrite issuesOf_workstreamNode in Hz.
    destruct (childrenOf_project p w Hp Hc Hw) as [Hwl Hwc].
    apply elem_of_cons in Hz as [->|Hz].
    + rewrite Hc in Hwc. discriminate.
    + destruct (childrenOf_workstream w p Hwl Hwc Hz) as [_ H]. rewrite Hc in H. discriminate.
  - rewrite flat_map_concat_map, List.map_map, <- flat_map_concat_map.
    apply NoDup_flat_map.
    + apply NoDup_filter_list, Hl.
    + intros w Hw. destruct (childrenOf_project p w Hp Hc Hw) as [Hwl Hwc].
      rewrite issuesOf_workstreamNode. apply NoDup_cons. split.
      * intros Hin. destruct (childrenOf_workstream w w Hwl Hwc Hin) as [_ H].
        rewrite Hwc in H. discriminate.
      * apply NoDup_filter_list, Hl.
    + intros w w' z Hw Hw'. rewrite !issuesOf_workstreamNode.
      destruct (childrenOf_project p w Hp Hc Hw) as [Hwl Hwc].
      destruct (childrenOf_project p w' Hp Hc Hw') as [Hwl' Hwc'].
      intros Hz Hz'.
      apply elem_of_cons in Hz as [->|Hz]; apply elem_of_cons in Hz' as [Heq|Hz']; auto.
      * destruct (childrenOf_workstream w' w Hwl' Hwc' Hz') as [_ H].
        rewrite Hwc in H. discriminate.
      * subst z. destruct (childrenOf_workstream w w' Hwl Hwc Hz) as [_ H].
        rewrite Hwc' in H. discriminate.
      * apply elem_of_childrenOf in Hz as [_ Hz], Hz' as [_ Hz'].
        apply (NoDup_map_inj ID l); [done..|congruence].
Qed.

Lemma NoDup_forest : NoDup (List.flat_map issuesOf (List.map (projectNode l) (rootsOf l))).
Proof.
  assert (Hl : NoDup l) by (apply (NoDup_of_map ID), Hnd).
  rewrite flat_map_concat_map, List.map_map, <- flat_map_concat_map.
  apply NoDup_flat_map.
  - apply NoDup_filter_list, Hl.
  - apply NoDup_issuesOf_projectNode.
  - intros p q z Hp Hq Hz Hz'.
    apply elem_of_rootsOf in Hp as [Hp Hpn], Hq as [Hq Hqn].
    pose proof (Hroot p Hp Hpn) as Hpc. pose proof (Hroot q Hq Hqn) as Hqc.
    apply elem_of_issuesOf_projectNode in Hz, Hz'.
    assert (Hlevel : forall r, r ∈ l -> Category_ r = CategoryProject ->
              (z = r -> Category_ z = CategoryProject) /\
              (z ∈ childrenOf (ID r) l -> Category_ z = CategoryWorkstream) /\
              ((exists w, w ∈ childrenOf (ID r) l /\ z ∈ childrenOf (ID w) l) ->
               Category_ z = CategoryTask)).
    { intros r Hr Hrc. split; [now intros ->|]. split.
      - intros H. now destruct (childrenOf_project r z Hr Hrc H).
      - intros (w & Hw & H). destruct (childrenOf_project r w Hr Hrc Hw) as [Hwl Hwc].
        now destruct (childrenOf_workstream w z Hwl Hwc H). }
    destruct (Hlevel p Hp Hpc) as (P1 & P2 & P3).
    destruct (Hlevel q Hq Hqc) as (Q1 & Q2 & Q3).
    destruct Hz as [Hz|[Hz|Hz]]; destruct Hz' as [Hz'|[Hz'|Hz']];
      try (specialize (P1 Hz)); try (specialize (P2 Hz)); try (specialize (P3 Hz));
      try (specialize (Q1 Hz')); try (specialize (Q2 Hz')); try (specialize (Q3 Hz'));
      try congruence;
      try (exfalso;
           match goal with
           | H1 : Category_ z = _, H2 : Category_ z = _ |- _ =>
               rewrite H1 in H2; discriminate H2
           end).
    + apply elem_of_childrenOf in Hz as [_ Hz], Hz' as [_ Hz'].
      apply (NoDup_map_inj ID l); [done..|congruence].
    + destruct Hz as (w & Hw & Hz). destruct Hz' as (w' & Hw' & Hz').
      apply elem_of_childrenOf in Hz as [_ Hz], Hz' as [_ Hz'].
      apply elem_of_childrenOf in Hw as [Hwl Hw], Hw' as [Hwl' Hw'].
      assert (w = w') as <- by (apply (NoDup_map_inj ID l); [done..|congruence]).
      apply (NoDup_map_inj ID l); [done..|congruence].
Qed.

Hypothesis Hclosed : forall u pid, u ∈ l -> ParentID u = Some pid ->
  exists x, x ∈ l /\ ID x = pid.

Lemma project_is_root x : x ∈ l -> Category_ x = CategoryProject -> x ∈ rootsOf l.
Proof.
  intros Hx Hc. apply elem_of_rootsOf. split; [done|].
  destruct (ParentID x) as [pid|] eqn:Hp; [|done].
  destruct (Hclosed x pid Hx Hp) as (y & Hy & <-).
  destruct (Hshape x y Hx Hy Hp) as [[H _]|[H _]]; rewrite Hc in H; discriminate.
Qed.

Lemma workstream_under_root x :
  x ∈ l -> Category_ x = CategoryWorkstream ->
  exists p, p ∈ rootsOf l /\ x ∈ childrenOf (ID p) l.
Proof.
  intros Hx Hc. destruct (ParentID x) as [pid|] eqn:Hp.
  - destruct (Hclosed x pid Hx Hp) as (y & Hy & <-).
    destruct (Hshape x y Hx Hy Hp) as [[H _]|[_ H]]; [rewrite Hc in H; discriminate|].
    exists y. split; [now apply project_is_root|]. now apply elem_of_childrenOf.
  - rewrite (Hroot x Hx Hp) in Hc. discriminate.
Qed.

Lemma elem_of_forest z :
  z ∈ List.flat_map issuesOf (List.map (projectNode l) (rootsOf l)) <-> z ∈ l.
Proof.
  rewrite list_elem_of_In, in_flat_map. split.
  - intros (n & Hn & Hz). apply in_map_iff in Hn as (p & <- & Hp).
    apply list_elem_of_In in Hp, Hz. apply elem_of_rootsOf in Hp as [Hp _].
    apply elem_of_issuesOf_projectNode in Hz as [->|[Hz|(w & _ & Hz)]]; [done| |];
      now apply elem_of_childrenOf in Hz as [Hz _].
  - intros Hz.
    assert (exists p, p ∈ rootsOf l /\ z ∈ issuesOf (projectNode l p)) as (p & Hp & Hin).
    { destruct (ParentID z) as [pid|] eqn:Hpz.
      - destruct (Hclosed z pid Hz Hpz) as (y & Hy & <-).
        destruct (Hshape z y Hz Hy Hpz) as [[_ Hyc]|[_ Hyc]].
        + destruct (workstream_under_root y Hy Hyc) as (p & Hp & Hyp).
          exists p. split; [done|]. apply elem_of_issuesOf_projectNode. right. right.
          exists y. split; [done|]. now apply elem_of_childrenOf.
        + exists y. split; [now apply project_is_root|].
          apply elem_of_issuesOf_projectNode. right. left. now apply elem_of_childrenOf.
      - exists z. split; [now apply elem_of_rootsOf|].
        apply elem_of_issuesOf_projectNode. now left. }
    exists (projectNode l p). split; [|now apply list_elem_of_In].
    apply in_map, list_elem_of_In, Hp.
Qed.

End TreeShape.

Lemma listed_issue (db : Store) p u :
  u ∈ merge_sort orderedBefore (selectedRows db p None) <->
  exists id r, db !! id = Some r /\ u = scanIssue id r /\ listCondition p None id r = true.
Proof.
  rewrite (merge_sort_Permutation orderedBefore (selectedRows db p None)).
  apply elem_of_selectedRows.
Qed.

Lemma parent_row (db : Store) id r pid :
  reachable db -> db !! id = Some r -> parent_id r = Some pid ->
  exists pr, db !! pid = Some pr /\
    ProjectPrefix (scanIssue pid pr) = ProjectPrefix (scanIssue id r) /\
    ((category r = CategoryTask /\ category pr = CategoryWorkstream) \/
     (category r = CategoryWorkstream /\ category pr = CategoryProject)).
Proof.
  intros Hreach Hr Hp.
  destruct (reachable_rowsInv _ Hreach _ _ Hr) as (_ & Hcat & _).
  destruct (reachable_hierarchyInv _ Hreach _ _ Hr) as (H1 & H2 & H3).
  unfold IsValidCategory in Hcat. rewrite !orb_true_iff, !bool_decide_eq_true in Hcat.
  destruct Hcat as [[Hc|Hc]|Hc].
  - destruct (H3 Hc) as (q & pr & Hq & Hpr & Hpc & Hpp).
    rewrite Hp in Hq. injection Hq as <-. eauto 10.
  - destruct (H2 Hc) as (q & pr & Hq & Hpr & Hpc & Hpp).
    rewrite Hp in Hq. injection Hq as <-. eauto 10.
  - rewrite (H1 Hc) in Hp. discriminate.
Qed.

Lemma root_row (db : Store) id r :
  reachable db -> db !! id = Some r -> parent_id r = None -> category r = CategoryProject.
Proof.
  intros Hreach Hr Hp.
  destruct (reachable_rowsInv _ Hreach _ _ Hr) as (_ & Hcat & _).
  destruct (reachable_hierarchyInv _ Hreach _ _ Hr) as (H1 & H2 & H3).
  unfold IsValidCategory in Hcat. rewrite !orb_true_iff, !bool_decide_eq_true in Hcat.
  destruct Hcat as [[Hc|Hc]|Hc]; [| |done].
  - destruct (H3 Hc) as (q & pr & Hq & _). rewrite Hp in Hq. discriminate.
  - destruct (H2 Hc) as (q & pr & Hq & _). rewrite Hp in Hq. discriminate.
Qed.

Lemma listCondition_project (db : Store) p id r id' r' :
  reachable db -> projectFilter p ->
  db !! id = Some r -> db !! id' = Some r' ->
  ProjectPrefix (scanIssue id' r') = ProjectPrefix (scanIssue id r) ->
  listCondition p None id r = true -> listCondition p None id' r' = true.
Proof.
  intros Hreach Hp Hr Hr' Hpp. unfold listCondition.
  case_bool_decide as Hnil; [done|].
  destruct Hp as [Hp|Hp]; [done|].
  destruct (reachable_rowsInv _ Hreach _ _ Hr) as ((q & n & Hq & ->) & _).
  destruct (reachable_rowsInv _ Hreach _ _ Hr') as ((q' & n' & Hq' & ->) & _).
  simpl ProjectPrefix in Hpp.
  rewrite (projectPrefixFromIssueID_fresh _ _ Hq),
    (projectPrefixFromIssueID_fresh _ _ Hq') in Hpp. subst q'.
  now rewrite !(like_project_prefix _ _ _ Hp Hq).
Qed.

Lemma Tree_projection (db : Store) p d :
  reachable db ->
  let l := merge_sort orderedBefore (selectedRows db p None) in
  Tree (S (S (S d))) db p = inr (Some (List.map (projectNode l) (rootsOf l))) /\
  (forall u x, u ∈ l -> x ∈ l -> ParentID u = Some (ID x) ->
     (Category_ u = CategoryTask /\ Category_ x = CategoryWorkstream) \/
     (Category_ u = CategoryWorkstream /\ Category_ x = CategoryProject)) /\
  (forall u, u ∈ l -> ParentID u = None -> Category_ u = CategoryProject).
Proof.
  intros Hreach l.
  assert (Hshape : forall u x, u ∈ l -> x ∈ l -> ParentID u = Some (ID x) ->
            (Category_ u = CategoryTask /\ Category_ x = CategoryWorkstream) \/
            (Category_ u = CategoryWorkstream /\ Category_ x = CategoryProject)).
  { intros u x Hu Hx Hp.
    apply listed_issue in Hu as (id & r & Hr & -> & _).
    apply listed_issue in Hx as (id' & r' & Hr' & -> & _). simpl in Hp |- *.
    destruct (parent_row db id r id' Hreach Hr Hp) as (pr & Hpr & _ & Hc).
    rewrite Hr' in Hpr. injection Hpr as <-. exact Hc. }
  assert (Hroot : forall u, u ∈ l -> ParentID u = None -> Category_ u = CategoryProject).
  { intros u Hu Hp. apply listed_issue in Hu as (id & r & Hr & -> & _).
    simpl in Hp |- *. eapply root_row; eauto. }
  split; [|auto].
  unfold Tree. rewrite ListIssues_selected by discriminate. fold l.
  pose proof (treeIndex_roots l ∅ []) as Hrs.
  pose proof (fun pid => treeIndex_children l ∅ [] pid) as Hch.
  destruct (treeIndex l ∅ []) as [ch rs]. simpl in Hrs, Hch. subst rs.
  f_equal. apply forEach_build_roots; [|done..].
  intros pid. rewrite Hch, lookup_empty. reflexivity.
Qed.


(** X20. With no prefix filter, or with a well-formed project prefix, the
    forest that Tree returns on a table the service can produce holds every
    listed issue exactly once: no issue is dropped for want of its parent
    and none is shown under two parents. *)
Theorem tree_shows_each_issue_once (db : Store) p depth l forest :
  reachable db -> readDomain db p -> projectFilter p ->
  ListIssues db p None = inr l ->
  Tree depth db p = inr (Some forest) ->
  List.flat_map issuesOf forest ≡ₚ l.
Proof.
  intros Hreach _ Hp Hl Htree.
  rewrite ListIssues_selected in Hl by discriminate. injection Hl as <-.
  set (l := merge_sort orderedBefore (selectedRows db p None)) in *.
  assert (Hnd : NoDup (List.map ID l)).
  { unfold l. rewrite (Permutation_map ID (merge_sort_Permutation orderedBefore _)).
    apply NoDup_ID_selectedRows. }
  assert (Hclosed : forall u pid, u ∈ l -> ParentID u = Some pid ->
            exists x, x ∈ l /\ ID x = pid).
  { intros u pid Hu Hpar. apply listed_issue in Hu as (id & r & Hr & -> & Hc).
    simpl in Hpar. destruct (parent_row db id r pid Hreach Hr Hpar) as (pr & Hpr & Hpp & _).
    exists (scanIssue pid pr). split; [|done]. apply listed_issue.
    exists pid, pr. split; [done|]. split; [done|].
    exact (listCondition_project db p id r pid pr Hreach Hp Hr Hpr Hpp Hc). }
  destruct (Tree_projection db p 0 Hreach) as (_ & Hshape & Hroot). fold l in Hshape, Hroot.
  assert (forest = List.map (projectNode l) (rootsOf l)) as ->.
  { revert Htree. unfold Tree. rewrite ListIssues_selected by discriminate. fold l.
    pose proof (treeIndex_roots l ∅ []) as Hrs.
    pose proof (fun pid => treeIndex_children l ∅ [] pid) as Hch.
    destruct (treeIndex l ∅ []) as [ch rs]. simpl in Hrs, Hch. subst rs.
    intros [= Hf].
    assert (Hch' : forall pid, default [] (ch !! pid) = childrenOf pid l).
    { intros pid. rewrite Hch, lookup_empty. reflexivity. }
    apply (forEach_mono _ (build (S (S (S depth))) ch)) in Hf.
    - rewrite (forEach_build_roots l ch Hch' Hshape Hroot depth) in Hf. congruence.
    - intros x y Hx. now do 3 apply build_mono. }
  apply NoDup_Permutation.
  - now apply NoDup_forest.
  - now apply (NoDup_of_map ID).
  - intros z. now apply elem_of_forest.
Qed.

End TreeView.

(** Instances, run with the string functions on ASCII text. *)
Section TreeViewExamples.
#[local] Existing Instance asciiStrings.


Lemma tree_shows_each_issue_once_witness :
  exists l forest,
    ListIssues exampleStore "cat" None = inr l /\
    Tree 3 exampleStore "cat" = inr (Some forest) /\
    List.flat_map issuesOf forest ≡ₚ l.
Proof.
  eexists _, _. split; [vm_compute; reflexivity|]. split; [vm_compute; reflexivity|].
  apply (tree_shows_each_issue_once exampleStore "cat" 3 _ _ exampleStore_reachable).
  - apply exampleStore_readDomain. reflexivity.
  - right. reflexivity.
  - vm_compute; reflexivity.
  - vm_compute; reflexivity.
Defined.

End TreeViewExamples.

(** ** When SetParent and SetBlockedBy succeed *)

Section Updates.
Context {str : Strings}.

Lemma setParentChecksTx_complete (db : Store) issue parentID :
  IsValidCategory (Category_ issue) = true ->
  parentRule db (ProjectPrefix issue) (Category_ issue) (effectiveParent parentID) ->
  setParentChecksTx issue parentID db = inr (effectiveParent parentID, db).
Proof.
  intros Hcat Hrule. unfold setParentChecksTx.
  destruct (expectedParentCategory_cases (Category_ issue))
    as [[Hc H]|[[Hc H]|(Ht & Hw & H)]]; rewrite H.
  - apply (parentRule_required _ _ _ _ _ H) in Hrule
      as (pid & pr & Hpid & Hpr & Hpc & Hpp).
    unfold effectiveParent in Hpid |- *.
    destruct (hasParentID parentID); [|discriminate]. injection Hpid as Hpid.
    simpl. unfold tx_bind. rewrite Hpid, (getIssueByIDTx_Some _ _ _ Hpr).
    change (Category_ (scanIssue pid pr)) with (category pr).
    rewrite Hpp, Hpc. simpl. now rewrite !bool_decide_eq_true_2 by done.
  - apply (parentRule_required _ _ _ _ _ H) in Hrule
      as (pid & pr & Hpid & Hpr & Hpc & Hpp).
    unfold effectiveParent in Hpid |- *.
    destruct (hasParentID parentID); [|discriminate]. injection Hpid as Hpid.
    simpl. unfold tx_bind. rewrite Hpid, (getIssueByIDTx_Some _ _ _ Hpr).
    change (Category_ (scanIssue pid pr)) with (category pr).
    rewrite Hpp, Hpc. simpl. now rewrite !bool_decide_eq_true_2 by done.
  - unfold IsValidCategory in Hcat. rewrite !orb_true_iff, !bool_decide_eq_true in Hcat.
    destruct Hcat as [[Hc|Hc]|Hc]; [done|done|].
    destruct Hrule as (Hnone & _). specialize (Hnone Hc).
    unfold effectiveParent in Hnone |- *.
    destruct (hasParentID parentID); [discriminate|]. reflexivity.
Qed.

Lemma setParentChecksTx_category (db : Store) issue parentID :
  (Category_ issue = CategoryProject -> hasParentID parentID = true ->
   exists e, setParentChecksTx issue parentID db = inl e /\
             Unwrap e = Some ErrInvalidInput) /\
  (Category_ issue = CategoryTask \/ Category_ issue = CategoryWorkstream ->
   hasParentID parentID = false ->
   exists e, setParentChecksTx issue parentID db = inl e /\
             Unwrap e = Some ErrInvalidInput).
Proof.
  unfold setParentChecksTx. split.
  - intros Hc Hhas. rewrite Hc, Hhas. simpl. eauto.
  - intros Hc Hhas.
    destruct (expectedParentCategory_cases (Category_ issue))
      as [[_ H]|[[_ H]|(Ht & Hw & _)]]; [| |tauto]; rewrite H, Hhas; simpl; eauto.
Qed.

Lemma normalizeBlockedByLoop_succeeds issueID projectPrefix (db : Store) blockedBy :
  forall (seen : gmap string bool) out,
    (forall raw, raw ∈ blockedBy ->
       ToLower (TrimSpace raw) = EmptyString \/
       accepted db issueID projectPrefix (ToLower (TrimSpace raw))) ->
    exists res, normalizeBlockedByLoop issueID projectPrefix blockedBy seen out db
                = inr (res, db).
Proof.
  induction blockedBy as [|raw rest IH]; intros seen out Hall; simpl.
  - unfold tx_ret. eauto.
  - assert (Hrest : forall x, x ∈ rest ->
              ToLower (TrimSpace x) = EmptyString \/
              accepted db issueID projectPrefix (ToLower (TrimSpace x))).
    { intros x Hx. apply Hall. now right. }
    case_bool_decide as Hempty; [now apply IH|].
    destruct (Hall raw) as [Hb|(Hre & Hself & Hpp & [rd Hd])]; [left|done|].
    rewrite Hre. simpl. rewrite bool_decide_eq_false_2 by done.
    destruct (default false (seen !! _)); [now apply IH|].
    rewrite Hpp. simpl. rewrite bool_decide_eq_true_2 by done. simpl.
    unfold tx_bind, tx_try. rewrite (getIssueByIDTx_Some _ _ _ Hd).
    assert (Heq : ProjectPrefix (scanIssue (ToLower (TrimSpace raw)) rd) = projectPrefix)
      by (unfold scanIssue; simpl; now rewrite Hpp).
    rewrite Heq, bool_decide_eq_true_2 by done. simpl.
    now apply IH.
Qed.

Lemma normalizeBlockedByLoop_demands issueID projectPrefix (db : Store) blockedBy :
  forall (seen : gmap string bool) out res tx,
    normalizeBlockedByLoop issueID projectPrefix blockedBy seen out db = inr (res, tx) ->
    (forall x, default false (seen !! x) = true -> accepted db issueID projectPrefix x) ->
    forall raw, raw ∈ blockedBy ->
      ToLower (TrimSpace raw) = EmptyString \/
      accepted db issueID projectPrefix (ToLower (TrimSpace raw)).
Proof.
  induction blockedBy as [|raw rest IH]; intros seen out res tx; simpl.
  { intros _ _ x Hx. inversion Hx. }
  case_bool_decide as Hempty.
  { intros Hrun Hseen x Hx. apply elem_of_cons in Hx as [->|Hx]; [auto|]. eauto. }
  destruct (issueIDRe _) eqn:Hre; simpl; [|discriminate].
  case_bool_decide as Hself; [discriminate|].
  destruct (default false (seen !! _)) eqn:Hs.
  { intros Hrun Hseen x Hx. apply elem_of_cons in Hx as [->|Hx]; [auto|]. eauto. }
  destruct (projectPrefixFromIssueID _) as [prefix ok] eqn:Hpp.
  destruct ok; simpl; [|discriminate].
  case_bool_decide as Hprefix; simpl; [|discriminate]. subst prefix.
  unfold tx_bind, tx_try, getIssueByIDTx.
  destruct (db !! _) as [rd|] eqn:Hd; simpl; [|discriminate].
  destruct (negb _); [discriminate|].
  intros Hrun Hseen x Hx.
  assert (Hacc : accepted db issueID projectPrefix (ToLower (TrimSpace raw))).
  { split; [done|]. split; [done|]. split; [done|]. eauto. }
  apply elem_of_cons in Hx as [->|Hx]; [auto|].
  apply (IH _ _ _ _ Hrun); [|done].
  intros y Hy. destruct (decide (ToLower (TrimSpace raw) = y)) as [<-|Hne]; [done|].
  rewrite lookup_insert_ne in Hy by done. auto.
Qed.

Lemma normalizeBlockedByLoop_members issueID projectPrefix (db : Store) blockedBy :
  forall (seen : gmap string bool) out res tx,
    normalizeBlockedByLoop issueID projectPrefix blockedBy seen out db = inr (res, tx) ->
    (forall x, default false (seen !! x) = true -> x ∈ out) ->
    forall d, d ∈ res <->
      d ∈ out \/ exists raw, raw ∈ blockedBy /\ d = ToLower (TrimSpace raw) /\
                             d <> EmptyString.
Proof.
  induction blockedBy as [|raw rest IH]; intros seen out res tx; simpl.
  { unfold tx_ret. intros [= <- _] _ d. split; [auto|].
    intros [H|(x & Hx & _)]; [done|inversion Hx]. }
  case_bool_decide as Hempty.
  { intros Hrun Hseen d. rewrite (IH _ _ _ _ Hrun Hseen d). split.
    - intros [H|(x & Hx & Hd & Hne)]; [auto|]. right. exists x. split; [now right|done].
    - intros [H|(x & Hx & Hd & Hne)]; [auto|].
      apply elem_of_cons in Hx as [->|Hx]; [congruence|eauto]. }
  destruct (issueIDRe _) eqn:Hre; simpl; [|discriminate].
  case_bool_decide as Hself; [discriminate|].
  destruct (default false (seen !! _)) eqn:Hs.
  { intros Hrun Hseen d. rewrite (IH _ _ _ _ Hrun Hseen d). split.
    - intros [H|(x & Hx & Hd & Hne)]; [auto|]. right. exists x. split; [now right|done].
    - intros [H|(x & Hx & Hd & Hne)]; [auto|].
      apply elem_of_cons in Hx as [->|Hx]; [|eauto].
      left. subst d. now apply Hseen. }
  destruct (projectPrefixFromIssueID _) as [prefix ok] eqn:Hpp.
  destruct ok; simpl; [|discriminate].
  case_bool_decide as Hprefix; simpl; [|discriminate]. subst prefix.
  unfold tx_bind, tx_try, getIssueByIDTx.
  destruct (db !! _) as [rd|] eqn:Hd; simpl; [|discriminate].
  destruct (negb _); [discriminate|].
  intros Hrun Hseen d.
  rewrite (IH _ _ _ _ Hrun).
  2:{ intros y Hy. apply elem_of_app.
      destruct (decide (ToLower (TrimSpace raw) = y)) as [<-|Hne].
      - right. left.
      - rewrite lookup_insert_ne in Hy by done. auto. }
  rewrite elem_of_app, list_elem_of_singleton. split.
  - intros [[H|H]|(x & Hx & Hdx & Hne)]; [auto| |].
    + right. exists raw. split; [left|]. split; [done|]. now subst d.
    + right. exists x. split; [now right|done].
  - intros [H|(x & Hx & Hdx & Hne)]; [auto|].
    apply elem_of_cons in Hx as [->|Hx]; [auto|eauto].
Qed.

(** X21. On a table the service can produce, SetParent succeeds exactly
    when the id is not blank, the issue exists, the designated parent meets
    the hierarchy rule of the issue's category (none for a project; an
    existing project of the same project prefix for a workstream; an
    existing workstream of the same project prefix for a task), and the
    expected version, if given, is the row's version.  Giving a project a
    parent, or taking the parent from a task or a workstream, is refused as
    invalid input whatever the version. *)
Theorem set_parent_succeeds_exactly_when (db : Store) now id parentID ev :
  reachable db -> updateDomain db id ->
  ((exists u db', SetParent db now id parentID ev = (inr u, db')) <->
   TrimSpace id <> EmptyString /\
   exists r, db !! TrimSpace id = Some r /\
     parentRule db (ProjectPrefix (scanIssue (TrimSpace id) r)) (category r)
       (effectiveParent parentID) /\
     versionMatches r ev = true) /\
  (forall r, db !! TrimSpace id = Some r ->
     (category r = CategoryProject /\ hasParentID parentID = true) \/
     (category r <> CategoryProject /\ hasParentID parentID = false) ->
     exists e, SetParent db now id parentID ev = (inl e, db) /\
               Unwrap e = Some ErrInvalidInput).
Proof.
  intros Hreach _. split; [split|].
  - intros (u & db' & Hop). apply SetParent_success in Hop as (Hid & r & Hr & Hrule & Hv & _).
    eauto.
  - intros (Hid & r & Hr & Hrule & Hv).
    destruct (reachable_rowsInv _ Hreach _ _ Hr) as (_ & Hcat & _).
    rewrite (SetParent_existing _ _ _ _ _ _ Hr Hid).
    rewrite (setParentChecksTx_complete db (scanIssue (TrimSpace id) r) parentID Hcat Hrule).
    rewrite Hv. eauto.
  - intros r Hr Hcase.
    destruct (reachable_rowsInv _ Hreach _ _ Hr) as (Hform & Hcat & _).
    assert (Hid : TrimSpace id <> EmptyString).
    { destruct Hform as (q & n & Hq & Heq). rewrite Heq.
      destruct q as [|a q]; [discriminate|]. discriminate. }
    rewrite (SetParent_existing _ _ _ _ _ _ Hr Hid).
    destruct (setParentChecksTx_category db (scanIssue (TrimSpace id) r) parentID)
      as [Hproj Hother].
    destruct Hcase as [[Hc Hhas]|[Hc Hhas]].
    + destruct (Hproj Hc Hhas) as (e & -> & He). eauto.
    + unfold IsValidCategory in Hcat. rewrite !orb_true_iff, !bool_decide_eq_true in Hcat.
      destruct Hother as (e & -> & He); [tauto|done|eauto].
Qed.

(** X22. SetBlockedBy succeeds exactly when the id is not blank, the issue
    exists, every entry of the list is blank or (trimmed and lower-cased) a
    well-formed id other than the issue's own that names an existing issue
    of the same project, and the expected version, if given, is the row's
    version.  The dependencies then stored are the non-blank entries in
    normal form, each once.  In particular the empty list clears the
    dependencies of any existing issue. *)
Theorem set_blocked_by_succeeds_exactly_when (db : Store) now id blockedBy ev :
  updateDomain db id ->
  ((exists u db', SetBlockedBy db now id blockedBy ev = (inr u, db')) <->
   TrimSpace id <> EmptyString /\
   exists r, db !! TrimSpace id = Some r /\
     (forall raw, raw ∈ blockedBy ->
        ToLower (TrimSpace raw) = EmptyString \/
        accepted db (TrimSpace id) (ProjectPrefix (scanIssue (TrimSpace id) r))
          (ToLower (TrimSpace raw))) /\
     versionMatches r ev = true) /\
  (forall u db', SetBlockedBy db now id blockedBy ev = (inr u, db') ->
     NoDup (BlockedBy u) /\
     forall d, d ∈ BlockedBy u <->
       exists raw, raw ∈ blockedBy /\ d = ToLower (TrimSpace raw) /\ d <> EmptyString) /\
  (forall r, TrimSpace id <> EmptyString -> db !! TrimSpace id = Some r ->
     versionMatches r ev = true ->
     fst (SetBlockedBy db now id [] ev)
     = inr (scanIssue (TrimSpace id) (setBlockedByCol now [] r))).
Proof.
  intros _. split; [split|split].
  - intros (u & db' & Hop).
    apply SetBlockedBy_success in Hop as (Hid & r & nb & Hr & Hnorm & Hv & _).
    split; [done|]. exists r. split; [done|]. split; [|done].
    apply (normalizeBlockedByLoop_demands _ _ _ _ _ _ _ _ Hnorm).
    intros x Hx. rewrite lookup_empty in Hx. discriminate.
  - intros (Hid & r & Hr & Hall & Hv).
    rewrite (SetBlockedBy_existing _ _ _ _ _ _ Hr Hid). unfold normalizeBlockedByTx.
    destruct (normalizeBlockedByLoop_succeeds _ _ _ _ ∅ [] Hall) as (res & ->).
    rewrite Hv. eauto.
  - intros u db' Hop.
    apply SetBlockedBy_success in Hop as (Hid & r & nb & Hr & Hnorm & Hv & _ & ->).
    simpl. split; [now apply normalizeBlockedByTx_accepted in Hnorm|].
    intros d. rewrite (normalizeBlockedByLoop_members _ _ _ _ _ _ _ _ Hnorm).
    + split; [intros [H|H]; [inversion H|done]|auto].
    + intros x Hx. rewrite lookup_empty in Hx. discriminate.
  - intros r Hid Hr Hv. rewrite (SetBlockedBy_existing _ _ _ _ _ _ Hr Hid).
    unfold normalizeBlockedByTx. simpl. unfold tx_ret. now rewrite Hv.
Qed.

End Updates.

(** Instances, run with the string functions on ASCII text. *)
Section UpdateExamples.
#[local] Existing Instance asciiStrings.

Lemma set_parent_witness :
  (exists u db', SetParent exampleStore 20 "cat-100002" (Some "cat-100001") (Some 3)
                 = (inr u, db')) /\
  exists e, SetParent exampleStore 20 "cat-100002" None None = (inl e, exampleStore) /\
            Unwrap e = Some ErrInvalidInput.
Proof.
  destruct (set_parent_succeeds_exactly_when exampleStore 20 "cat-100002"
              (Some "cat-100001") (Some 3) exampleStore_reachable
              (exampleStore_updateDomain "cat-100002"))
    as [[_ Hok] _].
  destruct (set_parent_succeeds_exactly_when exampleStore 20 "cat-100002"
              None None exampleStore_reachable
              (exampleStore_updateDomain "cat-100002"))
    as [_ Hbad].
  split.
  - apply Hok. split; [discriminate|]. eexists. split; [vm_compute; reflexivity|].
    split; [|reflexivity]. split; [discriminate|]. split; [discriminate|].
    intros _. eexists _, _. split; [reflexivity|]. split; [vm_compute; reflexivity|].
    split; reflexivity.
  - eapply Hbad; [vm_compute; reflexivity|]. right. split; [discriminate|reflexivity].
Defined.

Lemma set_blocked_by_witness :
  (exists u db',
     SetBlockedBy exampleStore 20 "cat-100004" [" CAT-100002"; "cat-100003"] (Some 3)
     = (inr u, db')) /\
  fst (SetBlockedBy exampleStore 20 "cat-100004" [] (Some 3))
  = inr (scanIssue "cat-100004" (setBlockedByCol 20 [] exampleBusyTask)).
Proof.
  split.
  - apply (set_blocked_by_succeeds_exactly_when exampleStore 20 "cat-100004"
             [" CAT-100002"; "cat-100003"] (Some 3)
             (exampleStore_updateDomain "cat-100004")).
    split; [discriminate|]. exists exampleBusyTask. split; [reflexivity|].
    split; [|reflexivity].
    intros raw Hraw. right. rewrite !elem_of_cons, elem_of_nil in Hraw.
    destruct Hraw as [ -> | [ -> | [] ] ];
      (split; [reflexivity|]; split; [discriminate|]; split; [reflexivity|]);
      vm_compute; eauto.
  - destruct (set_blocked_by_succeeds_exactly_when exampleStore 20 "cat-100004" [] (Some 3)
                (exampleStore_updateDomain "cat-100004")) as (_ & _ & Hclear).
    assert (Hid : TrimSpace "cat-100004" <> EmptyString) by discriminate.
    exact (Hclear exampleBusyTask Hid eq_refl eq_refl).
Defined.

End UpdateExamples.
